(** * Excel record search tool: the matching and ranking engine

    A shallow embedding of [src/main.py] (class [ExcelSearchTool]): the three
    search methods [exact_search], [partial_search], [fuzzy_search], the
    scorer [advanced_fuzzy_search] and the dispatcher [execute_search],
    together with the parts of the Python standard library ([str],
    [difflib.SequenceMatcher], [float]) and of pandas ([DataFrame] selection,
    column assignment, [sort_values]) that these methods call.  Module
    [Window] adds the methods around the search: the two displays,
    [save_results], the column widths of [apply_excel_styles] and
    [clear_all].

    Conventions.
    - A Python [str] is a [string]; one [ascii] stands for one character.
      Case folding and white space are those of Python on the ASCII range.
    - A Python [float] is an IEEE-754 binary64 value, [spec_float] with
      [prec = 53] and [emax = 1024]; its operations are the correctly
      rounded ones of [SpecFloat].
    - A DataFrame is a header and a list of labelled rows; frames live in a
      store addressed by location, because the methods copy and then update
      frames in place.  The column labels are texts, as they are for a
      sheet whose header cells are all text.
    - Two library routines are taken as parameters: [re.compile], which
      [Series.str.contains] calls on the keyword, and the indexer behind
      [sort_values] with its default sort kind.  Module [Re] and module
      [Argsort] say what is assumed of them; module [Quicksort] is the
      indexer that pandas and numpy compute, the quicksort of
      [npysort/quicksort.cpp] under [nargsort].  Module [Window] takes the
      Excel writer as a parameter, and assumes nothing of it.
    - [Series.astype(str)] is the one of pandas 2: a missing value becomes
      the text "nan". *)

From Stdlib Require Import ZArith List Strings.String Strings.Ascii Lia.
From Stdlib Require Import Floats.SpecFloat DecimalString.
From Stdlib Require Import Sorting.Permutation Sorting.Sorted.
From stdpp Require Import gmap strings list.

Open Scope Z_scope.

(* ===================================================================== *)
(** * Python strings *)
(* ===================================================================== *)

Module PyStr.

Definition code (c : ascii) : nat := nat_of_ascii c.

(** [c.isupper()] on the ASCII range: 'A'..'Z'. *)
Definition is_upper (c : ascii) : bool :=
  (65 <=? code c)%nat && (code c <=? 90)%nat.

Definition lower_char (c : ascii) : ascii :=
  if is_upper c then ascii_of_nat (code c + 32) else c.

(** [s.lower()] *)
Fixpoint lower (s : string) : string :=
  match s with
  | EmptyString => EmptyString
  | String c s' => String (lower_char c) (lower s')
  end.

(** [c.isspace()] on the ASCII range: TAB, LF, VT, FF, CR, FS, GS, RS, US
    and the space. *)
Definition is_space (c : ascii) : bool :=
  ((9 <=? code c)%nat && (code c <=? 13)%nat)
  || ((28 <=? code c)%nat && (code c <=? 32)%nat).

Fixpoint lstrip (s : string) : string :=
  match s with
  | EmptyString => EmptyString
  | String c s' => if is_space c then lstrip s' else s
  end.

Definition rstrip (s : string) : string :=
  String.rev (lstrip (String.rev s)).

(** [s.strip()] *)
Definition strip (s : string) : string := rstrip (lstrip s).

(** [pat in s] *)
Fixpoint contains (pat s : string) : bool :=
  String.prefix pat s
  || match s with
     | EmptyString => false
     | String _ s' => contains pat s'
     end.

(** [s.split()]: the maximal runs of characters that are not white space.
    [cur] is the run being read, in reverse. *)
Fixpoint split_aux (cur : list ascii) (s : string) : list string :=
  let flush :=
    match cur with
    | [] => []
    | _ => [string_of_list_ascii (rev cur)]
    end in
  match s with
  | EmptyString => flush
  | String c s' =>
      if is_space c then flush ++ split_aux [] s'
      else split_aux (c :: cur) s'
  end.

Definition split (s : string) : list string := split_aux [] s.

(** Every character is white space (so also for the empty string). *)
Fixpoint blank (s : string) : bool :=
  match s with
  | EmptyString => true
  | String c s' => is_space c && blank s'
  end.

(** The prefixes of [s], and all its contiguous substrings. *)
Fixpoint prefixes (s : string) : list string :=
  match s with
  | EmptyString => [EmptyString]
  | String c s' => EmptyString :: map (String c) (prefixes s')
  end.

Fixpoint substrings (s : string) : list string :=
  match s with
  | EmptyString => [EmptyString]
  | String _ s' => prefixes s ++ substrings s'
  end.


(** Truth value of a string: [not s] is [True] exactly for the empty one. *)
Definition is_empty (s : string) : bool :=
  match s with EmptyString => true | _ => false end.

(** [str(z)] for an [int]. *)
Definition of_int (z : Z) : string := NilZero.string_of_int (Z.to_int z).

End PyStr.

(* ===================================================================== *)
(** * difflib.SequenceMatcher(None, a, b), with autojunk left at True *)
(* ===================================================================== *)

Module Difflib.

Definition Match : Type := (nat * nat * nat)%type.

Section Matcher.
Variables a b : list ascii.

(** [__chain_b]: for each element of [b] the increasing list of its
    positions. *)
Definition b2j_all : gmap ascii (list nat) :=
  fold_left
    (fun (m : gmap ascii (list nat)) (p : nat * ascii) =>
       <[p.2 := default [] (m !! p.2) ++ [p.1]]> m)
    (combine (seq 0 (length b)) b) ∅.

(** [isjunk] is [None]: no element is junk. *)
Definition isbjunk (c : ascii) : bool := false.

(** Elements occurring more than [n // 100 + 1] times in a [b] of at
    least 200 elements are popular and lose their entry. *)
Definition is_popular (idxs : list nat) : bool :=
  (200 <=? length b)%nat && (length b / 100 + 1 <? length idxs)%nat.

Definition b2j : gmap ascii (list nat) :=
  filter (fun p : ascii * list nat => is_popular p.2 = false) b2j_all.

(** [b2j.get(a[i], nothing)] *)
Definition b2j_get (i : nat) : list nat :=
  match a !! i with
  | Some c => default [] (b2j !! c)
  | None => []
  end.

(** Loop state of [find_longest_match]. *)
Record flm_state := FlmState {
  besti : nat;
  bestj : nat;
  bestsize : nat;
  newj2len : gmap nat nat
}.

(** [j2len.get(j-1, 0)]; the key [-1] is never present. *)
Definition j2lenget_pred (j2len : gmap nat nat) (j : nat) : nat :=
  match j with
  | O => O
  | S j' => default O (j2len !! j')
  end.

(** The inner [for j in b2j.get(a[i], nothing)], with its [continue]
    and [break]. *)
Fixpoint flm_inner (i blo bhi : nat) (j2len : gmap nat nat)
         (js : list nat) (st : flm_state) : flm_state :=
  match js with
  | [] => st
  | j :: js' =>
      if (j <? blo)%nat then flm_inner i blo bhi j2len js' st
      else if (bhi <=? j)%nat then st
      else
        let k := (j2lenget_pred j2len j + 1)%nat in
        let nj := <[j := k]> (newj2len st) in
        let st' :=
          if (bestsize st <? k)%nat
          then FlmState (i + 1 - k) (j + 1 - k) k nj
          else FlmState (besti st) (bestj st) (bestsize st) nj in
        flm_inner i blo bhi j2len js' st'
  end.

(** One turn of [for i in range(alo, ahi)]; the state carries [j2len]
    in its last field between turns. *)
Definition flm_outer_step (blo bhi : nat) (st : flm_state) (i : nat)
  : flm_state :=
  flm_inner i blo bhi (newj2len st) (b2j_get i)
    (FlmState (besti st) (bestj st) (bestsize st) ∅).

Definition flm_scan (alo ahi blo bhi : nat) : flm_state :=
  fold_left (flm_outer_step blo bhi) (seq alo (ahi - alo))
    (FlmState alo blo 0 ∅).

Definition same_elt (i j : nat) : bool :=
  match a !! i, b !! j with
  | Some x, Some y => bool_decide (x = y)
  | _, _ => false
  end.

Definition b_sat (p : ascii -> bool) (j : nat) : bool :=
  match b !! j with
  | Some y => p y
  | None => false
  end.

(** [while besti > alo and bestj > blo and p(b[bestj-1]) and
    a[besti-1] == b[bestj-1]]: at most [besti - alo] turns. *)
Fixpoint extend_left (p : ascii -> bool) (alo blo : nat) (turns : nat)
         (m : Match) : Match :=
  match turns with
  | O => m
  | S turns' =>
      let '(bi, bj, bs) := m in
      if (alo <? bi)%nat && (blo <? bj)%nat
         && b_sat p (bj - 1) && same_elt (bi - 1) (bj - 1)
      then extend_left p alo blo turns' ((bi - 1)%nat, (bj - 1)%nat, S bs)
      else m
  end.

(** [while besti+bestsize < ahi and bestj+bestsize < bhi and
    p(b[bestj+bestsize]) and a[besti+bestsize] == b[bestj+bestsize]]:
    at most [ahi - (besti+bestsize)] turns. *)
Fixpoint extend_right (p : ascii -> bool) (ahi bhi : nat) (turns : nat)
         (m : Match) : Match :=
  match turns with
  | O => m
  | S turns' =>
      let '(bi, bj, bs) := m in
      if (bi + bs <? ahi)%nat && (bj + bs <? bhi)%nat
         && b_sat p (bj + bs) && same_elt (bi + bs) (bj + bs)
      then extend_right p ahi bhi turns' (bi, bj, S bs)
      else m
  end.

Definition extend (p : ascii -> bool) (alo ahi blo bhi : nat) (m : Match)
  : Match :=
  let m1 := extend_left p alo blo (m.1.1 - alo) m in
  extend_right p ahi bhi (ahi - (m1.1.1 + m1.2)) m1.

Definition find_longest_match (alo ahi blo bhi : nat) : Match :=
  let st := flm_scan alo ahi blo bhi in
  let m0 := (besti st, bestj st, bestsize st) in
  let m1 := extend (fun c => negb (isbjunk c)) alo ahi blo bhi m0 in
  extend isbjunk alo ahi blo bhi m1.

(** The work list of [get_matching_blocks]; the head of the list is the
    end of the Python list, so [append] is a cons and [pop] takes the
    head. *)
Definition Range : Type := (nat * nat * nat * nat)%type.

Definition push_ranges (r : Range) (m : Match) (queue : list Range)
  : list Range :=
  let '(alo, ahi, blo, bhi) := r in
  let '(i, j, k) := m in
  let q1 := if (alo <? i)%nat && (blo <? j)%nat
            then (alo, i, blo, j) :: queue else queue in
  if (i + k <? ahi)%nat && (j + k <? bhi)%nat
  then ((i + k)%nat, ahi, (j + k)%nat, bhi) :: q1 else q1.

(** [while queue: ...]; [None] when the turns run out before the queue
    is empty. *)
Fixpoint blocks_loop (turns : nat) (queue : list Range)
         (blocks : list Match) : option (list Match) :=
  match queue with
  | [] => Some blocks
  | r :: queue' =>
      match turns with
      | O => None
      | S turns' =>
          let '(alo, ahi, blo, bhi) := r in
          let m := find_longest_match alo ahi blo bhi in
          if (m.2 =? 0)%nat then blocks_loop turns' queue' blocks
          else blocks_loop turns' (push_ranges r m queue') (blocks ++ [m])
      end
  end.

(** Weight of a work list: an upper bound of the turns it still needs. *)
Definition range_weight (r : Range) : nat :=
  let '(alo, ahi, _, _) := r in (2 * (ahi - alo) + 1)%nat.

Definition queue_weight (queue : list Range) : nat :=
  fold_right (fun r n => (range_weight r + n)%nat) O queue.

Definition found_blocks : list Match :=
  let queue := [(O, length a, O, length b)] in
  default [] (blocks_loop (queue_weight queue) queue []).

(** [matching_blocks.sort()]: tuples in lexicographic order. *)
Definition match_leb (x y : Match) : bool :=
  let '(i1, j1, k1) := x in
  let '(i2, j2, k2) := y in
  (i1 <? i2)%nat
  || ((i1 =? i2)%nat
      && ((j1 <? j2)%nat || ((j1 =? j2)%nat && (k1 <=? k2)%nat))).

Fixpoint insert_match (x : Match) (l : list Match) : list Match :=
  match l with
  | [] => [x]
  | y :: l' => if match_leb x y then x :: l else y :: insert_match x l'
  end.

Definition sort_matches (l : list Match) : list Match :=
  fold_right insert_match [] l.

(** The loop that merges adjacent blocks; [cur] is [(i1, j1, k1)]. *)
Fixpoint collapse (cur : Match) (l : list Match) : list Match :=
  let '(i1, j1, k1) := cur in
  match l with
  | [] => if (k1 =? 0)%nat then [] else [cur]
  | (i2, j2, k2) :: l' =>
      if (i1 + k1 =? i2)%nat && (j1 + k1 =? j2)%nat
      then collapse (i1, j1, (k1 + k2)%nat) l'
      else (if (k1 =? 0)%nat then [] else [cur])
           ++ collapse (i2, j2, k2) l'
  end.

Definition get_matching_blocks : list Match :=
  collapse (O, O, O) (sort_matches found_blocks)
  ++ [(length a, length b, O)].

(** [sum(triple[-1] for triple in self.get_matching_blocks())] *)
Definition matches : nat :=
  fold_right (fun (m : Match) n => (m.2 + n)%nat) O get_matching_blocks.

End Matcher.

End Difflib.

(* ===================================================================== *)
(** * Python numbers: int and float *)
(* ===================================================================== *)

Module PyNum.

Definition prec : Z := 53.
Definition emax : Z := 1024.

(** [float(z)]: the nearest binary64 value, exact below [2^53]. *)
Definition of_int (z : Z) : spec_float := binary_normalize prec emax z 0 false.

Definition fmul : spec_float -> spec_float -> spec_float := SFmul prec emax.
Definition fdiv : spec_float -> spec_float -> spec_float := SFdiv prec emax.

(** [int(x)] truncates toward zero; it raises on an infinity or a NaN. *)
Definition trunc (x : spec_float) : option Z :=
  match x with
  | S754_zero _ => Some 0
  | S754_finite s m e => Some (cond_Zopp s (Z.shiftl (Zpos m) e))
  | _ => None
  end.

(** A number is an [int] or a [float]. *)
Inductive num :=
| PInt (z : Z)
| PFloat (f : spec_float).

Definition to_float (x : num) : spec_float :=
  match x with
  | PInt z => of_int z
  | PFloat f => f
  end.

(** [x * n] for an [int] literal [n]. *)
Definition mul_int (x : num) (n : Z) : num :=
  match x with
  | PInt z => PInt (z * n)
  | PFloat f => PFloat (fmul f (of_int n))
  end.

(** [y > x]; an [int] meets a [float] through its exact value. *)
Definition gt (y x : num) : bool :=
  match y, x with
  | PInt zy, PInt zx => zx <? zy
  | _, _ => SFltb (to_float x) (to_float y)
  end.

(** [max(x, y)] keeps [x] unless [y > x]. *)
Definition max (x y : num) : num := if gt y x then y else x.

Definition to_int (x : num) : option Z :=
  match x with
  | PInt z => Some z
  | PFloat f => trunc f
  end.

(** [_calculate_ratio(matches, length)] *)
Definition calculate_ratio (matches length : nat) : spec_float :=
  match length with
  | O => of_int 1
  | _ => fdiv (fmul (of_int 2) (of_int (Z.of_nat matches)))
              (of_int (Z.of_nat length))
  end.

End PyNum.

Module SequenceMatcher.

(** [difflib.SequenceMatcher(None, a, b).ratio()] *)
Definition ratio (a b : string) : spec_float :=
  let la := list_ascii_of_string a in
  let lb := list_ascii_of_string b in
  PyNum.calculate_ratio (Difflib.matches la lb) (length la + length lb).

End SequenceMatcher.

(* ===================================================================== *)
(** * pandas: cells, frames and the store *)
(* ===================================================================== *)

(** A cell of a frame.  [CNaN] is the missing value pandas puts in an empty
    cell.  [CInt] is a Python [int], as [fuzzy_search] writes into its score
    column.  [CObj] is any other scalar of a loaded sheet that is not text (a
    number, a date, a flag); it carries its text under [Series.astype(str)]
    and its text under [str] of the value [iterrows] yields. *)
Inductive cell :=
| CStr (s : string)
| CObj (col_text row_text : string)
| CInt (z : Z)
| CNaN.

(** [pd.isna(x)] *)
Definition isna (c : cell) : bool :=
  match c with CNaN => true | _ => false end.

(** One element under [Series.astype(str)]: NaN becomes the text "nan". *)
Definition astype_str (c : cell) : string :=
  match c with
  | CStr s => s
  | CObj t _ => t
  | CInt z => PyStr.of_int z
  | CNaN => "nan"
  end.

(** [str(x)] of a value taken from a row. *)
Definition py_str (c : cell) : string :=
  match c with
  | CStr s => s
  | CObj _ t => t
  | CInt z => PyStr.of_int z
  | CNaN => "nan"
  end.

Definition row : Type := (nat * list cell)%type.

(** A DataFrame: the column names and the rows, each with its index label. *)
Record frame := Frame {
  columns : list string;
  rows : list row
}.

Definition loc : Type := nat.

Inductive exn :=
| KeyError
| TypeError
| ValueError
| OverflowError
| ReError.

Inductive result (A : Type) :=
| Ok (x : A)
| Raise (e : exn).
Arguments Ok {A} x.
Arguments Raise {A} e.

Inductive event :=
| ShowWarning (msg : string)
| ShowError (e : exn)
| RootUpdate
| DisplaySearchResults (results : option loc)
| NotebookSelect (tab : nat).

(** What a method can change: the frames and what the window has shown. *)
Record world := World {
  store : list frame;
  shown : list event
}.

Definition M (A : Type) : Type := world -> result A * world.

Definition ret {A} (x : A) : M A := fun w => (Ok x, w).
Definition raise {A} (e : exn) : M A := fun w => (Raise e, w).
Definition bind {A B} (m : M A) (k : A -> M B) : M B :=
  fun w =>
    match m w with
    | (Ok x, w') => k x w'
    | (Raise e, w') => (Raise e, w')
    end.
Definition lift {A} (r : result A) : M A := fun w => (r, w).

Notation "'do' x <- m 'in' k" := (bind m (fun x => k))
  (at level 10, x name, m at level 100, k at level 200).
Notation "'run' m 'in' k" := (bind m (fun _ => k))
  (at level 10, m at level 100, k at level 200).

(** A new frame object. *)
Definition alloc (fr : frame) : M loc :=
  fun w => (Ok (length (store w)), World (store w ++ [fr]) (shown w)).

Definition deref (l : loc) : M frame :=
  fun w =>
    match store w !! l with
    | Some fr => (Ok fr, w)
    | None => (Raise TypeError, w)
    end.

(** In-place update of the frame at [l]. *)
Definition update (l : loc) (f : frame -> result frame) : M unit :=
  fun w =>
    match store w !! l with
    | Some fr =>
        match f fr with
        | Ok fr' => (Ok tt, World (<[l := fr']> (store w)) (shown w))
        | Raise e => (Raise e, w)
        end
    | None => (Raise TypeError, w)
    end.

Definition emit (ev : event) : M unit :=
  fun w => (Ok tt, World (store w) (shown w ++ [ev])).

Module Pandas.

Fixpoint col_pos (column : string) (cols : list string) : option nat :=
  match cols with
  | [] => None
  | c :: cols' =>
      if String.eqb c column then Some O
      else option_map S (col_pos column cols')
  end.

(** The cell of a row at a column position; a short row reads as NaN. *)
Definition cell_at (p : nat) (r : row) : cell := default CNaN (r.2 !! p).

(** [df[column]]: the values of the column, in row order. *)
Definition getitem (fr : frame) (column : string) : result (list cell) :=
  match col_pos column (columns fr) with
  | Some p => Ok (map (cell_at p) (rows fr))
  | None => Raise KeyError
  end.

(** [df[mask]]: the rows at which the mask holds, in row order. *)
Fixpoint select (mask : list bool) (rs : list row) : list row :=
  match mask, rs with
  | m :: mask', r :: rs' =>
      if m then r :: select mask' rs' else select mask' rs'
  | _, _ => []
  end.

Definition getitem_mask (fr : frame) (mask : list bool) : frame :=
  Frame (columns fr) (select mask (rows fr)).

(** [df.loc[labels]]: for each label in turn, the rows that carry it. *)
Definition loc_rows (rs : list row) (labels : list nat) : list row :=
  flat_map (fun l => filter (fun r : row => r.1 = l) rs) labels.

Definition loc_labels (fr : frame) (labels : list nat) : frame :=
  Frame (columns fr) (loc_rows (rows fr) labels).

(** [pd.DataFrame()] *)
Definition empty : frame := Frame [] [].

(** Put [v] at position [p] of a row, padding a short row with NaN. *)
Fixpoint set_cell (p : nat) (v : cell) (cs : list cell) : list cell :=
  match p, cs with
  | O, [] => [v]
  | O, _ :: cs' => v :: cs'
  | S p', [] => CNaN :: set_cell p' v []
  | S p', c :: cs' => c :: set_cell p' v cs'
  end.

Fixpoint set_cells (p : nat) (rs : list row) (vs : list cell) : list row :=
  match rs, vs with
  | r :: rs', v :: vs' => (r.1, set_cell p v r.2) :: set_cells p rs' vs'
  | _, _ => []
  end.

(** [df[column] = values] for a list: by position; the lengths must
    agree.  An existing column is overwritten, a new one comes last. *)
Definition setitem (column : string) (vs : list cell) (fr : frame)
  : result frame :=
  if (length vs =? length (rows fr))%nat then
    match col_pos column (columns fr) with
    | Some p => Ok (Frame (columns fr) (set_cells p (rows fr) vs))
    | None =>
        Ok (Frame (columns fr ++ [column])
              (set_cells (length (columns fr)) (rows fr) vs))
    end
  else Raise ValueError.

(** The rows at the given positions, in that order ([take]). *)
Definition take (rs : list row) (idx : list nat) : list row :=
  omap (fun i => rs !! i) idx.

(** The sort key of a cell of an all-integer column. *)
Definition int_key (c : cell) : option Z :=
  match c with CInt z => Some z | _ => None end.

End Pandas.

(* ===================================================================== *)
(** * class ExcelSearchTool *)
(* ===================================================================== *)

(** [status_var] holds one of these texts. *)
Inductive status :=
| StatusOther
| StatusSearching
| StatusDone (result_count : nat)
| StatusError.

(** The fields of [self] that searching reads or writes. *)
Record tool := Tool {
  df : option loc;
  search_results : option loc;
  search_column : string;
  search_keyword : string;
  search_mode : string;
  similarity_threshold : Z;
  ignore_case : bool;
  status_var : status
}.

Definition set_status (st : status) (self : tool) : tool :=
  Tool (df self) (search_results self) (search_column self)
    (search_keyword self) (search_mode self) (similarity_threshold self)
    (ignore_case self) st.

Definition set_search_results (r : option loc) (self : tool) : tool :=
  Tool (df self) r (search_column self) (search_keyword self)
    (search_mode self) (similarity_threshold self) (ignore_case self)
    (status_var self).

Definition score_column : string := "類似度".

Module Series.

(** [ser.astype(str)] *)
Definition astype_str (ser : list cell) : list cell :=
  map (fun c => CStr (astype_str c)) ser.

(** [ser.str.lower()]: an element that is not text becomes NaN. *)
Definition str_lower (ser : list cell) : list cell :=
  map (fun c => match c with
                | CStr s => CStr (PyStr.lower s)
                | _ => CNaN
                end) ser.

(** [ser == keyword] *)
Definition eq_str (ser : list cell) (keyword : string) : list bool :=
  map (fun c => match c with
                | CStr s => String.eqb s keyword
                | _ => false
                end) ser.

End Series.

Section Tool.

(** [re.compile(pat)] as [Series.str.contains] uses it: [None] when the
    pattern does not compile, else the test [search(x) is not None]. *)
Variable re_compile : string -> option (string -> bool).

(** The indexer pandas computes for [sort_values(ascending=False)] with
    the default [kind="quicksort"]: the positions of the keys in the
    order of the sorted frame. *)
Variable argsort_desc : list Z -> list nat.

(** [ser.str.contains(pat, na=na)], with [regex=True] by default. *)
Definition str_contains (ser : list cell) (pat : string) (na : bool)
  : result (list bool) :=
  match re_compile pat with
  | None => Raise ReError
  | Some search =>
      Ok (map (fun c => match c with
                        | CStr s => search s
                        | _ => na
                        end) ser)
  end.

(** [self.df], which must be a frame. *)
Definition self_df (self : tool) : M (loc * frame) :=
  match df self with
  | Some l => do fr <- deref l in ret (l, fr)
  | None => raise TypeError
  end.

(** [x.copy()] *)
Definition copy (l : loc) : M loc :=
  do fr <- deref l in alloc fr.

Definition exact_search (self : tool) (keyword column : string) : M loc :=
  do d <- self_df self in
  do ser <- lift (Pandas.getitem d.2 column) in
  let mask :=
    if ignore_case self
    then Series.eq_str (Series.str_lower (Series.astype_str ser))
           (PyStr.lower keyword)
    else Series.eq_str (Series.astype_str ser) keyword in
  do sel <- alloc (Pandas.getitem_mask d.2 mask) in
  copy sel.

Definition partial_search (self : tool) (keyword column : string) : M loc :=
  do d <- self_df self in
  do ser <- lift (Pandas.getitem d.2 column) in
  do mask <- lift (if ignore_case self
                   then str_contains
                          (Series.str_lower (Series.astype_str ser))
                          (PyStr.lower keyword) false
                   else str_contains (Series.astype_str ser) keyword false) in
  do sel <- alloc (Pandas.getitem_mask d.2 mask) in
  copy sel.

(** The closure [calculate_similarity] of [fuzzy_search]. *)
Definition calculate_similarity (self : tool) (keyword : string)
           (text : cell) : result Z :=
  if isna text then Ok 0
  else
    let text_processed :=
      if ignore_case self then PyStr.lower (py_str text) else py_str text in
    let keyword_processed :=
      if ignore_case self then PyStr.lower keyword else keyword in
    let similarity :=
      SequenceMatcher.ratio keyword_processed text_processed in
    match PyNum.trunc (PyNum.fmul similarity (PyNum.of_int 100)) with
    | Some z => Ok z
    | None => Raise OverflowError
    end.

(** [for idx, row in self.df.iterrows()]: the accumulator is
    [(similarities, matching_indices)]. *)
Fixpoint fuzzy_scan (self : tool) (keyword column : string) (threshold : Z)
         (cols : list string) (rs : list row) (acc : list Z * list nat)
  : result (list Z * list nat) :=
  match rs with
  | [] => Ok acc
  | r :: rs' =>
      match Pandas.col_pos column cols with
      | None => Raise KeyError
      | Some p =>
          match calculate_similarity self keyword (Pandas.cell_at p r) with
          | Raise e => Raise e
          | Ok similarity =>
              fuzzy_scan self keyword column threshold cols rs'
                (if threshold <=? similarity
                 then (acc.1 ++ [similarity], acc.2 ++ [r.1])
                 else acc)
          end
      end
  end.

(** [x.sort_values(column, ascending=False)] on an integer column. *)
Definition sort_values (l : loc) (column : string) : M loc :=
  do fr <- deref l in
  do ser <- lift (Pandas.getitem fr column) in
  match mapM Pandas.int_key ser with
  | Some keys =>
      alloc (Frame (columns fr) (Pandas.take (rows fr) (argsort_desc keys)))
  | None => raise TypeError
  end.

Definition fuzzy_search (self : tool) (keyword column : string)
           (threshold : Z) : M loc :=
  do d <- self_df self in
  do found <- lift (fuzzy_scan self keyword column threshold
                      (columns d.2) (rows d.2) ([], [])) in
  let similarities := found.1 in
  let matching_indices := found.2 in
  match matching_indices with
  | [] => alloc Pandas.empty
  | _ =>
      do sel <- alloc (Pandas.loc_labels d.2 matching_indices) in
      do results <- copy sel in
      run update results
            (Pandas.setitem score_column (map CInt similarities)) in
      sort_values results score_column
  end.

Definition token_set (s : string) : gset string :=
  list_to_set (PyStr.split s).

Definition advanced_fuzzy_search (self : tool) (keyword text : string)
  : result Z :=
  if PyStr.is_empty text || PyStr.is_empty keyword then Ok 0
  else
    let text := if ignore_case self then PyStr.lower text else text in
    let keyword :=
      if ignore_case self then PyStr.lower keyword else keyword in
    if String.eqb keyword text then Ok 100
    else if PyStr.contains keyword text || PyStr.contains text keyword
    then Ok 85
    else
      let seq_ratio := SequenceMatcher.ratio keyword text in
      let keyword_words := token_set keyword in
      let text_words := token_set text in
      let word_ratio :=
        if negb (bool_decide (keyword_words = ∅))
           && negb (bool_decide (text_words = ∅))
        then PyNum.PFloat
               (PyNum.fdiv
                  (PyNum.of_int (Z.of_nat (size (keyword_words ∩ text_words))))
                  (PyNum.of_int (Z.of_nat (size (keyword_words ∪ text_words)))))
        else PyNum.PInt 0 in
      let final_score :=
        PyNum.max (PyNum.mul_int (PyNum.PFloat seq_ratio) 100)
                  (PyNum.mul_int word_ratio 100) in
      match PyNum.to_int final_score with
      | Some z => Ok z
      | None => Raise OverflowError
      end.

(** [len(self.search_results) if self.search_results is not None else 0] *)
Definition result_count (self : tool) : M nat :=
  match search_results self with
  | Some l => do fr <- deref l in ret (length (rows fr))
  | None => ret O
  end.

(** The body of the [try] of [execute_search]. *)
Definition search_body (self : tool) : M tool :=
  let self := set_status StatusSearching self in
  run emit RootUpdate in
  let keyword := PyStr.strip (search_keyword self) in
  let column := search_column self in
  let mode := search_mode self in
  do self <-
    (if String.eqb mode "exact" then
       do r <- exact_search self keyword column in
       ret (set_search_results (Some r) self)
     else if String.eqb mode "partial" then
       do r <- partial_search self keyword column in
       ret (set_search_results (Some r) self)
     else if String.eqb mode "fuzzy" then
       let threshold := similarity_threshold self in
       do r <- fuzzy_search self keyword column threshold in
       ret (set_search_results (Some r) self)
     else ret self) in
  run emit (DisplaySearchResults (search_results self)) in
  run emit (NotebookSelect 1) in
  do n <- result_count self in
  ret (set_status (StatusDone n) self).

Definition execute_search (self : tool) (w : world) : tool * world :=
  match df self with
  | None =>
      (self, (emit (ShowWarning "まずExcelファイルを読み込んでください。") w).2)
  | Some _ =>
      if PyStr.is_empty (PyStr.strip (search_keyword self)) then
        (self, (emit (ShowWarning "検索キーワードを入力してください。") w).2)
      else if PyStr.is_empty (search_column self) then
        (self, (emit (ShowWarning "検索対象列を選択してください。") w).2)
      else
        match search_body self w with
        | (Ok self', w') => (self', w')
        | (Raise e, w') =>
            (set_status StatusError self, (emit (ShowError e) w').2)
        end
  end.

End Tool.

(* ===================================================================== *)
(** * Stand-ins for the two library routines left open *)
(* ===================================================================== *)

Module Re.

(** The characters with a meaning of their own in a pattern. *)
Definition special (c : ascii) : bool :=
  existsb (Ascii.eqb c) (list_ascii_of_string ".^$*+?{}[]\|()").

(** A pattern without special characters stands for itself. *)
Definition plain (pat : string) : bool :=
  forallb (fun c => negb (special c)) (list_ascii_of_string pat).

(** What is assumed of [re.compile]: a plain pattern compiles, and
    searching for it is searching for it as a substring. *)
Definition agrees (re_compile : string -> option (string -> bool)) : Prop :=
  forall pat, plain pat = true ->
    exists search, re_compile pat = Some search
                   /\ forall s, search s = PyStr.contains pat s.

(** An engine that knows plain patterns only. *)
Definition compile_plain (pat : string) : option (string -> bool) :=
  if plain pat then Some (PyStr.contains pat) else None.

End Re.

Module Argsort.

Definition key (keys : list Z) (i : nat) : Z := default 0 (keys !! i).

(** What is assumed of the indexer of a descending sort: it lists every
    position once, and the keys do not increase along it. *)
Definition sorts_descending (argsort : list Z -> list nat) : Prop :=
  forall keys,
    argsort keys ≡ₚ seq 0 (length keys)
    /\ StronglySorted (fun i j => key keys j <= key keys i) (argsort keys).

(** Insertion of position [i] in front of the first [j] that [before]
    lets it pass. *)
Fixpoint insert_by (before : Z -> Z -> bool) (keys : list Z) (i : nat)
         (l : list nat) : list nat :=
  match l with
  | [] => [i]
  | j :: l' =>
      if before (key keys i) (key keys j) then i :: l
      else j :: insert_by before keys i l'
  end.

Definition argsort_by (before : Z -> Z -> bool) (keys : list Z) : list nat :=
  fold_left (fun acc i => insert_by before keys i acc)
    (seq 0 (length keys)) [].

(** A stable descending sort: a position passes smaller keys only. *)
Definition stable_desc : list Z -> list nat :=
  argsort_by (fun ki kj => kj <? ki).

End Argsort.


(* ===================================================================== *)
(** * numpy's argsort of kind "quicksort", as pandas' nargsort calls it *)
(* ===================================================================== *)

(** [sort_values] leaves its [kind] at "quicksort", and for the int64
    column of the scores numpy then runs [aquicksort_] of
    [npysort/quicksort.cpp]: a quicksort with a median-of-three pivot,
    which sorts a partition of at most 17 elements by insertion and
    turns to [aheapsort_] once the depth limit is used up.  This is the
    portable code of numpy; where a build of numpy dispatches a vectorised
    argsort for the processor at hand, equal keys may come out in another
    order, within what module [Argsort] states. *)

Module Quicksort.

Section Keys.
(** [v]: the keys, an int64 array; [tosort]: the array of indices that is
    sorted in place.  A position [p] stands for the pointer
    [tosort + p]. *)
Variable v : list Z.

Definition vkey (i : nat) : Z := default 0 (v !! i).

(** [*p] *)
Definition deref (tosort : list nat) (p : nat) : nat :=
  default O (tosort !! p).

(** [v[*p]] *)
Definition key_at (tosort : list nat) (p : nat) : Z := vkey (deref tosort p).

(** [INTP_SWAP] of [*p] and [*q] *)
Definition swap (tosort : list nat) (p q : nat) : list nat :=
  <[q := deref tosort p]> (<[p := deref tosort q]> tosort).

(** The insertion sort of a small partition.  [shift] is
    [while (pj > pl && vp < v[*pk]) { *pj-- = *pk--; } *pj = vi;] with
    [vp = v[vi]] and [pk = pj - 1]. *)
Fixpoint shift (tosort : list nat) (vi : nat) (pl pj : nat) : list nat :=
  match pj with
  | O => <[O := vi]> tosort
  | S pk =>
      if (pl <? pj)%nat && (vkey vi <? key_at tosort pk)
      then shift (<[pj := deref tosort pk]> tosort) vi pl pk
      else <[pj := vi]> tosort
  end.

(** [for (pi = pl + 1; pi <= pr; ++pi) { vi = *pi; ... }] *)
Definition insertion (tosort : list nat) (pl pr : nat) : list nat :=
  fold_left (fun a pi => shift a (deref a pi) pl pi)
    (seq (pl + 1) (pr - pl)) tosort.

(** [do { ++pi; } while (v[*pi] < vp);], entered after the first [++pi];
    the turns are bounded by the length of the array. *)
Fixpoint scan_up (turns : nat) (tosort : list nat) (vp : Z) (pi : nat)
  : nat :=
  match turns with
  | O => pi
  | S turns' =>
      if key_at tosort pi <? vp then scan_up turns' tosort vp (S pi)
      else pi
  end.

(** [do { --pj; } while (vp < v[*pj]);], entered after the first
    [--pj]. *)
Fixpoint scan_down (tosort : list nat) (vp : Z) (pj : nat) : nat :=
  match pj with
  | O => O
  | S pj' => if vp <? key_at tosort pj then scan_down tosort vp pj' else pj
  end.

(** The loop [for (;;)]: scan up, scan down, [if (pi >= pj) break;], then
    swap [*pi] and [*pj]. *)
Fixpoint hoare (turns : nat) (tosort : list nat) (vp : Z) (pi pj : nat)
  : list nat * nat :=
  match turns with
  | O => (tosort, pi)
  | S turns' =>
      let pi := scan_up (length tosort) tosort vp (S pi) in
      let pj := scan_down tosort vp (pj - 1) in
      if (pj <=? pi)%nat then (tosort, pi)
      else hoare turns' (swap tosort pi pj) vp pi pj
  end.

(** One quicksort partition of [pl .. pr]: the median of three goes to
    [pr - 1] as the pivot; the result is the array and the place [pi] of
    the pivot. *)
Definition partition (tosort : list nat) (pl pr : nat) : list nat * nat :=
  let pm := (pl + (pr - pl) / 2)%nat in
  let a := tosort in
  let a := if key_at a pm <? key_at a pl then swap a pm pl else a in
  let a := if key_at a pr <? key_at a pm then swap a pr pm else a in
  let a := if key_at a pm <? key_at a pl then swap a pm pl else a in
  let vp := key_at a pm in
  let a := swap a pm (pr - 1) in
  let '(a, pi) := hoare (pr - pl) a vp pl (pr - 1) in
  (swap a pi (pr - 1), pi).

(** [aheapsort] on the [n] elements from [pl]: [a[k]] is the position
    [pl + k - 1].  [sift] is the inner loop
    [for (i = .., j = ..; j <= n;)] with the final [a[i] = tmp]. *)
Fixpoint sift (turns : nat) (tosort : list nat) (pl : nat) (tmp : nat)
         (i j n : nat) : list nat :=
  match turns with
  | O => <[(pl + i - 1)%nat := tmp]> tosort
  | S turns' =>
      if (n <? j)%nat then <[(pl + i - 1)%nat := tmp]> tosort
      else
        let j :=
          if (j <? n)%nat
             && (key_at tosort (pl + j - 1) <? key_at tosort (pl + j))
          then (j + 1)%nat else j in
        if vkey tmp <? key_at tosort (pl + j - 1)
        then sift turns'
               (<[(pl + i - 1)%nat := deref tosort (pl + j - 1)]> tosort)
               pl tmp j (j + j) n
        else <[(pl + i - 1)%nat := tmp]> tosort
  end.

Definition aheapsort (tosort : list nat) (pl n : nat) : list nat :=
  (* for (l = n >> 1; l > 0; --l) *)
  let heap :=
    fold_left
      (fun a l => sift n a pl (deref a (pl + l - 1)) l (l + l) n)
      (rev (seq 1 (n / 2))) tosort in
  (* for (; n > 1;) { tmp = a[n]; a[n] = a[1]; n -= 1; ... } *)
  fold_left
    (fun a m =>
       let tmp := deref a (pl + m - 1) in
       let a := <[(pl + m - 1)%nat := deref a pl]> a in
       sift m a pl tmp 1 2 (m - 1))
    (rev (seq 2 (n - 1))) heap.

(** A saved partition: its two ends and its depth limit. *)
Definition saved : Type := (nat * nat * Z)%type.

(** [while ((pr - pl) > SMALL_QUICKSORT) { partition; push the larger
    part; }] with [SMALL_QUICKSORT = 16]. *)
Fixpoint partitions (turns : nat) (tosort : list nat) (pl pr : nat)
         (stack : list saved) (cdepth : Z)
  : list nat * nat * nat * list saved :=
  match turns with
  | O => (tosort, pl, pr, stack)
  | S turns' =>
      if (16 <? pr - pl)%nat then
        let '(a, pi) := partition tosort pl pr in
        if (pi - pl <? pr - pi)%nat
        then partitions turns' a pl (pi - 1)
               (((pi + 1)%nat, pr, cdepth - 1) :: stack) (cdepth - 1)
        else partitions turns' a (pi + 1) pr
               ((pl, (pi - 1)%nat, cdepth - 1) :: stack) (cdepth - 1)
      else (tosort, pl, pr, stack)
  end.

(** The [while (1)] of [aquicksort]; [None] when the turns run out. *)
Fixpoint sort_loop (turns : nat) (tosort : list nat) (pl pr : nat)
         (stack : list saved) (cdepth : Z) : option (list nat) :=
  match turns with
  | O => None
  | S turns' =>
      let '(a, stack) :=
        if cdepth <? 0 then (aheapsort tosort pl (pr - pl + 1), stack)
        else
          let '(a, pl, pr, stack) :=
            partitions (length tosort) tosort pl pr stack cdepth in
          (insertion a pl pr, stack) in
      match stack with
      | [] => Some a
      | (pl, pr, cdepth) :: stack => sort_loop turns' a pl pr stack cdepth
      end
  end.

(** [np.argsort(v, kind="quicksort")]: the indices start as [arange]. *)
Definition aquicksort : list nat :=
  let num := length v in
  let tosort := seq 0 num in
  default tosort
    (sort_loop (S num) tosort 0 (num - 1) [] (2 * Z.log2 (Z.of_nat num))).

End Keys.

(** [nargsort(items, kind="quicksort", ascending=False)] of pandas, for
    keys without a missing value: the keys and their positions are
    reversed, sorted, and the indexer is reversed again. *)
Definition nargsort_desc (items : list Z) : list nat :=
  let non_nans := rev items in
  let non_nan_idx := rev (seq 0 (length items)) in
  rev (map (fun k => default O (non_nan_idx !! k)) (aquicksort non_nans)).

End Quicksort.

(** A small sheet and tool states over it, for worked examples. *)
Module Sample.

Definition companies : frame :=
  Frame ["name"; "staff"]
    [(0%nat, [CStr "Apple Japan"; CObj "150" "150"]);
     (1%nat, [CStr "apple japan"; CObj "25" "25"]);
     (2%nat, [CStr "Orange Co"; CNaN])].

(** One row, whose only cell is empty. *)
Definition blank_sheet : frame := Frame ["name"] [(0%nat, [CNaN])].

(** Twenty rows with the same name. *)
Definition namesakes : frame :=
  Frame ["name"] (map (fun i => (i, [CStr "apple"])) (seq 0 20)).

Definition loaded (fr : frame) : world := World [fr] [].

Definition tool_for (mode keyword : string) (threshold : Z)
           (ignore : bool) : tool :=
  Tool (Some 0%nat) None "name" keyword mode threshold ignore StatusOther.

End Sample.

(* ===================================================================== *)
(** * The match rules, in the words of the specification *)
(* ===================================================================== *)

Module Spec.

(** [normalize] lower-cases when case is ignored, and is the identity
    otherwise. *)
Definition normalize (self : tool) (s : string) : string :=
  if ignore_case self then PyStr.lower s else s.

(** ExactMatch: the text of the cell equals the keyword, both
    normalized. *)
Definition exact_match (self : tool) (keyword : string) (c : cell) : bool :=
  String.eqb (normalize self (astype_str c)) (normalize self keyword).

(** PartialMatch: the normalized keyword is a substring of the normalized
    text of the cell. *)
Definition partial_match (self : tool) (keyword : string) (c : cell)
  : bool :=
  PyStr.contains (normalize self keyword) (normalize self (astype_str c)).

(** The score [fuzzy_search] gives a cell; 0 stands in where the scorer
    would raise. *)
Definition similarity (self : tool) (keyword : string) (c : cell) : Z :=
  match calculate_similarity self keyword c with
  | Ok z => z
  | Raise _ => 0
  end.

(** The two signals of the composite score, each as a percentage: the
    sequence-matching ratio, and the Jaccard index of the token sets (0
    when either set is empty). *)
Definition seq_percent (keyword text : string) : PyNum.num :=
  PyNum.mul_int (PyNum.PFloat (SequenceMatcher.ratio keyword text)) 100.

Definition jaccard (keyword text : string) : PyNum.num :=
  if negb (bool_decide (token_set keyword = ∅))
     && negb (bool_decide (token_set text = ∅))
  then PyNum.PFloat
         (PyNum.fdiv
            (PyNum.of_int
               (Z.of_nat (size (token_set keyword ∩ token_set text))))
            (PyNum.of_int
               (Z.of_nat (size (token_set keyword ∪ token_set text)))))
  else PyNum.PInt 0.

Definition word_percent (keyword text : string) : PyNum.num :=
  PyNum.mul_int (jaccard keyword text) 100.

(** FuzzyMatch: the score of the cell reaches the threshold. *)
Definition fuzzy_match (self : tool) (keyword : string) (threshold : Z)
           (c : cell) : bool :=
  threshold <=? similarity self keyword c.

(** Where the score column of a result sits: over a column of that name
    if the dataset has one, else after the last column. *)
Definition score_pos (cols : list string) : nat :=
  default (length cols) (Pandas.col_pos score_column cols).

Definition score_columns (cols : list string) : list string :=
  match Pandas.col_pos score_column cols with
  | Some _ => cols
  | None => cols ++ [score_column]
  end.

(** A dataset row with its score put in the score column. *)
Definition with_score (self : tool) (keyword : string) (p : nat)
           (cols : list string) (r : row) : row :=
  (r.1, Pandas.set_cell (score_pos cols)
          (CInt (similarity self keyword (Pandas.cell_at p r))) r.2).





(** Every text the scorer will see is of a length a float holds
    exactly. *)
Definition small_texts (keyword : string) (p : nat) (rs : list row) : Prop :=
  forall r, r ∈ rs ->
    Z.of_nat (String.length keyword
              + String.length (py_str (Pandas.cell_at p r))) < 2 ^ 53.

(** The rows whose cell at position [p] passes [test], in row order. *)
Definition hits (test : cell -> bool) (p : nat) (rs : list row) : list row :=
  filter (fun r => test (Pandas.cell_at p r) = true) rs.

(** The frame [fuzzy_search] builds: nothing at all when no row reaches
    the threshold, else the scored rows in the order the sort gives. *)
Definition fuzzy_frame (argsort_desc : list Z -> list nat) (self : tool)
           (keyword : string) (threshold : Z) (p : nat) (fr : frame)
  : frame :=
  let found := hits (fuzzy_match self keyword threshold) p (rows fr) in
  match found with
  | [] => Pandas.empty
  | _ =>
      Frame (score_columns (columns fr))
        (Pandas.take (map (with_score self keyword p (columns fr)) found)
           (argsort_desc
              (map (fun r => similarity self keyword (Pandas.cell_at p r))
                 found)))
  end.

End Spec.

(* ===================================================================== *)
(** * Facts about the matcher *)
(* ===================================================================== *)

Module DifflibFacts.
Import Difflib.

Definition total (l : list Match) : nat :=
  fold_right (fun (m : Match) n => (m.2 + n)%nat) O l.

Lemma total_app l1 l2 : total (l1 ++ l2) = (total l1 + total l2)%nat.
Proof.
  induction l1 as [|x l1 IH]; simpl; [reflexivity|].
  rewrite IH. lia.
Qed.

Lemma total_insert_match x l : total (insert_match x l) = (x.2 + total l)%nat.
Proof.
  induction l as [|y l IH]; simpl; [reflexivity|].
  destruct (match_leb x y); simpl; [reflexivity|].
  rewrite IH. lia.
Qed.

Lemma total_sort_matches l : total (sort_matches l) = total l.
Proof.
  induction l as [|x l IH]; simpl; [reflexivity|].
  rewrite total_insert_match, IH. reflexivity.
Qed.

Lemma total_collapse l : forall cur, total (collapse cur l) = (cur.2 + total l)%nat.
Proof.
  induction l as [|[[i2 j2] k2] l IH]; intros [[i1 j1] k1]; simpl.
  - destruct (Nat.eqb_spec k1 0); simpl; lia.
  - destruct ((i1 + k1 =? i2)%nat && (j1 + k1 =? j2)%nat).
    + rewrite IH. simpl. lia.
    + rewrite total_app, IH. simpl.
      destruct (Nat.eqb_spec k1 0); simpl; lia.
Qed.

Section Bounds.
Variables a b : list ascii.

(** A block lies inside the window it was searched in. *)
Definition inside (r : Range) (m : Match) : Prop :=
  let '(alo, ahi, blo, bhi) := r in
  let '(i, j, k) := m in
  (alo <= i /\ i + k <= ahi /\ blo <= j /\ j + k <= bhi)%nat.

Definition valid (r : Range) : Prop :=
  let '(alo, ahi, blo, bhi) := r in (alo <= ahi /\ blo <= bhi)%nat.

Section Scan.
Variables alo blo bhi : nat.

(** Every run length recorded for row [n - 1] fits in the window. *)
Definition runs_ok (n : nat) (m : gmap nat nat) : Prop :=
  forall j k, m !! j = Some k ->
    (1 <= k /\ k + alo <= n /\ k + blo <= j + 1 /\ j < bhi)%nat.

Definition best_ok (n : nat) (st : flm_state) : Prop :=
  inside (alo, n, blo, bhi) (besti st, bestj st, bestsize st).

Lemma runs_ok_empty n : runs_ok n ∅.
Proof. intros j k H. rewrite lookup_empty in H. discriminate. Qed.

Lemma j2lenget_pred_ok i j2len j :
  runs_ok i j2len -> (alo <= i)%nat -> (blo <= j)%nat ->
  let k := (j2lenget_pred j2len j + 1)%nat in
  (1 <= k /\ k + alo <= i + 1 /\ k + blo <= j + 1)%nat.
Proof.
  intros Hr Hi Hj. unfold j2lenget_pred.
  destruct j as [|j']; simpl; [lia|].
  destruct (j2len !! j') as [k|] eqn:E; simpl; [|lia].
  destruct (Hr _ _ E) as (? & ? & ? & ?). lia.
Qed.

Lemma flm_inner_ok i j2len js : forall st,
  (alo <= i)%nat ->
  runs_ok i j2len ->
  runs_ok (i + 1) (newj2len st) -> best_ok (i + 1) st ->
  runs_ok (i + 1) (newj2len (flm_inner i blo bhi j2len js st))
  /\ best_ok (i + 1) (flm_inner i blo bhi j2len js st).
Proof.
  induction js as [|j js IH]; intros st Hi Hold Hnew Hbest; simpl.
  - split; assumption.
  - destruct (Nat.ltb_spec j blo) as [Hlt|Hge]; [apply IH; assumption|].
    destruct (Nat.leb_spec bhi j) as [Hbrk|Hin]; [split; assumption|].
    pose proof (j2lenget_pred_ok i j2len j Hold Hi Hge) as Hk.
    simpl in Hk. destruct Hk as (Hk1 & Hk2 & Hk3).
    apply IH; try assumption.
    + destruct (Nat.ltb_spec (bestsize st) (j2lenget_pred j2len j + 1));
        simpl; intros j0 k0 Hl;
        (destruct (decide (j = j0)) as [->|Hne];
         [rewrite lookup_insert_eq in Hl; injection Hl as <-; lia
         |rewrite lookup_insert_ne in Hl by assumption;
          exact (Hnew _ _ Hl)]).
    + destruct (Nat.ltb_spec (bestsize st) (j2lenget_pred j2len j + 1));
        unfold best_ok, inside in *; simpl; lia.
Qed.

Lemma flm_outer_step_ok st i :
  (alo <= i)%nat -> runs_ok i (newj2len st) -> best_ok i st ->
  let st' := flm_outer_step a b blo bhi st i in
  runs_ok (i + 1) (newj2len st') /\ best_ok (i + 1) st'.
Proof.
  intros Hi Hr Hb. unfold flm_outer_step.
  apply flm_inner_ok; try assumption.
  - simpl. apply runs_ok_empty.
  - unfold best_ok, inside in *. simpl. lia.
Qed.

Lemma flm_fold_ok n : forall i st,
  (alo <= i)%nat -> runs_ok i (newj2len st) -> best_ok i st ->
  let st' := fold_left (flm_outer_step a b blo bhi) (seq i n) st in
  runs_ok (i + n) (newj2len st') /\ best_ok (i + n) st'.
Proof.
  induction n as [|n IH]; intros i st Hi Hr Hb; simpl.
  - rewrite Nat.add_0_r. split; assumption.
  - destruct (flm_outer_step_ok st i Hi Hr Hb) as [Hr' Hb'].
    replace (i + S n)%nat with (S i + n)%nat by lia.
    apply IH; [lia| |]; replace (S i) with (i + 1)%nat by lia; assumption.
Qed.

Lemma flm_scan_ok ahi :
  (alo <= ahi)%nat -> (blo <= bhi)%nat ->
  best_ok ahi (flm_scan a b alo ahi blo bhi).
Proof.
  intros Ha Hb. unfold flm_scan.
  destruct (flm_fold_ok (ahi - alo) alo (FlmState alo blo 0 ∅))
    as [_ H].
  - lia.
  - apply runs_ok_empty.
  - unfold best_ok, inside. simpl. lia.
  - replace (alo + (ahi - alo))%nat with ahi in H by lia. exact H.
Qed.
End Scan.

Lemma extend_left_inside p alo ahi blo bhi turns : forall m,
  inside (alo, ahi, blo, bhi) m ->
  inside (alo, ahi, blo, bhi) (extend_left a b p alo blo turns m).
Proof.
  induction turns as [|t IH]; intros [[bi bj] bs] H; simpl; [assumption|].
  destruct (Nat.ltb_spec alo bi); simpl; [|assumption].
  destruct (Nat.ltb_spec blo bj); simpl; [|assumption].
  destruct (b_sat b p (bj - 1) && same_elt a b (bi - 1) (bj - 1));
    [|assumption].
  apply IH. unfold inside in *. lia.
Qed.

Lemma extend_right_inside p alo ahi blo bhi turns : forall m,
  inside (alo, ahi, blo, bhi) m ->
  inside (alo, ahi, blo, bhi) (extend_right a b p ahi bhi turns m).
Proof.
  induction turns as [|t IH]; intros [[bi bj] bs] H; simpl; [assumption|].
  destruct (Nat.ltb_spec (bi + bs) ahi); simpl; [|assumption].
  destruct (Nat.ltb_spec (bj + bs) bhi); simpl; [|assumption].
  destruct (b_sat b p (bj + bs) && same_elt a b (bi + bs) (bj + bs));
    [|assumption].
  apply IH. unfold inside in *. lia.
Qed.

Lemma extend_inside p alo ahi blo bhi m :
  inside (alo, ahi, blo, bhi) m ->
  inside (alo, ahi, blo, bhi) (extend a b p alo ahi blo bhi m).
Proof.
  intros H. unfold extend.
  apply extend_right_inside, extend_left_inside, H.
Qed.

Lemma find_longest_match_inside alo ahi blo bhi :
  valid (alo, ahi, blo, bhi) ->
  inside (alo, ahi, blo, bhi) (find_longest_match a b alo ahi blo bhi).
Proof.
  intros [Ha Hb]. unfold find_longest_match.
  do 2 apply extend_inside.
  exact (flm_scan_ok alo blo bhi ahi Ha Hb).
Qed.

(** The most a window can contribute to the number of matches. *)
Definition cap (r : Range) : nat :=
  let '(alo, ahi, blo, bhi) := r in Nat.min (ahi - alo) (bhi - blo).

Definition caps (queue : list Range) : nat :=
  fold_right (fun r n => (cap r + n)%nat) O queue.

Lemma push_ranges_ok r m queue :
  valid r -> inside r m -> (1 <= m.2)%nat -> Forall valid queue ->
  Forall valid (push_ranges r m queue)
  /\ (queue_weight (push_ranges r m queue) + 1
      <= range_weight r + queue_weight queue)%nat
  /\ (m.2 + caps (push_ranges r m queue) <= cap r + caps queue)%nat.
Proof.
  destruct r as [[[alo ahi] blo] bhi], m as [[i j] k].
  intros [Ha Hb] (H1 & H2 & H3 & H4) Hk Hq. simpl in Hk.
  unfold push_ranges.
  destruct (Nat.ltb_spec alo i) as [A|A], (Nat.ltb_spec blo j) as [B|B],
    (Nat.ltb_spec (i + k) ahi) as [C|C], (Nat.ltb_spec (j + k) bhi) as [D|D];
    simpl; (split; [repeat (constructor; [simpl; lia|]); assumption|]);
    split; lia.
Qed.

(** The loop of [get_matching_blocks] ends within the weight of its
    work list, and the blocks it adds fit in the windows. *)
Lemma blocks_loop_ok turns : forall queue blocks,
  Forall valid queue -> (queue_weight queue <= turns)%nat ->
  exists bs, blocks_loop a b turns queue blocks = Some bs
             /\ (total bs <= total blocks + caps queue)%nat.
Proof.
  induction turns as [|t IH]; intros queue blocks Hv Hw.
  - destruct queue as [|[[[alo ahi] blo] bhi] q]; simpl in *.
    + exists blocks. split; [reflexivity|lia].
    + lia.
  - destruct queue as [|[[[alo ahi] blo] bhi] q].
    + exists blocks. simpl. split; [reflexivity|lia].
    + inversion Hv as [|? ? Hr Hq]; subst.
      pose proof (find_longest_match_inside alo ahi blo bhi Hr) as Hin.
      cbn [blocks_loop].
      destruct (Nat.eqb_spec (find_longest_match a b alo ahi blo bhi).2 0)
        as [Hz|Hnz].
      * destruct (IH q blocks Hq) as (bs & E & Hle).
        { simpl in Hw. lia. }
        exists bs. split; [exact E|]. simpl. lia.
      * destruct (push_ranges_ok (alo, ahi, blo, bhi) _ q Hr Hin
                    ltac:(lia) Hq) as (Hv' & Hw' & Hc').
        destruct (IH _ (blocks ++ [find_longest_match a b alo ahi blo bhi]) Hv')
          as (bs & E & Hle).
        { simpl in Hw, Hw'. simpl. lia. }
        exists bs. split; [exact E|].
        rewrite total_app in Hle. simpl in Hle, Hc' |- *. lia.
Qed.

Lemma found_blocks_total :
  (total (found_blocks a b) <= Nat.min (length a) (length b))%nat.
Proof.
  unfold found_blocks.
  destruct (blocks_loop_ok
              (queue_weight [(O, length a, O, length b)])
              [(O, length a, O, length b)] [])
    as (bs & E & Hle).
  - constructor; [simpl; lia|constructor].
  - lia.
  - rewrite E. simpl in *. lia.
Qed.

(** The loop of [get_matching_blocks] always runs to its end. *)
Lemma blocks_loop_terminates :
  exists bs,
    blocks_loop a b (queue_weight [(O, length a, O, length b)])
      [(O, length a, O, length b)] [] = Some bs.
Proof.
  destruct (blocks_loop_ok
              (queue_weight [(O, length a, O, length b)])
              [(O, length a, O, length b)] [])
    as (bs & E & _).
  - constructor; [simpl; lia|constructor].
  - lia.
  - exists bs. exact E.
Qed.

Lemma matches_eq : matches a b = total (found_blocks a b).
Proof.
  unfold matches, get_matching_blocks.
  change (total (collapse (O, O, O) (sort_matches (found_blocks a b))
                 ++ [(length a, length b, O)]) = total (found_blocks a b)).
  rewrite total_app, total_collapse, total_sort_matches. simpl. lia.
Qed.

Lemma matches_le_min : (matches a b <= Nat.min (length a) (length b))%nat.
Proof. rewrite matches_eq. apply found_blocks_total. Qed.

Lemma matches_twice_le : (2 * matches a b <= length a + length b)%nat.
Proof. pose proof matches_le_min. lia. Qed.

End Bounds.

End DifflibFacts.

(* ===================================================================== *)
(** * Facts about binary64 arithmetic *)
(* ===================================================================== *)

Module FloatFacts.
Import PyNum.

Lemma digits2_pos_bounds p :
  2 ^ (Zpos (digits2_pos p) - 1) <= Zpos p < 2 ^ Zpos (digits2_pos p).
Proof.
  induction p as [p IH|p IH|]; cbn [digits2_pos].
  - rewrite Pos2Z.inj_succ.
    replace (Z.succ (Zpos (digits2_pos p)) - 1) with (Zpos (digits2_pos p)) by lia.
    rewrite Z.pow_succ_r by lia.
    assert (2 ^ Zpos (digits2_pos p)
            = 2 * 2 ^ (Zpos (digits2_pos p) - 1)) as E.
    { rewrite <- Z.pow_succ_r by lia. f_equal. lia. }
    lia.
  - rewrite Pos2Z.inj_succ.
    replace (Z.succ (Zpos (digits2_pos p)) - 1) with (Zpos (digits2_pos p)) by lia.
    rewrite Z.pow_succ_r by lia.
    assert (2 ^ Zpos (digits2_pos p)
            = 2 * 2 ^ (Zpos (digits2_pos p) - 1)) as E.
    { rewrite <- Z.pow_succ_r by lia. f_equal. lia. }
    lia.
  - simpl. lia.
Qed.

Lemma Zdigits2_le m K :
  0 <= m -> 0 <= K -> m < 2 ^ K -> Zdigits2 m <= K.
Proof.
  intros Hm HK Hlt. destruct m as [|p|p]; simpl; [lia| |lia].
  destruct (digits2_pos_bounds p) as [Hlo _].
  destruct (Z.le_gt_cases (Zpos (digits2_pos p)) K) as [|Hgt]; [assumption|].
  assert (2 ^ K <= 2 ^ (Zpos (digits2_pos p) - 1))
    by (apply Z.pow_le_mono_r; lia).
  lia.
Qed.

Lemma Zdigits2_ge p K : 2 ^ (K - 1) <= Zpos p -> 1 <= K -> K <= Zpos (digits2_pos p).
Proof.
  intros Hle HK.
  destruct (digits2_pos_bounds p) as [_ Hhi].
  destruct (Z.le_gt_cases K (Zpos (digits2_pos p))) as [|Hgt]; [assumption|].
  assert (2 ^ Zpos (digits2_pos p) <= 2 ^ (K - 1))
    by (apply Z.pow_le_mono_r; lia).
  lia.
Qed.

Lemma digits2_pos_eq p K :
  1 <= K -> 2 ^ (K - 1) <= Zpos p < 2 ^ K -> Zpos (digits2_pos p) = K.
Proof.
  intros HK [Hlo Hhi].
  pose proof (Zdigits2_ge p K Hlo HK).
  pose proof (Zdigits2_le (Zpos p) K ltac:(lia) ltac:(lia) Hhi) as H1.
  simpl in H1. lia.
Qed.

(** ** Right shifts *)

Lemma shr_1_m mrs :
  0 <= shr_m mrs -> shr_m (shr_1 mrs) = Z.div2 (shr_m mrs).
Proof.
  destruct mrs as [[|[p|p|]|p] r s]; simpl; intros H; try reflexivity; lia.
Qed.

Lemma pow2_xO p : 2 ^ Zpos p~0 = 2 ^ Zpos p * 2 ^ Zpos p.
Proof.
  replace (Zpos p~0) with (Zpos p + Zpos p) by lia.
  apply Z.pow_add_r; lia.
Qed.

Lemma pow2_xI p : 2 ^ Zpos p~1 = 2 * (2 ^ Zpos p * 2 ^ Zpos p).
Proof.
  replace (Zpos p~1) with (Z.succ (Zpos p + Zpos p)) by lia.
  rewrite Z.pow_succ_r by lia.
  f_equal. apply Z.pow_add_r; lia.
Qed.

Lemma iter_pos_shr_m p : forall mrs,
  0 <= shr_m mrs ->
  shr_m (SpecFloat.iter_pos shr_1 p mrs) = shr_m mrs / 2 ^ Zpos p.
Proof.
  assert (Hstep : forall mrs, 0 <= shr_m mrs ->
            shr_m (shr_1 mrs) = shr_m mrs / 2 /\ 0 <= shr_m (shr_1 mrs)).
  { intros mrs H. rewrite shr_1_m, Z.div2_div by assumption.
    split; [reflexivity|apply Z.div_pos; lia]. }
  induction p as [p IH|p IH|]; intros mrs Hm; cbn [SpecFloat.iter_pos].
  - destruct (Hstep mrs Hm) as [E1 H1].
    assert (0 < 2 ^ Zpos p) by (apply Z.pow_pos_nonneg; lia).
    assert (0 <= shr_m (SpecFloat.iter_pos shr_1 p (shr_1 mrs))) as H2.
    { rewrite IH by assumption. apply Z.div_pos; lia. }
    rewrite IH, IH, E1 by assumption.
    rewrite pow2_xI, !Z.div_div by lia. reflexivity.
  - assert (0 < 2 ^ Zpos p) by (apply Z.pow_pos_nonneg; lia).
    assert (0 <= shr_m (SpecFloat.iter_pos shr_1 p mrs)) as H2.
    { rewrite IH by assumption. apply Z.div_pos; lia. }
    rewrite IH, IH by assumption.
    rewrite pow2_xO, !Z.div_div by lia. reflexivity.
  - destruct (Hstep mrs Hm) as [E1 _]. rewrite E1. reflexivity.
Qed.

(** Shifting out zeros loses nothing. *)
Lemma iter_pos_shr_exact p : forall m,
  0 < m ->
  SpecFloat.iter_pos shr_1 p (Build_shr_record (m * 2 ^ Zpos p) false false)
  = Build_shr_record m false false.
Proof.
  assert (Hstep : forall m, 0 < m ->
            shr_1 (Build_shr_record (2 * m) false false)
            = Build_shr_record m false false).
  { intros m Hm. destruct m as [|q|q]; try lia. reflexivity. }
  induction p as [p IH|p IH|]; intros m Hm; cbn [SpecFloat.iter_pos].
  - assert (0 < 2 ^ Zpos p) by (apply Z.pow_pos_nonneg; lia).
    rewrite pow2_xI.
    replace (m * (2 * (2 ^ Zpos p * 2 ^ Zpos p)))
      with (2 * (m * 2 ^ Zpos p * 2 ^ Zpos p)) by lia.
    rewrite Hstep by nia.
    rewrite IH by nia. apply IH. assumption.
  - assert (0 < 2 ^ Zpos p) by (apply Z.pow_pos_nonneg; lia).
    rewrite pow2_xO, Z.mul_assoc.
    rewrite IH by nia. apply IH. assumption.
  - replace (m * 2 ^ 1) with (2 * m) by (simpl (2 ^ 1); lia).
    apply Hstep. assumption.
Qed.

Lemma round_nearest_even_bounds m l :
  m <= round_nearest_even m l <= m + 1.
Proof.
  destruct l as [|[| |]]; simpl; try lia.
  destruct (Z.even m); lia.
Qed.

Lemma fexp_mono e1 e2 : e1 <= e2 -> fexp prec emax e1 <= fexp prec emax e2.
Proof. unfold fexp, emin, prec, emax. lia. Qed.

Lemma fexp_ge_emin e : -1074 <= fexp prec emax e.
Proof. unfold fexp, emin, prec, emax. lia. Qed.

Section Scaled.
  (** Values are compared after scaling by [2 ^ S]; any [S] that makes
      every exponent in play non-negative will do. *)
Variable S : Z.
Hypothesis S_large : 1200 <= S.

Definition pw (e : Z) : Z := 2 ^ (e + S).

Lemma pw_pos e : - S <= e -> 0 < pw e.
Proof. intros H. unfold pw. apply Z.pow_pos_nonneg; lia. Qed.

Lemma pw_add e n : - S <= e -> 0 <= n -> pw (e + n) = pw e * 2 ^ n.
Proof.
  intros He Hn. unfold pw.
  replace (e + n + S) with (e + S + n) by lia.
  apply Z.pow_add_r; lia.
Qed.

Lemma pw_le e1 e2 : - S <= e1 -> e1 <= e2 -> pw e1 <= pw e2.
Proof. intros H1 H2. unfold pw. apply Z.pow_le_mono_r; lia. Qed.

Lemma pw_lt_inv e1 e2 : - S <= e2 -> pw e1 < pw e2 -> e1 < e2.
Proof.
  intros H2 Hlt. destruct (Z.lt_ge_cases e1 e2) as [|Hge]; [assumption|].
  pose proof (pw_le e2 e1 H2 Hge). lia.
Qed.

(** The scaled value of a float that is zero or positive and finite. *)
Definition sval (x : spec_float) : Z :=
  match x with
  | S754_finite false m e => Zpos m * pw e
  | _ => 0
  end.

(** [x] is [+0] or a positive finite float of value at most [V / 2^S]. *)
Definition fin_le (x : spec_float) (V : Z) : Prop :=
  match x with
  | S754_zero false => 0 <= V
  | S754_finite false m e => -1074 <= e /\ Zpos m * pw e <= V
  | _ => False
  end.

Lemma fin_le_weaken x V V' : fin_le x V -> V <= V' -> fin_le x V'.
Proof.
  destruct x as [[|]|[|]| |[|] m e]; simpl; try tauto; try lia.
Qed.

Lemma shr_fexp_le m e l :
  0 <= m -> - S <= e ->
  let f := Z.max e (fexp prec emax (Zdigits2 m + e)) in
  snd (shr_fexp prec emax m e l) = f
  /\ 0 <= shr_m (fst (shr_fexp prec emax m e l))
  /\ shr_m (fst (shr_fexp prec emax m e l)) * pw f <= m * pw e.
Proof.
  intros Hm He f. unfold shr_fexp, shr.
  assert (Hrec : shr_m (shr_record_of_loc m l) = m)
    by (destruct l as [|[| |]]; reflexivity).
  destruct (fexp prec emax (Zdigits2 m + e) - e) as [|n|n] eqn:En; simpl.
  - rewrite Hrec. replace f with e by (unfold f; lia). lia.
  - assert (Ef : f = e + Zpos n) by (unfold f; lia).
    rewrite iter_pos_shr_m by (rewrite Hrec; assumption).
    rewrite Hrec. rewrite Ef. split; [reflexivity|].
    assert (0 < 2 ^ Zpos n) by (apply Z.pow_pos_nonneg; lia).
    split; [apply Z.div_pos; lia|].
    rewrite pw_add by lia.
    pose proof (pw_pos e He).
    pose proof (Z.mul_div_le m (2 ^ Zpos n) ltac:(lia)). nia.
  - rewrite Hrec. replace f with e by (unfold f; lia). lia.
Qed.

(** Rounding to nearest adds at most one unit in the last place.  The
    result is finite as long as the bound stays below [2 ^ 972]. *)
Lemma binary_round_aux_upper m e l :
  0 <= m -> - S <= e ->
  let f := Z.max e (fexp prec emax (Zdigits2 m + e)) in
  m * pw e + pw f < pw 972 ->
  fin_le (binary_round_aux prec emax false m e l) (m * pw e + pw f).
Proof.
  intros Hm He f Hsmall. unfold binary_round_aux.
  destruct (shr_fexp_le m e l Hm He) as (E1 & Hp1 & Hle1).
  fold f in E1, Hle1.
  destruct (shr_fexp prec emax m e l) as [mrs1 e1]. simpl in E1, Hp1, Hle1.
  subst e1.
  pose proof (round_nearest_even_bounds (shr_m mrs1)
                (loc_of_shr_record mrs1)) as [Hr1 Hr2].
  set (m1 := round_nearest_even (shr_m mrs1) (loc_of_shr_record mrs1)) in *.
  assert (Hf : - S <= f) by (unfold f; lia).
  destruct (shr_fexp_le m1 f loc_Exact ltac:(lia) Hf) as (E2 & Hp2 & Hle2).
  destruct (shr_fexp prec emax m1 f loc_Exact) as [mrs2 e2].
  simpl in E2, Hp2, Hle2.
  pose proof (pw_pos f Hf) as Hpf.
  pose proof (pw_pos e He) as Hpe.
  assert (Hbound : shr_m mrs2 * pw e2 <= m * pw e + pw f).
  { rewrite E2.
    assert (m1 * pw f <= (shr_m mrs1 + 1) * pw f)
      by (apply Z.mul_le_mono_nonneg_r; lia).
    lia. }
  assert (He2 : -1074 <= e2).
  { rewrite E2. pose proof (fexp_ge_emin (Zdigits2 m1 + f)). lia. }
  destruct (shr_m mrs2) as [|m2|m2] eqn:Em2; simpl.
  - nia.
  - assert (e2 < 972) as Hlt.
    { apply pw_lt_inv; [lia|].
      pose proof (pw_pos e2 ltac:(lia)). nia. }
    replace (e2 <=? emax - prec) with true
      by (symmetry; apply Z.leb_le; unfold emax, prec; lia).
    simpl. split; assumption.
  - lia.
Qed.

Lemma pw_le_inv e1 e2 : - S <= e2 -> pw e1 <= pw e2 -> e1 <= e2.
Proof.
  intros H2 Hle. destruct (Z.le_gt_cases e1 e2) as [|Hgt]; [assumption|].
  assert (pw (e2 + 1) <= pw e1) by (apply pw_le; lia).
  rewrite pw_add in * by lia. pose proof (pw_pos e2 H2).
  change (2 ^ 1) with 2 in *. lia.
Qed.

Lemma Zdigits2_eq z K :
  1 <= K -> 2 ^ (K - 1) <= z < 2 ^ K -> Zdigits2 z = K.
Proof.
  intros HK [Hlo Hhi].
  assert (0 < 2 ^ (K - 1)) by (apply Z.pow_pos_nonneg; lia).
  destruct z as [|p|p]; try lia.
  simpl. apply digits2_pos_eq; [assumption|lia].
Qed.

(** A mantissa that already has its canonical exponent is kept. *)
Lemma binary_round_aux_canonical s m e :
  fexp prec emax (Zpos (digits2_pos m) + e) = e -> e <= 971 ->
  binary_round_aux prec emax s (Zpos m) e loc_Exact = S754_finite s m e.
Proof.
  intros Hc He. unfold binary_round_aux, shr_fexp.
  cbn [Zdigits2 shr_record_of_loc]. rewrite Hc, Z.sub_diag.
  cbn [shr shr_m loc_of_shr_record round_nearest_even Zdigits2
       shr_record_of_loc].
  rewrite Hc, Z.sub_diag. cbn [shr shr_m].
  replace (e <=? emax - prec) with true
    by (symmetry; apply Z.leb_le; unfold emax, prec; lia).
  reflexivity.
Qed.

(** A 53-bit mantissa followed by zeros is rounded to itself. *)
Lemma binary_round_aux_shift m e n :
  Zpos (digits2_pos m) = 53 -> -1074 <= e + Zpos n -> e + Zpos n <= 971 ->
  binary_round_aux prec emax false (Zpos m * 2 ^ Zpos n) e loc_Exact
  = S754_finite false m (e + Zpos n).
Proof.
  intros Hd Hlo Hhi.
  destruct (digits2_pos_bounds m) as [Hm1 Hm2]. rewrite Hd in Hm1, Hm2.
  assert (0 < 2 ^ Zpos n) as Hn by (apply Z.pow_pos_nonneg; lia).
  assert (Zdigits2 (Zpos m * 2 ^ Zpos n) = 53 + Zpos n) as Hdig.
  { apply Zdigits2_eq; [lia|].
    replace (53 + Zpos n - 1) with (52 + Zpos n) by lia.
    rewrite !Z.pow_add_r by lia.
    change (53 - 1) with 52 in Hm1. nia. }
  assert (fexp prec emax (53 + Zpos n + e) = e + Zpos n) as Hf1
    by (unfold fexp, emin, prec, emax; lia).
  assert (fexp prec emax (53 + (e + Zpos n)) = e + Zpos n) as Hf2
    by (unfold fexp, emin, prec, emax; lia).
  unfold binary_round_aux, shr_fexp.
  rewrite Hdig, Hf1.
  replace (e + Zpos n - e) with (Zpos n) by lia.
  cbn [shr shr_record_of_loc].
  rewrite iter_pos_shr_exact by lia.
  cbn [shr_m loc_of_shr_record round_nearest_even Zdigits2
       shr_record_of_loc].
  rewrite Hd, Hf2, Z.sub_diag. cbn [shr shr_m].
  replace (e + Zpos n <=? emax - prec) with true
    by (symmetry; apply Z.leb_le; unfold emax, prec; lia).
  reflexivity.
Qed.

(** [x] is the normal float of integer value [n]. *)
Definition is_int (x : spec_float) (n : Z) : Prop :=
  exists m e,
    x = S754_finite false m e /\ Zpos (digits2_pos m) = 53
    /\ -52 <= e <= 1 /\ Zpos m * pw e = n * pw 0.

Lemma Zpos_iter_xO p k : Zpos (Pos.iter xO p k) = Zpos p * 2 ^ Zpos k.
Proof.
  induction k as [|k IH] using Pos.peano_ind.
  - simpl. lia.
  - rewrite Pos.iter_succ, Pos2Z.inj_succ, Z.pow_succ_r by lia.
    rewrite Pos2Z.inj_xO, IH. lia.
Qed.

Lemma of_int_is_int n : 0 < n < 2 ^ 53 -> is_int (of_int n) n.
Proof.
  intros [Hn1 Hn2]. destruct n as [|p|p]; try lia.
  unfold of_int, binary_normalize, binary_round.
  destruct (digits2_pos_bounds p) as [Hp1 Hp2].
  set (d := Zpos (digits2_pos p)) in *.
  assert (Hd : 1 <= d <= 53).
  { split; [unfold d; lia|].
    pose proof (Zdigits2_le (Zpos p) 53 ltac:(lia) ltac:(lia) Hn2) as H.
    exact H. }
  replace (d + 0) with d by lia.
  assert (Hf : fexp prec emax d = d - 53)
    by (unfold fexp, emin, prec, emax; lia).
  rewrite Hf. unfold shl_align.
  destruct (d - 53 - 0) as [|k|k] eqn:Ek; try lia.
  - assert (d = 53) by lia.
    rewrite binary_round_aux_canonical.
    + exists p, 0. repeat split; try lia.
    + fold d. unfold fexp, emin, prec, emax. lia.
    + lia.
  - assert (Hk : Zpos k = 53 - d) by lia.
    assert (Hmz : Zpos (Pos.iter xO p k) = Zpos p * 2 ^ Zpos k)
      by apply Zpos_iter_xO.
    assert (0 < 2 ^ (d - 1)) by (apply Z.pow_pos_nonneg; lia).
    assert (Hdz : Zpos (digits2_pos (Pos.iter xO p k)) = 53).
    { assert (E1 : 2 ^ (53 - 1) = 2 ^ (d - 1) * 2 ^ (53 - d))
        by (rewrite <- Z.pow_add_r by lia; f_equal; lia).
      assert (E2 : 2 ^ 53 = 2 ^ d * 2 ^ (53 - d))
        by (rewrite <- Z.pow_add_r by lia; f_equal; lia).
      assert (0 < 2 ^ (53 - d)) by (apply Z.pow_pos_nonneg; lia).
      apply digits2_pos_eq; [lia|]. rewrite Hmz, Hk, E1, E2.
      split; [apply Z.mul_le_mono_nonneg_r; lia
             |apply Z.mul_lt_mono_pos_r; lia]. }
    rewrite binary_round_aux_canonical.
    + exists (Pos.iter xO p k), (d - 53). repeat split; try lia.
      rewrite Hmz, Hk.
      assert (pw 0 = pw (d - 53) * 2 ^ (53 - d)) as ->
        by (rewrite <- pw_add by lia; f_equal; lia).
      lia.
    + rewrite Hdz. unfold fexp, emin, prec, emax. lia.
    + lia.
Qed.

Lemma fmul_two_is_int x n :
  is_int x n -> n < 2 ^ 53 -> is_int (fmul (of_int 2) x) (2 * n).
Proof.
  intros (m & e & -> & Hd & He & Hv) Hn.
  assert (He0 : e <= 0).
  { destruct (Z.le_gt_cases e 0) as [|Hgt]; [assumption|].
    assert (e = 1) by lia. subst e.
    destruct (digits2_pos_bounds m) as [Hm1 _]. rewrite Hd in Hm1.
    assert (E : pw 1 = pw 0 * 2 ^ 1) by (apply (pw_add 0 1); lia).
    rewrite E in Hv.
    pose proof (pw_pos 0 ltac:(lia)).
    change (53 - 1) with 52 in Hm1.
    assert (2 ^ 53 = 2 * 2 ^ 52) by reflexivity.
    change (2 ^ 1) with 2 in Hv. nia. }
  change (of_int 2) with (S754_finite false 4503599627370496 (-51)).
  unfold fmul, SFmul. cbn [xorb].
  replace (Zpos (4503599627370496 * m)) with (Zpos m * 2 ^ 52)
    by (rewrite Pos2Z.inj_mul; change (2 ^ 52) with 4503599627370496; lia).
  rewrite (binary_round_aux_shift m (-51 + e) 52) by lia.
  exists m, (-51 + e + 52). repeat split; try lia.
  replace (-51 + e + 52) with (e + 1) by lia.
  rewrite pw_add by lia. change (2 ^ 1) with 2. lia.
Qed.

Lemma SFdiv_core_53 mP eP mQ eQ :
  Zpos (digits2_pos mP) = 53 -> Zpos (digits2_pos mQ) = 53 ->
  -1021 <= eP - eQ ->
  exists q l,
    SFdiv_core_binary prec emax (Zpos mP) eP (Zpos mQ) eQ
    = (q, eP - eQ - 53, l)
    /\ 0 <= q /\ q * Zpos mQ <= Zpos mP * 2 ^ 53.
Proof.
  intros HdP HdQ Hk. unfold SFdiv_core_binary.
  cbn [Zdigits2]. rewrite HdP, HdQ.
  replace (fexp prec emax (53 + eP - (53 + eQ))) with (eP - eQ - 53)
    by (unfold fexp, emin, prec, emax; lia).
  replace (Z.min (eP - eQ - 53) (eP - eQ)) with (eP - eQ - 53) by lia.
  replace (eP - eQ - (eP - eQ - 53)) with 53 by lia.
  cbv iota beta.
  rewrite Z.shiftl_mul_pow2 by lia.
  pose proof (Z_div_mod (Zpos mP * 2 ^ 53) (Zpos mQ) ltac:(lia)) as Hdm.
  destruct (Z.div_eucl (Zpos mP * 2 ^ 53) (Zpos mQ)) as [q r].
  destruct Hdm as [Hq Hr].
  exists q, (new_location (Zpos mQ) r).
  split; [reflexivity|]. split; nia.
Qed.

Lemma fexp_small d e :
  d + e <= 1 -> e <= -52 ->
  Z.max e (fexp prec emax (d + e)) <= -52.
Proof. unfold fexp, emin, prec, emax. lia. Qed.

(** A quotient of integers that is at most one rounds to at most
    [1 + 2^-52]. *)
Lemma fdiv_le_one P Q nP nQ :
  is_int P nP -> is_int Q nQ -> nP <= nQ ->
  fin_le (fdiv P Q) (pw 0 + pw (-52)).
Proof.
  intros (mP & eP & -> & HdP & HeP & HvP) (mQ & eQ & -> & HdQ & HeQ & HvQ)
         Hle.
  pose proof (pw_pos 0 ltac:(lia)) as Hp0.
  pose proof (pw_pos eP ltac:(lia)) as HpP.
  pose proof (pw_pos eQ ltac:(lia)) as HpQ.
  assert (Hval : Zpos mP * pw eP <= Zpos mQ * pw eQ) by nia.
  destruct (digits2_pos_bounds mP) as [HP1 HP2].
  destruct (digits2_pos_bounds mQ) as [HQ1 HQ2].
  rewrite HdP in HP1, HP2. rewrite HdQ in HQ1, HQ2.
  change (53 - 1) with 52 in HP1, HQ1.
  assert (E53 : 2 ^ 53 = 2 * 2 ^ 52) by reflexivity.
  assert (0 < 2 ^ 52) as H52 by reflexivity.
  (* the exponents are ordered like the values *)
  assert (HePQ : eP <= eQ).
  { assert (pw eP < pw (eQ + 1)) as Hlt.
    { rewrite (pw_add eQ 1) by lia. change (2 ^ 1) with 2. nia. }
    apply pw_lt_inv in Hlt; lia. }
  unfold fdiv, SFdiv. cbn [xorb].
  destruct (SFdiv_core_53 mP eP mQ eQ HdP HdQ ltac:(lia))
    as (q & l & -> & Hq0 & Hq).
  set (e' := eP - eQ - 53).
  assert (He' : - S <= e') by (unfold e'; lia).
  pose proof (pw_pos e' He') as Hpe'.
  (* the truncated quotient is at most one *)
  assert (Hq1 : q * pw e' <= pw 0).
  { assert (E1 : pw (eP - eQ) = pw e' * 2 ^ 53).
    { rewrite <- pw_add by lia. f_equal. unfold e'. lia. }
    assert (E2 : pw eP * pw 0 = pw (eP - eQ) * pw eQ).
    { unfold pw. rewrite <- !Z.pow_add_r by lia. f_equal. lia. }
    pose proof (pw_pos (eP - eQ) ltac:(lia)) as HpPQ.
    assert (Zpos mP * pw (eP - eQ) <= Zpos mQ * pw 0).
    { apply (Z.mul_le_mono_pos_r _ _ (pw eQ)); [assumption|].
      replace (Zpos mP * pw (eP - eQ) * pw eQ)
        with (Zpos mP * pw eP * pw 0) by (rewrite <- !Z.mul_assoc, E2; lia).
      nia. }
    apply (Z.mul_le_mono_pos_r _ _ (Zpos mQ)); [lia|].
    nia. }
  (* so its unit in the last place is at most 2^-52 *)
  assert (Hf : Z.max e' (fexp prec emax (Zdigits2 q + e')) <= -52).
  { apply fexp_small; [|unfold e'; lia].
    destruct q as [|pq|pq]; [simpl; unfold e'; lia| |lia].
    cbn [Zdigits2].
    destruct (digits2_pos_bounds pq) as [Hpq _].
    set (dq := Zpos (digits2_pos pq)) in *.
    assert (1 <= dq) by (unfold dq; lia).
    assert (pw (e' + (dq - 1)) <= pw 0) as Hle0.
    { rewrite pw_add by lia. nia. }
    apply pw_le_inv in Hle0; lia. }
  assert (Hpf : pw (Z.max e' (fexp prec emax (Zdigits2 q + e')))
                <= pw (-52)) by (apply pw_le; lia).
  eapply fin_le_weaken.
  - apply binary_round_aux_upper; try assumption.
    assert (pw (-52) <= pw 0) by (apply pw_le; lia).
    assert (pw 1 = pw 0 * 2 ^ 1) by (apply (pw_add 0 1); lia).
    change (2 ^ 1) with 2 in *.
    assert (pw 1 < pw 972).
    { unfold pw. apply Z.pow_lt_mono_r; lia. }
    lia.
  - lia.
Qed.

(** Scaling a float that is at most [1 + 2^-52] by 100 stays below
    101. *)
Lemma fmul_hundred x :
  fin_le x (pw 0 + pw (-52)) ->
  fin_le (fmul x (of_int 100)) (101 * pw 0 - 1).
Proof.
  change (of_int 100) with (S754_finite false 7036874417766400 (-46)).
  pose proof (pw_pos 0 ltac:(lia)) as Hp0.
  pose proof (pw_pos (-52) ltac:(lia)) as Hp52.
  pose proof (pw_pos (-46) ltac:(lia)) as Hp46.
  assert (E52 : pw 0 = pw (-52) * 2 ^ 52) by (apply (pw_add (-52) 52); lia).
  assert (E46 : pw (-46) = pw (-52) * 2 ^ 6) by (apply (pw_add (-52) 6); lia).
  assert (E7 : pw 7 = pw 0 * 2 ^ 7) by (apply (pw_add 0 7); lia).
  assert (E1 : pw 1 = pw 0 * 2 ^ 1) by (apply (pw_add 0 1); lia).
  change (2 ^ 52) with 4503599627370496 in E52.
  change (2 ^ 6) with 64 in E46.
  change (2 ^ 7) with 128 in E7.
  change (2 ^ 1) with 2 in E1.
  destruct x as [[|]|[|]| |[|] mx ex]; simpl; try tauto; try lia.
  intros [Hex Hv].
  unfold fmul, SFmul. cbn [xorb].
  pose proof (pw_pos ex ltac:(lia)) as Hpx.
  assert (Hex0 : ex <= 0).
  { assert (pw ex < pw 1) as Hlt by nia.
    apply pw_lt_inv in Hlt; lia. }
  set (e := ex + -46).
  assert (He : - S <= e) by (unfold e; lia).
  pose proof (pw_pos e He) as Hpe.
  assert (Epx : pw ex = pw e * 2 ^ 46).
  { rewrite <- pw_add by lia. f_equal. unfold e. lia. }
  change (2 ^ 46) with 70368744177664 in Epx.
  assert (Eprod : Zpos (mx * 7036874417766400) * pw e
                  = 100 * (Zpos mx * pw ex)).
  { rewrite Pos2Z.inj_mul, Epx. lia. }
  assert (Hf : Z.max e (fexp prec emax
                          (Zdigits2 (Zpos (mx * 7036874417766400)) + e))
               <= -46).
  { cbn [Zdigits2].
    destruct (digits2_pos_bounds (mx * 7036874417766400)) as [Hd _].
    set (d := Zpos (digits2_pos (mx * 7036874417766400))) in *.
    assert (1 <= d) by (unfold d; lia).
    assert (pw (e + (d - 1)) < pw 7) as Hlt.
    { rewrite pw_add by lia. nia. }
    apply pw_lt_inv in Hlt; [|lia].
    unfold fexp, emin, prec, emax, e in *. lia. }
  assert (Hpf : pw (Z.max e (fexp prec emax
                          (Zdigits2 (Zpos (mx * 7036874417766400)) + e)))
                <= pw (-46)) by (apply pw_le; lia).
  eapply fin_le_weaken.
  - apply binary_round_aux_upper; try assumption; [lia|].
    assert (pw 7 < pw 972) by (unfold pw; apply Z.pow_lt_mono_r; lia).
    lia.
  - lia.
Qed.

(** [int] of a float below 101 is at most 100. *)
Lemma trunc_below_101 y :
  fin_le y (101 * pw 0 - 1) ->
  exists z, trunc y = Some z /\ 0 <= z <= 100.
Proof.
  pose proof (pw_pos 0 ltac:(lia)) as Hp0.
  destruct y as [[|]|[|]| |[|] m e]; simpl; try tauto.
  - intros _. exists 0. split; [reflexivity|lia].
  - intros [He Hv]. eexists. split; [reflexivity|].
    pose proof (pw_pos e ltac:(lia)) as Hpe.
    destruct (Z.le_gt_cases 0 e) as [Hpos|Hneg].
    + rewrite Z.shiftl_mul_pow2 by assumption.
      assert (pw e = pw 0 * 2 ^ e) by (apply (pw_add 0 e); lia).
      assert (0 < 2 ^ e) by (apply Z.pow_pos_nonneg; lia).
      nia.
    + rewrite Z.shiftl_div_pow2 by lia.
      assert (0 < 2 ^ (- e)) by (apply Z.pow_pos_nonneg; lia).
      assert (pw 0 = pw e * 2 ^ (- e)) as E0.
      { rewrite <- pw_add by lia. f_equal. lia. }
      pose proof (Z.mul_div_le (Zpos m) (2 ^ (- e)) ltac:(lia)).
      assert (0 <= Zpos m / 2 ^ (- e)) by (apply Z.div_pos; lia).
      nia.
Qed.

Lemma is_int_finite x n :
  is_int x n -> exists m e, x = S754_finite false m e.
Proof. intros (m & e & -> & _). eauto. Qed.

End Scaled.

(** The bound on a percentage: the float is [+0] or positive, finite
    and below 101. *)
Definition percent (x : spec_float) : Prop :=
  fin_le 1200 x (101 * pw 1200 0 - 1).

Lemma percent_trunc x :
  percent x -> exists z, trunc x = Some z /\ 0 <= z <= 100.
Proof. apply trunc_below_101. lia. Qed.

(** [i / u * 100] for integers [0 <= i <= u], [0 < u < 2^53]. *)
Lemma percent_quotient i u :
  0 <= i <= u -> 0 < u < 2 ^ 53 ->
  percent (fmul (fdiv (of_int i) (of_int u)) (of_int 100)).
Proof.
  intros Hi Hu. assert (HS : 1200 <= 1200) by lia.
  destruct (Z.eq_dec i 0) as [->|Hne].
  - destruct (is_int_finite 1200 _ _ (of_int_is_int 1200 HS u Hu))
      as (m & e & ->).
    vm_compute. discriminate.
  - apply (fmul_hundred 1200 HS).
    apply (fdiv_le_one 1200 HS _ _ i u); [| |lia];
      apply (of_int_is_int 1200 HS); lia.
Qed.

(** [ratio * 100] for the ratio of [matches] out of [length]. *)
Lemma percent_ratio matches length :
  (2 * matches <= length)%nat -> Z.of_nat length < 2 ^ 53 ->
  percent (fmul (calculate_ratio matches length) (of_int 100)).
Proof.
  intros Hle Hlt. assert (HS : 1200 <= 1200) by lia.
  destruct length as [|n].
  - vm_compute. split; discriminate.
  - unfold calculate_ratio.
    destruct matches as [|k].
    + destruct (is_int_finite 1200 _ _
                  (of_int_is_int 1200 HS (Z.of_nat (S n)) ltac:(lia)))
        as (m & e & ->).
      vm_compute. discriminate.
    + apply (fmul_hundred 1200 HS).
      eapply (fdiv_le_one 1200 HS).
      * apply fmul_two_is_int; [lia| |].
        -- apply (of_int_is_int 1200 HS). lia.
        -- lia.
      * apply (of_int_is_int 1200 HS). lia.
      * lia.
Qed.

(** [int(ratio * 100)] for the ratio of [matches] out of [length]. *)
Definition score (matches length : nat) : option Z :=
  trunc (fmul (calculate_ratio matches length) (of_int 100)).

Lemma score_empty : score 0 0 = Some 100.
Proof. reflexivity. Qed.

Lemma score_no_match length :
  (0 < length)%nat -> Z.of_nat length < 2 ^ 53 -> score 0 length = Some 0.
Proof.
  intros Hpos Hlt. unfold score, calculate_ratio.
  destruct length as [|n]; [lia|].
  destruct (is_int_finite 1200 _ _
              (of_int_is_int 1200 ltac:(lia) (Z.of_nat (S n)) ltac:(lia)))
    as (m & e & ->).
  reflexivity.
Qed.

Lemma score_range matches length :
  (2 * matches <= length)%nat -> Z.of_nat length < 2 ^ 53 ->
  exists z, score matches length = Some z /\ 0 <= z <= 100.
Proof. intros Hle Hlt. apply percent_trunc, percent_ratio; assumption. Qed.

End FloatFacts.

(* ===================================================================== *)
(** * Facts about the store *)
(* ===================================================================== *)

Module StoreFacts.

(** [keeps n Q m]: whatever [m] does, the first [n] frames of the store
    are afterwards what they were, and a returned value satisfies [Q]. *)
Definition keeps {A} (n : nat) (Q : A -> Prop) (m : M A) : Prop :=
  forall w r w',
    (n <= length (store w))%nat -> m w = (r, w') ->
    take n (store w') = take n (store w)
    /\ (n <= length (store w'))%nat
    /\ forall x, r = Ok x -> Q x.

Lemma keeps_weaken {A} n (Q Q' : A -> Prop) m :
  keeps n Q m -> (forall x, Q x -> Q' x) -> keeps n Q' m.
Proof.
  intros H HQ w r w' Hn E. destruct (H w r w' Hn E) as (? & ? & HQx).
  repeat split; auto.
Qed.

Lemma keeps_ret {A} n (Q : A -> Prop) x : Q x -> keeps n Q (ret x).
Proof.
  intros HQ w r w' Hn E. unfold ret in E. injection E as <- <-.
  repeat split; auto. intros y Hy. injection Hy as <-. exact HQ.
Qed.

Lemma keeps_raise {A} n (Q : A -> Prop) e : keeps n Q (raise e).
Proof.
  intros w r w' Hn E. unfold raise in E. injection E as <- <-.
  repeat split; auto. discriminate.
Qed.

Lemma keeps_lift {A} n (r : result A) : keeps n (fun _ => True) (lift r).
Proof.
  intros w r0 w' Hn E. unfold lift in E. injection E as <- <-.
  repeat split; auto.
Qed.

Lemma keeps_emit n ev : keeps n (fun _ => True) (emit ev).
Proof.
  intros w r w' Hn E. unfold emit in E. injection E as <- <-.
  repeat split; auto.
Qed.

Lemma keeps_deref n l : keeps n (fun _ => True) (deref l).
Proof.
  intros w r w' Hn E. unfold deref in E.
  destruct (store w !! l); injection E as <- <-; repeat split; auto.
Qed.

Lemma keeps_alloc n fr : keeps n (fun l => (n <= l)%nat) (alloc fr).
Proof.
  intros w r w' Hn E. unfold alloc in E. injection E as <- <-. simpl.
  rewrite take_app_le, length_app by assumption.
  repeat split; [lia|]. intros x Hx. injection Hx as <-. assumption.
Qed.

Lemma keeps_update n (l : loc) f :
  (n <= l)%nat -> keeps n (fun _ => True) (update l f).
Proof.
  intros Hl w r w' Hn E. unfold update in E.
  destruct (store w !! l) as [fr|]; [destruct (f fr)|];
    injection E as <- <-; simpl; repeat split; auto.
  - apply take_insert_ge. assumption.
  - rewrite length_insert. assumption.
Qed.

Lemma keeps_bind {A B} n (Q : A -> Prop) (R : B -> Prop) m k :
  keeps n Q m -> (forall x, Q x -> keeps n R (k x)) -> keeps n R (bind m k).
Proof.
  intros Hm Hk w r w' Hn E. unfold bind in E.
  destruct (m w) as [[x|e] w1] eqn:Em.
  - destruct (Hm w _ _ Hn Em) as (T1 & L1 & Q1).
    destruct (Hk x (Q1 x eq_refl) w1 r w' L1 E) as (T2 & L2 & Q2).
    repeat split; [congruence|assumption|assumption].
  - injection E as <- <-.
    destruct (Hm w _ _ Hn Em) as (T1 & L1 & _).
    repeat split; [assumption|assumption|discriminate].
Qed.

Lemma keeps_copy n l : keeps n (fun l' => (n <= l')%nat) (copy l).
Proof.
  unfold copy. eapply keeps_bind; [apply keeps_deref|].
  intros fr _. apply keeps_alloc.
Qed.

Lemma keeps_self_df n self : keeps n (fun _ => True) (self_df self).
Proof.
  unfold self_df. destruct (df self) as [l|]; [|apply keeps_raise].
  eapply keeps_bind; [apply keeps_deref|].
  intros fr _. apply keeps_ret. exact I.
Qed.

Lemma keeps_exact_search n self keyword column :
  keeps n (fun _ => True) (exact_search self keyword column).
Proof.
  unfold exact_search.
  eapply keeps_bind; [apply keeps_self_df|]. intros d _.
  eapply keeps_bind; [apply keeps_lift|]. intros ser _.
  eapply keeps_bind; [apply keeps_alloc|]. intros sel _.
  eapply keeps_weaken; [apply keeps_copy|]. auto.
Qed.

Lemma keeps_partial_search re_compile n self keyword column :
  keeps n (fun _ => True) (partial_search re_compile self keyword column).
Proof.
  unfold partial_search.
  eapply keeps_bind; [apply keeps_self_df|]. intros d _.
  eapply keeps_bind; [apply keeps_lift|]. intros ser _.
  eapply keeps_bind; [apply keeps_lift|]. intros mask _.
  eapply keeps_bind; [apply keeps_alloc|]. intros sel _.
  eapply keeps_weaken; [apply keeps_copy|]. auto.
Qed.

Lemma keeps_sort_values argsort_desc n l column :
  keeps n (fun _ => True) (sort_values argsort_desc l column).
Proof.
  unfold sort_values.
  eapply keeps_bind; [apply keeps_deref|]. intros fr _.
  eapply keeps_bind; [apply keeps_lift|]. intros ser _.
  destruct (mapM Pandas.int_key ser); [|apply keeps_raise].
  eapply keeps_weaken; [apply keeps_alloc|]. auto.
Qed.

(** The one in-place update of [fuzzy_search] hits the copy it has just
    made, never a frame that was there before. *)
Lemma keeps_fuzzy_search argsort_desc n self keyword column threshold :
  keeps n (fun _ => True)
    (fuzzy_search argsort_desc self keyword column threshold).
Proof.
  unfold fuzzy_search.
  eapply keeps_bind; [apply keeps_self_df|]. intros d _.
  eapply keeps_bind; [apply keeps_lift|]. intros found _.
  destruct found.2.
  - eapply keeps_weaken; [apply keeps_alloc|]. auto.
  - eapply keeps_bind; [apply keeps_alloc|]. intros sel _.
    eapply keeps_bind; [apply keeps_copy|]. intros results Hres.
    eapply keeps_bind; [apply keeps_update; exact Hres|]. intros _ _.
    apply keeps_sort_values.
Qed.

Lemma keeps_result_count n self : keeps n (fun _ => True) (result_count self).
Proof.
  unfold result_count. destruct (search_results self) as [l|].
  - eapply keeps_bind; [apply keeps_deref|]. intros fr _.
    apply keeps_ret. exact I.
  - apply keeps_ret. exact I.
Qed.

Lemma keeps_search_body re_compile argsort_desc n self :
  keeps n (fun self' => df self' = df self)
    (search_body re_compile argsort_desc self).
Proof.
  unfold search_body.
  eapply keeps_bind; [apply keeps_emit|]. intros _ _.
  eapply keeps_bind with (Q := fun self' => df self' = df self).
  - cbn [search_mode set_status search_column search_keyword
         similarity_threshold].
    destruct (String.eqb (search_mode self) "exact").
    { eapply keeps_bind; [apply keeps_exact_search|]. intros r _.
      apply keeps_ret. reflexivity. }
    destruct (String.eqb (search_mode self) "partial").
    { eapply keeps_bind; [apply keeps_partial_search|]. intros r _.
      apply keeps_ret. reflexivity. }
    destruct (String.eqb (search_mode self) "fuzzy").
    { eapply keeps_bind; [apply keeps_fuzzy_search|]. intros r _.
      apply keeps_ret. reflexivity. }
    apply keeps_ret. reflexivity.
  - intros self1 Hdf.
    eapply keeps_bind; [apply keeps_emit|]. intros _ _.
    eapply keeps_bind; [apply keeps_emit|]. intros _ _.
    eapply keeps_bind; [apply keeps_result_count|]. intros cnt _.
    apply keeps_ret. exact Hdf.
Qed.

(** What [keeps] at the size of the store means for a frame in it. *)
Lemma keeps_lookup (w w' : world) l fr :
  take (length (store w)) (store w') = take (length (store w)) (store w) ->
  store w !! l = Some fr -> store w' !! l = Some fr.
Proof.
  intros Ht Hl. rewrite firstn_all in Ht.
  pose proof (lookup_lt_Some _ _ _ Hl) as Hlt.
  rewrite <- (lookup_take_lt (store w') (length (store w)) l) by assumption.
  rewrite Ht. exact Hl.
Qed.

End StoreFacts.

(* ===================================================================== *)
(** * Facts about strings and frames *)
(* ===================================================================== *)

Module SearchFacts.
Import Spec.

Lemma length_list_ascii s :
  length (list_ascii_of_string s) = String.length s.
Proof. induction s as [|c s IH]; simpl; congruence. Qed.

Lemma lower_length s : String.length (PyStr.lower s) = String.length s.
Proof. induction s as [|c s IH]; simpl; congruence. Qed.

Lemma lower_empty s : PyStr.lower s = EmptyString <-> s = EmptyString.
Proof. destruct s; simpl; split; congruence. Qed.

Lemma length_zero_empty s : String.length s = O <-> s = EmptyString.
Proof. destruct s; simpl; split; congruence. Qed.

Lemma normalize_length self s :
  String.length (normalize self s) = String.length s.
Proof. unfold normalize. destruct (ignore_case self); [apply lower_length|reflexivity]. Qed.

Lemma select_map (g : row -> bool) rs :
  Pandas.select (map g rs) rs = filter (fun r => g r = true) rs.
Proof.
  induction rs as [|r rs IH]; [reflexivity|].
  simpl. rewrite filter_cons. destruct (g r) eqn:E.
  - rewrite decide_True by reflexivity. f_equal. exact IH.
  - rewrite decide_False by discriminate. exact IH.
Qed.

Lemma lookup_new {A} (l : list A) x k : (l ++ x :: k) !! length l = Some x.
Proof. apply list_lookup_middle. reflexivity. Qed.

(** The mask of [exact_search] is [exact_match], cell by cell. *)
Lemma exact_mask self keyword p rs :
  (if ignore_case self
   then Series.eq_str
          (Series.str_lower (Series.astype_str (map (Pandas.cell_at p) rs)))
          (PyStr.lower keyword)
   else Series.eq_str (Series.astype_str (map (Pandas.cell_at p) rs))
          keyword)
  = map (fun r => exact_match self keyword (Pandas.cell_at p r)) rs.
Proof.
  unfold exact_match, normalize, Series.eq_str, Series.str_lower,
    Series.astype_str.
  destruct (ignore_case self); rewrite !map_map; reflexivity.
Qed.

(** What [exact_search] returns and leaves in the store. *)
Lemma exact_search_result self keyword column w (l : loc) fr p :
  df self = Some l -> store w !! l = Some fr ->
  Pandas.col_pos column (columns fr) = Some p ->
  let res := Frame (columns fr)
               (hits (exact_match self keyword) p (rows fr)) in
  exact_search self keyword column w
  = (Ok (S (length (store w))),
     World (store w ++ [res; res]) (shown w)).
Proof.
  intros Hdf Hl Hp res.
  unfold exact_search, self_df, copy, bind, deref, lift, ret, alloc.
  rewrite Hdf. cbn [store shown]. rewrite Hl. cbn [fst snd].
  unfold Pandas.getitem. rewrite Hp.
  rewrite exact_mask. cbn [store shown].
  rewrite lookup_new. unfold Pandas.getitem_mask.
  rewrite select_map. cbn [store shown].
  rewrite length_app, <- app_assoc. simpl.
  repeat f_equal; lia.
Qed.

Section Partial.
Variable re_compile : string -> option (string -> bool).
Hypothesis re_agrees : Re.agrees re_compile.

(** The mask of [partial_search] is [partial_match], cell by cell, as
    long as the keyword is a plain pattern. *)
Lemma partial_mask self keyword p rs :
  Re.plain (normalize self keyword) = true ->
  (if ignore_case self
   then str_contains re_compile
          (Series.str_lower
             (Series.astype_str (map (Pandas.cell_at p) rs)))
          (PyStr.lower keyword) false
   else str_contains re_compile
          (Series.astype_str (map (Pandas.cell_at p) rs)) keyword false)
  = Ok (map (fun r => partial_match self keyword (Pandas.cell_at p r)) rs).
Proof.
  unfold partial_match, normalize, str_contains, Series.str_lower,
    Series.astype_str.
  destruct (ignore_case self); intros Hplain;
    destruct (re_agrees _ Hplain) as (search & -> & Hs);
    rewrite !map_map; f_equal; apply map_ext; intros r; apply Hs.
Qed.

Lemma partial_search_result self keyword column w (l : loc) fr p :
  df self = Some l -> store w !! l = Some fr ->
  Pandas.col_pos column (columns fr) = Some p ->
  Re.plain (normalize self keyword) = true ->
  let res := Frame (columns fr)
               (hits (partial_match self keyword) p (rows fr)) in
  partial_search re_compile self keyword column w
  = (Ok (S (length (store w))),
     World (store w ++ [res; res]) (shown w)).
Proof.
  intros Hdf Hl Hp Hplain res.
  unfold partial_search, self_df, copy, bind, deref, lift, ret, alloc.
  rewrite Hdf. cbn [store shown]. rewrite Hl. cbn [fst snd].
  unfold Pandas.getitem. rewrite Hp.
  rewrite partial_mask by assumption. cbn [store shown].
  rewrite lookup_new. unfold Pandas.getitem_mask.
  rewrite select_map. cbn [store shown].
  rewrite length_app, <- app_assoc. simpl.
  repeat f_equal; lia.
Qed.
End Partial.

Lemma compile_plain_agrees : Re.agrees Re.compile_plain.
Proof.
  intros pat Hp. unfold Re.compile_plain. rewrite Hp.
  eexists. split; reflexivity.
Qed.

End SearchFacts.

(* ===================================================================== *)
(** * Facts about the two scorers *)
(* ===================================================================== *)

Module SimilarityFacts.
Import Spec SearchFacts.

(** The number of matched characters and the total length behind the
    score of [keyword] against [text]. *)
Definition matched (a b : string) : nat :=
  Difflib.matches (list_ascii_of_string a) (list_ascii_of_string b).

Lemma matched_le a b :
  (matched a b <= Nat.min (String.length a) (String.length b))%nat.
Proof.
  unfold matched. rewrite <- !length_list_ascii.
  apply DifflibFacts.matches_le_min.
Qed.

Lemma ratio_eq a b :
  SequenceMatcher.ratio a b
  = PyNum.calculate_ratio (matched a b) (String.length a + String.length b).
Proof. unfold SequenceMatcher.ratio, matched. rewrite !length_list_ascii. reflexivity. Qed.

(** [calculate_similarity] on a cell that is not empty. *)
Lemma calculate_similarity_eq self keyword c :
  isna c = false ->
  calculate_similarity self keyword c
  = match FloatFacts.score
            (matched (normalize self keyword) (normalize self (py_str c)))
            (String.length keyword + String.length (py_str c)) with
    | Some z => Ok z
    | None => Raise OverflowError
    end.
Proof.
  intros Hna. unfold calculate_similarity, FloatFacts.score. rewrite Hna.
  rewrite <- (normalize_length self keyword),
          <- (normalize_length self (py_str c)).
  unfold normalize.
  destruct (ignore_case self); rewrite ratio_eq; reflexivity.
Qed.

Lemma calculate_similarity_nan self keyword :
  calculate_similarity self keyword CNaN = Ok 0.
Proof. reflexivity. Qed.

(** The scorer never raises, and its score is a percentage. *)
Lemma calculate_similarity_range self keyword c :
  Z.of_nat (String.length keyword + String.length (py_str c)) < 2 ^ 53 ->
  exists z, calculate_similarity self keyword c = Ok z /\ 0 <= z <= 100.
Proof.
  intros Hlen. destruct (isna c) eqn:Hna.
  - destruct c; try discriminate. exists 0. split; [reflexivity|lia].
  - rewrite calculate_similarity_eq by assumption.
    pose proof (matched_le (normalize self keyword)
                  (normalize self (py_str c))) as Hm.
    rewrite !normalize_length in Hm.
    destruct (FloatFacts.score_range
                (matched (normalize self keyword)
                   (normalize self (py_str c)))
                (String.length keyword + String.length (py_str c)))
      as (z & -> & Hz); [lia|assumption|].
    exists z. split; [reflexivity|assumption].
Qed.

Lemma similarity_spec self keyword c :
  Z.of_nat (String.length keyword + String.length (py_str c)) < 2 ^ 53 ->
  calculate_similarity self keyword c = Ok (similarity self keyword c)
  /\ 0 <= similarity self keyword c <= 100.
Proof.
  intros Hlen. unfold similarity.
  destruct (calculate_similarity_range self keyword c Hlen)
    as (z & -> & Hz).
  split; [reflexivity|assumption].
Qed.


(** With one string empty nothing can match. *)
Lemma calculate_similarity_one_empty self a b :
  (a = EmptyString \/ b = EmptyString) ->
  (a <> EmptyString \/ b <> EmptyString) ->
  Z.of_nat (String.length a + String.length b) < 2 ^ 53 ->
  calculate_similarity self a (CStr b) = Ok 0.
Proof.
  intros Hone Hnot Hlen.
  rewrite calculate_similarity_eq by reflexivity. cbn [py_str].
  pose proof (matched_le (normalize self a) (normalize self b)) as Hm.
  rewrite !normalize_length in Hm.
  assert (Hz : matched (normalize self a) (normalize self b) = O).
  { destruct Hone as [-> | ->]; simpl in Hm; lia. }
  rewrite Hz, FloatFacts.score_no_match; [reflexivity| |assumption].
  destruct a, b; simpl; try lia. destruct Hnot; congruence.
Qed.

Lemma calculate_similarity_both_empty self :
  calculate_similarity self EmptyString (CStr EmptyString) = Ok 100.
Proof. unfold calculate_similarity. simpl. destruct (ignore_case self); reflexivity. Qed.

(** ** Tokens *)

Lemma split_aux_length s : forall cur,
  (length (PyStr.split_aux cur s)
   <= String.length s + match cur with [] => 0 | _ => 1 end)%nat.
Proof.
  induction s as [|c s IH]; intros cur; simpl.
  - destruct cur; simpl; lia.
  - destruct (PyStr.is_space c).
    + rewrite length_app. specialize (IH []). simpl in IH.
      destruct cur; simpl; lia.
    + specialize (IH (c :: cur)). simpl in IH. lia.
Qed.

Lemma size_list_to_set_le (l : list string) :
  (size (list_to_set l : gset string) <= length l)%nat.
Proof.
  induction l as [|x l IH].
  - rewrite list_to_set_nil, size_empty. simpl. lia.
  - rewrite list_to_set_cons, size_union_alt, size_singleton. simpl.
    assert (Hsub : (size (list_to_set l ∖ {[x]} : gset string)
                    <= size (list_to_set l : gset string))%nat)
      by (apply subseteq_size, subseteq_difference_l; reflexivity).
    lia.
Qed.

Lemma token_set_size s : (size (token_set s) <= String.length s)%nat.
Proof.
  unfold token_set, PyStr.split.
  pose proof (size_list_to_set_le (PyStr.split_aux [] s)).
  pose proof (split_aux_length s []). simpl in *. lia.
Qed.

(** The Jaccard index as a percentage. *)
Lemma word_percent_cases keyword text :
  Z.of_nat (String.length keyword + String.length text) < 2 ^ 53 ->
  word_percent keyword text = PyNum.PInt 0
  \/ exists f, word_percent keyword text = PyNum.PFloat f
               /\ FloatFacts.percent f.
Proof.
  intros Hlen. unfold word_percent, jaccard.
  destruct (bool_decide (token_set keyword = ∅)) eqn:Ek; simpl;
    [left; reflexivity|].
  destruct (bool_decide (token_set text = ∅)) eqn:Et; simpl;
    [left; reflexivity|].
  right. eexists. split; [reflexivity|].
  apply bool_decide_eq_false in Ek.
  pose proof (token_set_size keyword). pose proof (token_set_size text).
  assert (Hiu : (size (token_set keyword ∩ token_set text)
                 <= size (token_set keyword ∪ token_set text))%nat)
    by (apply subseteq_size; etrans;
        [apply intersection_subseteq_l|apply union_subseteq_l]).
  assert (Hu : (size (token_set keyword ∪ token_set text)
                <= size (token_set keyword) + size (token_set text))%nat).
  { rewrite size_union_alt.
    assert (Hd : (size (token_set text ∖ token_set keyword)
                  <= size (token_set text))%nat)
      by (apply subseteq_size, subseteq_difference_l; reflexivity).
    lia. }
  assert (Hku : (size (token_set keyword)
                 <= size (token_set keyword ∪ token_set text))%nat)
    by (apply subseteq_size, union_subseteq_l).
  assert (Hk0 : size (token_set keyword) <> 0%nat).
  { intros Hz. apply size_empty_iff in Hz. apply Ek.
    apply leibniz_equiv. exact Hz. }
  apply FloatFacts.percent_quotient; lia.
Qed.

Lemma seq_percent_fin keyword text :
  Z.of_nat (String.length keyword + String.length text) < 2 ^ 53 ->
  exists f, seq_percent keyword text = PyNum.PFloat f
            /\ FloatFacts.percent f.
Proof.
  intros Hlen. unfold seq_percent. eexists. split; [reflexivity|].
  rewrite ratio_eq. pose proof (matched_le keyword text).
  apply FloatFacts.percent_ratio; [lia|assumption].
Qed.

(** [int(max(x, y))] of two percentages is a percentage. *)
Lemma max_percent keyword text :
  Z.of_nat (String.length keyword + String.length text) < 2 ^ 53 ->
  exists z,
    PyNum.to_int (PyNum.max (seq_percent keyword text)
                    (word_percent keyword text)) = Some z
    /\ 0 <= z <= 100.
Proof.
  intros Hlen.
  destruct (seq_percent_fin keyword text Hlen) as (fx & -> & Hx).
  destruct (word_percent_cases keyword text Hlen) as [-> | (fy & -> & Hy)];
    unfold PyNum.max.
  - destruct (PyNum.gt _ _); cbn [PyNum.to_int].
    + exists 0. split; [reflexivity|lia].
    + apply FloatFacts.percent_trunc. exact Hx.
  - destruct (PyNum.gt _ _); cbn [PyNum.to_int];
      apply FloatFacts.percent_trunc; assumption.
Qed.

End SimilarityFacts.

(* ===================================================================== *)
(** * Facts about sorting and about [fuzzy_search] *)
(* ===================================================================== *)

Module ArgsortFacts.
Import Argsort.

Section InsertBy.
Variable before : Z -> Z -> bool.
Variable keys : list Z.
Hypothesis before_true : forall x y, before x y = true -> y <= x.
Hypothesis before_false : forall x y, before x y = false -> x <= y.

Let R (i j : nat) : Prop := key keys j <= key keys i.

Lemma insert_by_perm i l : insert_by before keys i l ≡ₚ i :: l.
Proof.
  induction l as [|j l IH]; simpl; [reflexivity|].
  destruct (before (key keys i) (key keys j)); [reflexivity|].
  rewrite IH. apply Permutation_swap.
Qed.

Lemma insert_by_sorted i l :
  StronglySorted R l -> StronglySorted R (insert_by before keys i l).
Proof.
  induction l as [|j l IH]; intros Hs; simpl.
  - repeat constructor.
  - inversion Hs as [|? ? Hl Hj]; subst.
    destruct (before (key keys i) (key keys j)) eqn:E.
    + constructor; [assumption|].
      apply before_true in E.
      constructor; [exact E|].
      eapply Forall_impl; [exact Hj|].
      intros x Hx. unfold R in *. lia.
    + constructor; [apply IH; assumption|].
      rewrite insert_by_perm.
      apply before_false in E.
      constructor; [exact E|assumption].
Qed.

Lemma insert_all_sorted l : forall acc,
  StronglySorted R acc ->
  StronglySorted R
    (fold_left (fun acc i => insert_by before keys i acc) l acc)
  /\ fold_left (fun acc i => insert_by before keys i acc) l acc
     ≡ₚ l ++ acc.
Proof.
  induction l as [|i l IH]; intros acc Hs; simpl.
  - split; [assumption|reflexivity].
  - destruct (IH (insert_by before keys i acc)
                (insert_by_sorted i acc Hs)) as [H1 H2].
    split; [assumption|].
    rewrite H2, insert_by_perm. symmetry. apply Permutation_middle.
Qed.
End InsertBy.

Lemma argsort_by_sorts before :
  (forall x y, before x y = true -> y <= x) ->
  (forall x y, before x y = false -> x <= y) ->
  sorts_descending (argsort_by before).
Proof.
  intros Ht Hf keys. unfold argsort_by.
  destruct (insert_all_sorted before keys Ht Hf (seq 0 (length keys)) [])
    as [H1 H2]; [constructor|].
  split; [|exact H1]. rewrite H2, app_nil_r. reflexivity.
Qed.

Lemma stable_desc_sorts : sorts_descending stable_desc.
Proof. apply argsort_by_sorts; intros x y H; lia. Qed.

(** The keys read along a descending indexer do not increase. *)
Lemma keys_along_sorted keys idx :
  StronglySorted (fun i j => key keys j <= key keys i) idx ->
  StronglySorted (fun x y => y <= x) (omap (fun i => keys !! i) idx).
Proof.
  induction idx as [|i idx IH]; intros Hs; [constructor|].
  inversion Hs as [|? ? Hl Hi]; subst.
  cbn [omap list_omap]. 
  destruct (keys !! i) as [x|] eqn:Ex; [|apply IH; assumption].
  constructor; [apply IH; assumption|].
  apply Forall_forall. intros y Hy.
  apply list_elem_of_omap in Hy as (j & Hj & Ey).
  rewrite Forall_forall in Hi. specialize (Hi j Hj).
  unfold key in Hi. rewrite Ex, Ey in Hi. exact Hi.
Qed.

End ArgsortFacts.


(* ===================================================================== *)
(** * Facts about the quicksort *)
(* ===================================================================== *)

Module QuicksortFacts.
Import Quicksort.
Local Open Scope nat_scope.

Section Keys.
Variable v : list Z.

Abbreviation K := (key_at v).

Lemma deref_lookup (a : list nat) p :
  p < length a -> a !! p = Some (deref a p).
Proof.
  intros H. unfold deref.
  destruct (lookup_lt_is_Some_2 a p H) as [x ->]. reflexivity.
Qed.

Lemma deref_insert (a : list nat) i x p :
  i < length a ->
  deref (<[i := x]> a) p = if decide (p = i) then x else deref a p.
Proof.
  intros H. unfold deref. destruct (decide (p = i)) as [->|Hne].
  - rewrite list_lookup_insert_eq by assumption. reflexivity.
  - rewrite list_lookup_insert_ne by congruence. reflexivity.
Qed.

Lemma key_at_insert (a : list nat) i x p :
  i < length a ->
  K (<[i := x]> a) p = if decide (p = i) then vkey v x else K a p.
Proof.
  intros H. unfold key_at. rewrite deref_insert by assumption.
  destruct (decide (p = i)); reflexivity.
Qed.

Lemma insert_deref (a : list nat) p : <[p := deref a p]> a = a.
Proof.
  destruct (decide (p < length a)) as [H|H].
  - apply list_insert_id, deref_lookup, H.
  - apply list_insert_ge. lia.
Qed.

Lemma length_swap (a : list nat) p q : length (swap a p q) = length a.
Proof. unfold swap. rewrite !length_insert. reflexivity. Qed.

Lemma deref_swap (a : list nat) p q x :
  p < length a -> q < length a ->
  deref (swap a p q) x
  = if decide (x = q) then deref a p
    else if decide (x = p) then deref a q else deref a x.
Proof.
  intros Hp Hq. unfold swap.
  rewrite deref_insert by (rewrite length_insert; assumption).
  destruct (decide (x = q)); [reflexivity|].
  rewrite deref_insert by assumption. reflexivity.
Qed.

Lemma key_at_swap (a : list nat) p q x :
  p < length a -> q < length a ->
  K (swap a p q) x
  = if decide (x = q) then K a p
    else if decide (x = p) then K a q else K a x.
Proof.
  intros Hp Hq. unfold key_at. rewrite deref_swap by assumption.
  destruct (decide (x = q)); [reflexivity|].
  destruct (decide (x = p)); reflexivity.
Qed.

(** The transposition of two positions. *)
Definition transpose (p q x : nat) : nat :=
  if decide (x = q) then p else if decide (x = p) then q else x.

Lemma transpose_inj p q : Inj (=) (=) (transpose p q).
Proof.
  intros x y. unfold transpose.
  repeat destruct (decide _); intros; congruence.
Qed.

Lemma swap_perm (a : list nat) p q :
  p < length a -> q < length a -> swap a p q ≡ₚ a.
Proof.
  intros Hp Hq. apply Permutation_inj. split; [apply length_swap|].
  exists (transpose p q). split; [apply transpose_inj|].
  intros x. unfold swap, transpose.
  destruct (decide (x = q)) as [->|Hq'].
  - rewrite list_lookup_insert_eq by (rewrite length_insert; assumption).
    symmetry. apply deref_lookup. assumption.
  - rewrite list_lookup_insert_ne by congruence.
    destruct (decide (x = p)) as [->|Hp'].
    + rewrite list_lookup_insert_eq by assumption.
      symmetry. apply deref_lookup. assumption.
    + rewrite list_lookup_insert_ne by congruence. reflexivity.
Qed.

(** [a'] comes from [a] by moving elements inside [lo .. hi] only. *)
Definition within (lo hi : nat) (a a' : list nat) : Prop :=
  length a' = length a /\ a' ≡ₚ a
  /\ (forall x, x < lo \/ hi < x -> deref a' x = deref a x)
  /\ (forall x, lo <= x <= hi ->
        exists y, lo <= y <= hi /\ deref a' x = deref a y).

Lemma within_refl lo hi a : within lo hi a a.
Proof.
  split; [reflexivity|]. split; [reflexivity|].
  split; [reflexivity|]. intros x Hx. exists x. split; [exact Hx|reflexivity].
Qed.

Lemma within_trans lo hi a b c :
  within lo hi a b -> within lo hi b c -> within lo hi a c.
Proof.
  intros (L1 & P1 & O1 & I1) (L2 & P2 & O2 & I2).
  split; [congruence|]. split; [etransitivity; eassumption|]. split.
  - intros x Hx. rewrite O2, O1 by assumption. reflexivity.
  - intros x Hx. destruct (I2 x Hx) as (y & Hy & E).
    destruct (I1 y Hy) as (z & Hz & E').
    exists z. split; [exact Hz|congruence].
Qed.

Lemma within_wider lo hi lo' hi' a b :
  lo' <= lo -> hi <= hi' -> within lo hi a b -> within lo' hi' a b.
Proof.
  intros Hlo Hhi (L & P & O & I).
  split; [exact L|]. split; [exact P|]. split.
  - intros x Hx. apply O. lia.
  - intros x Hx.
    destruct (decide (lo <= x <= hi)) as [Hin|Hout].
    + destruct (I x Hin) as (y & Hy & E). exists y. split; [lia|exact E].
    + exists x. split; [exact Hx|]. apply O. lia.
Qed.

Lemma within_swap lo hi a p q :
  lo <= p <= hi -> lo <= q <= hi -> p < length a -> q < length a ->
  within lo hi a (swap a p q).
Proof.
  intros Hp Hq Lp Lq.
  split; [apply length_swap|]. split; [apply swap_perm; assumption|]. split.
  - intros x Hx. rewrite deref_swap by assumption.
    rewrite !decide_False by lia. reflexivity.
  - intros x Hx. rewrite deref_swap by assumption.
    destruct (decide (x = q)); [exists p; split; [lia|reflexivity]|].
    destruct (decide (x = p)); [exists q; split; [lia|reflexivity]|].
    exists x. split; [lia|reflexivity].
Qed.

Lemma within_key lo hi a a' x :
  within lo hi a a' -> lo <= x <= hi ->
  exists y, lo <= y <= hi /\ K a' x = K a y.
Proof.
  intros (_ & _ & _ & I) Hx. destruct (I x Hx) as (y & Hy & E).
  exists y. split; [exact Hy|]. unfold key_at. rewrite E. reflexivity.
Qed.

Lemma within_key_out lo hi a a' x :
  within lo hi a a' -> x < lo \/ hi < x -> K a' x = K a x.
Proof.
  intros (_ & _ & O & _) Hx. unfold key_at. rewrite O by assumption.
  reflexivity.
Qed.

(** The keys do not decrease from position [lo] to position [hi]. *)
Definition sorted_on (a : list nat) (lo hi : nat) : Prop :=
  forall x y, lo <= x -> x <= y -> y <= hi -> (K a x <= K a y)%Z.

(** ** The insertion sort *)

Lemma insert_insert_same (a : list nat) i x y :
  <[i := x]> (<[i := y]> a) = <[i := x]> a.
Proof. apply list_insert_insert_eq. Qed.

Lemma shift_spec vi pl pi : forall pj (a : list nat),
  pl <= pj <= pi -> pi < length a ->
  let V := <[pj := vi]> a in
  (forall x y, pl <= x -> x <= y -> y < pj -> (K V x <= K V y)%Z) ->
  (forall x, pj < x <= pi -> (vkey v vi < K V x)%Z) ->
  sorted_on V (pj + 1) pi ->
  (forall x y, pl <= x < pj -> pj < y <= pi -> (K V x <= K V y)%Z) ->
  sorted_on (shift v a vi pl pj) pl pi
  /\ within pl pi V (shift v a vi pl pj).
Proof.
  induction pj as [|pk IH]; intros a Hpj Hpi V Hlow Hgt Hup Hmix.
  - cbn [shift]. fold V. split; [|apply within_refl].
    assert (E0 : K V 0 = vkey v vi).
    { unfold V. rewrite key_at_insert by lia. rewrite decide_True by lia.
      reflexivity. }
    intros x y Hx Hxy Hy.
    destruct (decide (x = 0)) as [->|Hx0].
    + destruct (decide (y = 0)) as [->|Hy0]; [lia|].
      rewrite E0. specialize (Hgt y ltac:(lia)). lia.
    + apply Hup; lia.
  - cbn [shift].
    assert (EV : forall x, K V x
                 = if decide (x = S pk) then vkey v vi else K a x).
    { intros x. unfold V. apply key_at_insert. lia. }
    destruct (Nat.ltb_spec pl (S pk)) as [Hlt|Hge]; cbn [andb].
    + destruct (Z.ltb_spec (vkey v vi) (K a pk)) as [Hless|Hnot].
      * set (a1 := <[S pk := deref a pk]> a).
        assert (L1 : length a1 = length a) by (unfold a1; apply length_insert).
        assert (E1 : <[pk := vi]> a1 = swap V (S pk) pk).
        { unfold swap, V, a1.
          rewrite !deref_insert by (rewrite ?length_insert; lia).
          rewrite decide_True by reflexivity.
          rewrite decide_False by lia.
          rewrite insert_insert_same. reflexivity. }
        assert (LV : length V = length a) by (unfold V; apply length_insert).
        assert (W1 : within pl pi V (<[pk := vi]> a1)).
        { rewrite E1. apply within_swap; lia. }
        assert (EV1 : forall x, K (<[pk := vi]> a1) x
                      = if decide (x = pk) then vkey v vi
                        else if decide (x = S pk) then K a pk else K a x).
        { intros x. rewrite key_at_insert by lia.
          destruct (decide (x = pk)); [reflexivity|].
          unfold a1. rewrite key_at_insert by lia.
          destruct (decide (x = S pk)); reflexivity. }
        destruct (IH a1) as [Hs Hw]; try lia.
        -- intros x y Hx Hxy Hy. rewrite !EV1.
           rewrite !decide_False by lia.
           specialize (Hlow x y Hx Hxy ltac:(lia)).
           rewrite !EV in Hlow. rewrite !decide_False in Hlow by lia.
           exact Hlow.
        -- intros x Hx. rewrite EV1. rewrite decide_False by lia.
           destruct (decide (x = S pk)); [exact Hless|].
           specialize (Hgt x ltac:(lia)). rewrite EV in Hgt.
           rewrite decide_False in Hgt by lia. exact Hgt.
        -- intros x y Hx Hxy Hy. rewrite !EV1.
           rewrite !(decide_False (P := _ = pk)) by lia.
           destruct (decide (x = S pk)) as [->|Hxn].
           ++ destruct (decide (y = S pk)); [lia|].
              specialize (Hmix pk y ltac:(lia) ltac:(lia)).
              rewrite !EV in Hmix.
              rewrite !decide_False in Hmix by lia. exact Hmix.
           ++ rewrite decide_False by lia.
              specialize (Hup x y ltac:(lia) Hxy Hy).
              rewrite !EV in Hup. rewrite !decide_False in Hup by lia.
              exact Hup.
        -- intros x y Hx Hy. rewrite !EV1.
           rewrite !(decide_False (P := _ = pk)) by lia.
           rewrite (decide_False (P := x = S pk)) by lia.
           destruct (decide (y = S pk)) as [->|Hyn].
           ++ specialize (Hlow x pk ltac:(lia) ltac:(lia) ltac:(lia)).
              rewrite !EV in Hlow. rewrite !decide_False in Hlow by lia.
              exact Hlow.
           ++ specialize (Hmix x y ltac:(lia) ltac:(lia)).
              rewrite !EV in Hmix. rewrite !decide_False in Hmix by lia.
              exact Hmix.
        -- split; [exact Hs|]. eapply within_trans; eassumption.
      * fold V. split; [|apply within_refl].
        intros x y Hx Hxy Hy.
        destruct (decide (y < S pk)); [apply Hlow; lia|].
        destruct (decide (S pk < x)); [apply Hup; lia|].
        destruct (decide (x = S pk)) as [->|Hxn].
        -- destruct (decide (y = S pk)) as [->|Hyn]; [lia|].
           rewrite (EV (S pk)), decide_True by reflexivity.
           specialize (Hgt y ltac:(lia)). lia.
        -- destruct (decide (y = S pk)) as [->|Hyn].
           ++ specialize (Hlow x pk ltac:(lia) ltac:(lia) ltac:(lia)).
              rewrite (EV (S pk)), decide_True by reflexivity.
              rewrite (EV pk), decide_False in Hlow by lia.
              rewrite (EV x), decide_False in Hlow |- * by lia.
              lia.
           ++ apply Hmix; lia.
    + fold V. split; [|apply within_refl].
      assert (pl = S pk) by lia. subst pl.
      intros x y Hx Hxy Hy.
      destruct (decide (x = S pk)) as [->|Hxn]; [|apply Hup; lia].
      destruct (decide (y = S pk)) as [->|Hyn]; [lia|].
      rewrite (EV (S pk)), decide_True by reflexivity.
      specialize (Hgt y ltac:(lia)). lia.
Qed.

Lemma insertion_steps pl n : forall (a0 a : list nat) pi,
  pl < pi -> pi + n <= length a ->
  within pl (pi + n - 1) a0 a -> sorted_on a pl (pi - 1) ->
  let a' := fold_left (fun a pi => shift v a (deref a pi) pl pi)
              (seq pi n) a in
  within pl (pi + n - 1) a0 a' /\ sorted_on a' pl (pi + n - 1).
Proof.
  induction n as [|n IH]; intros a0 a pi Hpi Hlen Hw Hs; cbn [seq fold_left].
  - split; [exact Hw|]. replace (pi + 0 - 1) with (pi - 1) by lia. exact Hs.
  - assert (EV : <[pi := deref a pi]> a = a) by apply insert_deref.
    destruct (shift_spec (deref a pi) pl pi pi a) as [Hs1 Hw1];
      [lia|lia|rewrite EV|rewrite EV|rewrite EV|rewrite EV|].
    + intros x y Hx Hxy Hy. apply Hs; lia.
    + intros x Hx. lia.
    + intros x y Hx Hxy Hy. lia.
    + intros x y Hx Hy. lia.
    + rewrite EV in Hw1.
      assert (L1 : length (shift v a (deref a pi) pl pi) = length a)
        by apply Hw1.
      replace (pi + S n - 1) with (S pi + n - 1) by lia.
      apply IH; try lia.
      * replace (S pi + n - 1) with (pi + S n - 1) by lia.
        eapply within_trans; [exact Hw|].
        eapply within_wider; [| |exact Hw1]; lia.
      * replace (S pi - 1) with pi by lia. exact Hs1.
Qed.

Lemma insertion_spec (a : list nat) pl pr :
  pl <= pr -> pr < length a ->
  within pl pr a (insertion v a pl pr)
  /\ sorted_on (insertion v a pl pr) pl pr.
Proof.
  intros Hle Hlen. unfold insertion.
  destruct (decide (pl = pr)) as [->|Hne].
  - replace (pr - pr) with 0 by lia. cbn [seq fold_left].
    split; [apply within_refl|].
    intros x y Hx Hxy Hy. assert (x = y) by lia. subst. lia.
  - pose proof (insertion_steps pl (pr - pl) a a (pl + 1)) as H.
    replace (pl + 1 + (pr - pl) - 1) with pr in H by lia.
    apply H; try lia.
    + apply within_refl.
    + intros x y Hx Hxy Hy. assert (x = y) by lia. subst. lia.
Qed.

(** ** The partition *)

Lemma scan_up_spec (a : list nat) vp : forall turns pi s,
  pi <= s -> s - pi < turns -> (vp <= K a s)%Z ->
  pi <= scan_up v turns a vp pi <= s
  /\ (vp <= K a (scan_up v turns a vp pi))%Z
  /\ (forall x, pi <= x < scan_up v turns a vp pi -> (K a x < vp)%Z).
Proof.
  induction turns as [|t IH]; intros pi s Hle Ht Hs; [lia|].
  cbn [scan_up]. destruct (Z.ltb_spec (K a pi) vp) as [Hlt|Hge].
  - assert (pi <> s) by (intros ->; lia).
    destruct (IH (S pi) s) as (A & B & C); try lia.
    split; [lia|]. split; [exact B|].
    intros x Hx. destruct (decide (x = pi)) as [->|]; [exact Hlt|].
    apply C. lia.
  - split; [lia|]. split; [exact Hge|]. intros x Hx. lia.
Qed.

Lemma scan_down_spec (a : list nat) vp : forall pj s,
  s <= pj -> (K a s <= vp)%Z ->
  s <= scan_down v a vp pj <= pj
  /\ (K a (scan_down v a vp pj) <= vp)%Z
  /\ (forall x, scan_down v a vp pj < x <= pj -> (vp < K a x)%Z).
Proof.
  induction pj as [|pj IH]; intros s Hle Hs.
  - assert (s = 0) by lia. subst. cbn [scan_down].
    split; [lia|]. split; [exact Hs|]. intros x Hx. lia.
  - cbn [scan_down]. destruct (Z.ltb_spec vp (K a (S pj))) as [Hlt|Hge].
    + assert (s <> S pj) by (intros ->; lia).
      destruct (IH s) as (A & B & C); try lia.
      split; [lia|]. split; [exact B|].
      intros x Hx. destruct (decide (x = S pj)) as [->|]; [exact Hlt|].
      apply C. lia.
    + split; [lia|]. split; [exact Hge|]. intros x Hx. lia.
Qed.

Lemma hoare_spec vp pl pr : forall turns (a : list nat) pi pj a' pi',
  pl <= pi -> pi < pj -> pj <= pr - 1 -> pr < length a ->
  pj - pi <= turns ->
  (forall x, pl <= x <= pi -> (K a x <= vp)%Z) ->
  (forall x, pj <= x <= pr -> (vp <= K a x)%Z) ->
  K a (pr - 1) = vp ->
  hoare v turns a vp pi pj = (a', pi') ->
  within pl pr a a' /\ pi < pi' <= pr - 1
  /\ (forall x, pl <= x < pi' -> (K a' x <= vp)%Z)
  /\ (forall x, pi' <= x <= pr -> (vp <= K a' x)%Z)
  /\ K a' (pr - 1) = vp.
Proof.
  induction turns as [|t IH];
    intros a pi pj a' pi' Hpl Hlt Hpj Hlen Ht Hlo Hhi Hpiv E; [lia|].
  cbn [hoare] in E.
  destruct (scan_up_spec a vp (length a) (S pi) pj)
    as (U1 & U2 & U3); [lia|lia|apply Hhi; lia|].
  destruct (scan_down_spec a vp (pj - 1) pi)
    as (D1 & D2 & D3); [lia|apply Hlo; lia|].
  set (pi1 := scan_up v (length a) a vp (S pi)) in *.
  set (pj1 := scan_down v a vp (pj - 1)) in *.
  destruct (Nat.leb_spec pj1 pi1) as [Hbrk|Hgo].
  - injection E as <- <-. split; [apply within_refl|].
    split; [lia|]. split; [|split; [|exact Hpiv]].
    + intros x Hx. destruct (decide (x <= pi)); [apply Hlo; lia|].
      specialize (U3 x ltac:(lia)). lia.
    + intros x Hx. destruct (decide (pj <= x)); [apply Hhi; lia|].
      destruct (decide (x = pi1)) as [->|]; [exact U2|].
      specialize (D3 x ltac:(lia)). lia.
  - assert (EK : forall x, K (swap a pi1 pj1) x
                 = if decide (x = pj1) then K a pi1
                   else if decide (x = pi1) then K a pj1 else K a x)
      by (intros x; apply key_at_swap; lia).
    destruct (IH (swap a pi1 pj1) pi1 pj1 a' pi') as (W & B & L & H & P);
      try lia; try exact E.
    + rewrite length_swap. lia.
    + intros x Hx. rewrite EK. rewrite decide_False by lia.
      destruct (decide (x = pi1)); [exact D2|].
      destruct (decide (x <= pi)); [apply Hlo; lia|].
      specialize (U3 x ltac:(lia)). lia.
    + intros x Hx. rewrite EK.
      destruct (decide (x = pj1)); [exact U2|].
      rewrite decide_False by lia.
      destruct (decide (pj <= x)); [apply Hhi; lia|].
      specialize (D3 x ltac:(lia)). lia.
    + rewrite EK. rewrite !decide_False by lia. exact Hpiv.
    + split; [|split; [lia|split; [exact L|split; [exact H|exact P]]]].
      eapply within_trans; [|exact W].
      apply within_swap; lia.
Qed.

(** [if (v[*p] < v[*q]) swap;]: afterwards the smaller key is at [q]. *)
Definition cswap (a : list nat) (p q : nat) : list nat :=
  if (K a p <? K a q)%Z then swap a p q else a.

Lemma cswap_spec (a : list nat) p q :
  p < length a -> q < length a -> p <> q ->
  length (cswap a p q) = length a
  /\ K (cswap a p q) q = Z.min (K a p) (K a q)
  /\ K (cswap a p q) p = Z.max (K a p) (K a q)
  /\ (forall x, x <> p -> x <> q -> K (cswap a p q) x = K a x).
Proof.
  intros Hp Hq Hne. unfold cswap.
  destruct (Z.ltb_spec (K a p) (K a q)) as [Hlt|Hge].
  - split; [apply length_swap|].
    rewrite !key_at_swap by assumption.
    rewrite decide_True by reflexivity.
    rewrite decide_False by assumption.
    rewrite decide_True by reflexivity.
    split; [lia|]. split; [lia|].
    intros x Hx1 Hx2. rewrite key_at_swap by assumption.
    rewrite !decide_False by assumption. reflexivity.
  - split; [reflexivity|]. split; [lia|]. split; [lia|]. reflexivity.
Qed.

Lemma cswap_within lo hi (a : list nat) p q :
  lo <= p <= hi -> lo <= q <= hi -> p < length a -> q < length a ->
  within lo hi a (cswap a p q).
Proof.
  intros. unfold cswap. destruct (_ <? _)%Z; [|apply within_refl].
  apply within_swap; assumption.
Qed.

Lemma partition_spec (a : list nat) pl pr a' pi :
  pl + 2 <= pr -> pr < length a ->
  partition v a pl pr = (a', pi) ->
  within pl pr a a' /\ pl < pi < pr
  /\ (forall x, pl <= x < pi -> (K a' x <= K a' pi)%Z)
  /\ (forall x, pi < x <= pr -> (K a' pi <= K a' x)%Z).
Proof.
  intros Hsz Hlen E. unfold partition in E.
  set (pm := pl + (pr - pl) / 2) in *.
  assert (Hpm : pl < pm < pr).
  { unfold pm. pose proof (Nat.div_mod_eq (pr - pl) 2) as D.
    pose proof (Nat.mod_upper_bound (pr - pl) 2 ltac:(lia)) as M. lia. }
  change (if (K a pm <? K a pl)%Z then swap a pm pl else a)
    with (cswap a pm pl) in E.
  set (a1 := cswap a pm pl) in *.
  change (if (K a1 pr <? K a1 pm)%Z then swap a1 pr pm else a1)
    with (cswap a1 pr pm) in E.
  set (a2 := cswap a1 pr pm) in *.
  change (if (K a2 pm <? K a2 pl)%Z then swap a2 pm pl else a2)
    with (cswap a2 pm pl) in E.
  set (a3 := cswap a2 pm pl) in *.
  destruct (cswap_spec a pm pl) as (L1 & A1 & B1 & C1); try lia.
  fold a1 in L1, A1, B1, C1.
  destruct (cswap_spec a1 pr pm) as (L2 & A2 & B2 & C2); try lia.
  fold a2 in L2, A2, B2, C2.
  destruct (cswap_spec a2 pm pl) as (L3 & A3 & B3 & C3); try lia.
  fold a3 in L3, A3, B3, C3.
  assert (W3 : within pl pr a a3).
  { eapply within_trans; [apply (cswap_within pl pr a pm pl); lia|].
    fold a1.
    eapply within_trans; [apply (cswap_within pl pr a1 pr pm); lia|].
    fold a2. apply (cswap_within pl pr a2 pm pl); lia. }
  assert (M1 : (K a3 pl <= K a3 pm)%Z) by lia.
  assert (M2 : (K a3 pm <= K a3 pr)%Z).
  { rewrite B3, (C3 pr) by lia. rewrite (C2 pl) by lia. lia. }
  set (vp := K a3 pm) in *.
  set (a4 := swap a3 pm (pr - 1)) in *.
  assert (L4 : length a4 = length a) by (unfold a4; rewrite length_swap; lia).
  assert (E4 : forall x, K a4 x
               = if decide (x = pr - 1) then K a3 pm
                 else if decide (x = pm) then K a3 (pr - 1) else K a3 x)
    by (intros x; apply key_at_swap; lia).
  destruct (hoare v (pr - pl) a4 vp pl (pr - 1)) as [a5 pi5] eqn:Eh.
  injection E as <- <-.
  destruct (hoare_spec vp pl pr (pr - pl) a4 pl (pr - 1) a5 pi5)
    as (W5 & B5 & Lo5 & Hi5 & P5); try lia; try exact Eh.
  - intros x Hx. assert (x = pl) by lia. subst x.
    rewrite E4, !decide_False by lia. exact M1.
  - intros x Hx. rewrite E4.
    destruct (decide (x = pr - 1)); [unfold vp; lia|].
    assert (x = pr) by lia. subst x.
    rewrite decide_False by lia. exact M2.
  - rewrite E4, decide_True by reflexivity. reflexivity.
  - assert (L5 : length a5 = length a) by (destruct W5 as [-> _]; exact L4).
    assert (E6 : forall x, K (swap a5 pi5 (pr - 1)) x
                 = if decide (x = pr - 1) then K a5 pi5
                   else if decide (x = pi5) then K a5 (pr - 1) else K a5 x)
      by (intros x; apply key_at_swap; lia).
    assert (Epi : K (swap a5 pi5 (pr - 1)) pi5 = vp).
    { rewrite E6. destruct (decide (pi5 = pr - 1)) as [->|]; [exact P5|].
      rewrite decide_True by reflexivity. exact P5. }
    split; [|split; [lia|split]].
    + eapply within_trans; [exact W3|].
      eapply within_trans; [apply (within_swap pl pr a3 pm (pr - 1)); lia|].
      fold a4. eapply within_trans; [exact W5|].
      apply within_swap; lia.
    + intros x Hx. rewrite Epi, E6, !decide_False by lia.
      apply Lo5. lia.
    + intros x Hx. rewrite Epi, E6.
      destruct (decide (x = pr - 1)); [apply Hi5; lia|].
      rewrite decide_False by lia. apply Hi5. lia.
Qed.

(** ** The heapsort *)

(** In the heap of [n] entries that starts at position [pl], entry [k]
    (counted from 1) is not below its children. *)
Definition heap_at (a : list nat) (pl n k : nat) : Prop :=
  forall c, c = k + k \/ c = k + k + 1 -> c <= n ->
    (K a (pl + c - 1) <= K a (pl + k - 1))%Z.

Lemma sift_done pl n l tmp (a : list nat) i :
  1 <= l -> l <= i -> i <= n -> pl + n <= length a ->
  (forall k, l <= k -> k <> l \/ i <> l -> heap_at a pl n k) ->
  (forall k, l <= k -> i = k + k \/ i = k + k + 1 ->
     (vkey v tmp <= K a (pl + k - 1))%Z) ->
  (forall c, c = i + i \/ c = i + i + 1 -> c <= n ->
     (K a (pl + c - 1) <= vkey v tmp)%Z) ->
  forall k, l <= k -> heap_at (<[pl + i - 1 := tmp]> a) pl n k.
Proof.
  intros Hl Hi Hn Hlen H1 H2 H3 k Hk c Hc Hcn.
  rewrite !key_at_insert by lia.
  destruct (decide (pl + c - 1 = pl + i - 1)) as [Ec|Ec];
    destruct (decide (pl + k - 1 = pl + i - 1)) as [Ek|Ek].
  - lia.
  - apply H2; [exact Hk|]. lia.
  - apply H3; [|exact Hcn]. lia.
  - apply H1; [exact Hk| |exact Hc|exact Hcn].
    destruct (decide (k = l)); [right; lia|left; assumption].
Qed.

Lemma sift_spec pl n l tmp : forall turns (a : list nat) i,
  1 <= l -> l <= i -> i <= n -> pl + n <= length a ->
  n + 1 <= turns + i ->
  (forall k, l <= k -> k <> l \/ i <> l -> heap_at a pl n k) ->
  (forall k, l <= k -> i = k + k \/ i = k + k + 1 ->
     (vkey v tmp <= K a (pl + k - 1))%Z) ->
  within pl (pl + n - 1) (<[pl + i - 1 := tmp]> a)
    (sift v turns a pl tmp i (i + i) n)
  /\ (forall k, l <= k -> heap_at (sift v turns a pl tmp i (i + i) n) pl n k).
Proof.
  induction turns as [|turns IH]; intros a i Hl Hi Hn Hlen Ht H1 H2.
  { lia. }
  cbn [sift].
  destruct (Nat.ltb_spec n (i + i)) as [Hj|Hj].
  { split; [apply within_refl|].
    apply (sift_done pl n l tmp a i); try assumption.
    intros c Hc Hcn. lia. }
  set (j := if (i + i <? n) && (K a (pl + (i + i) - 1) <? K a (pl + (i + i)))%Z
            then i + i + 1 else i + i).
  assert (Hj' : (j = i + i \/ j = i + i + 1) /\ j <= n
                /\ forall c, c = i + i \/ c = i + i + 1 -> c <= n ->
                     (K a (pl + c - 1) <= K a (pl + j - 1))%Z).
  { unfold j. destruct (Nat.ltb_spec (i + i) n) as [Hlt|Hge]; cbn [andb].
    - destruct (Z.ltb_spec (K a (pl + (i + i) - 1)) (K a (pl + (i + i))))
        as [Hk|Hk].
      + split; [right; reflexivity|]. split; [lia|].
        intros c [->| ->] Hcn.
        * replace (pl + (i + i + 1) - 1) with (pl + (i + i)) by lia. lia.
        * lia.
      + split; [left; reflexivity|]. split; [lia|].
        intros c [->| ->] Hcn.
        * lia.
        * replace (pl + (i + i + 1) - 1) with (pl + (i + i)) by lia. lia.
    - split; [left; reflexivity|]. split; [lia|].
      intros c [->| ->] Hcn; lia. }
  destruct Hj' as (Hjc & Hjn & Hmax).
  destruct (Z.ltb_spec (vkey v tmp) (K a (pl + j - 1))) as [Hlt|Hge].
  - set (a' := <[pl + i - 1 := deref a (pl + j - 1)]> a).
    assert (La : length a' = length a) by (unfold a'; apply length_insert).
    assert (Ka : forall x, K a' x
                 = if decide (x = pl + i - 1) then K a (pl + j - 1)
                   else K a x)
      by (intros x; unfold a'; rewrite key_at_insert by lia; reflexivity).
    destruct (IH a' j) as [W Hh]; try lia.
    + intros k Hk _ c Hc Hcn. rewrite !Ka.
      destruct (decide (pl + c - 1 = pl + i - 1)) as [Ec|Ec];
        destruct (decide (pl + k - 1 = pl + i - 1)) as [Ek|Ek].
      * lia.
      * assert (c = i) by lia. subst c.
        transitivity (K a (pl + i - 1)).
        -- apply (H1 i); [lia|right; lia|lia|lia].
        -- apply (H1 k); [lia| |exact Hc|exact Hcn].
           destruct (decide (k = l)); [right; lia|left; assumption].
      * apply Hmax; [lia|exact Hcn].
      * apply (H1 k); [lia| |exact Hc|exact Hcn].
        destruct (decide (k = l)); [right; lia|left; assumption].
    + intros k Hk Hc. assert (k = i) by lia. subst k.
      rewrite Ka, decide_True by reflexivity. lia.
    + split; [|exact Hh].
      eapply within_trans; [|exact W].
      assert (E : <[pl + j - 1 := tmp]> a'
                  = swap (<[pl + i - 1 := tmp]> a) (pl + i - 1) (pl + j - 1)).
      { unfold swap, a'.
        rewrite !deref_insert by lia.
        rewrite decide_True by reflexivity.
        rewrite decide_False by lia.
        rewrite insert_insert_same. reflexivity. }
      rewrite E. apply within_swap; rewrite ?length_insert; lia.
  - split; [apply within_refl|].
    apply (sift_done pl n l tmp a i); try assumption.
    intros c Hc Hcn. specialize (Hmax c Hc Hcn). lia.
Qed.

Lemma heapify_spec pl n : forall h (a : list nat),
  pl + n <= length a -> h + h <= n ->
  (forall k, h < k -> heap_at a pl n k) ->
  within pl (pl + n - 1) a
    (fold_left (fun a l => sift v n a pl (deref a (pl + l - 1)) l (l + l) n)
       (rev (seq 1 h)) a)
  /\ (forall k, 1 <= k ->
        heap_at
          (fold_left
             (fun a l => sift v n a pl (deref a (pl + l - 1)) l (l + l) n)
             (rev (seq 1 h)) a) pl n k).
Proof.
  induction h as [|h IH]; intros a Hlen Hh Hheap.
  { cbn [seq rev fold_left]. split; [apply within_refl|].
    intros k Hk. apply Hheap. lia. }
  rewrite seq_S, rev_unit. cbn [fold_left].
  replace (1 + h) with (S h) by lia.
  destruct (sift_spec pl n (S h) (deref a (pl + S h - 1)) n a (S h))
    as [W Hh1]; try lia.
  - intros k Hk [Hne|Hne]; [|lia]. apply Hheap. lia.
  - rewrite insert_deref in W.
    set (a1 := sift v n a pl (deref a (pl + S h - 1)) (S h) (S h + S h) n)
      in *.
    assert (L1 : length a1 = length a) by (destruct W as [L _]; exact L).
    destruct (IH a1) as [W' Hh']; try lia.
    + intros k Hk. apply Hh1. lia.
    + split; [|exact Hh'].
      eapply within_trans; [exact W|exact W'].
Qed.

Lemma heap_root pl m (a : list nat) :
  (forall k, 1 <= k -> heap_at a pl m k) ->
  forall k, 1 <= k <= m -> (K a (pl + k - 1) <= K a pl)%Z.
Proof.
  intros Hheap k. induction k as [k IH] using lt_wf_ind. intros Hk.
  destruct (decide (k = 1)) as [->|Hne].
  { replace (pl + 1 - 1) with pl by lia. lia. }
  pose proof (Nat.div_mod_eq k 2) as D.
  pose proof (Nat.mod_upper_bound k 2 ltac:(lia)) as M.
  transitivity (K a (pl + k / 2 - 1)).
  - apply (Hheap (k / 2)); lia.
  - apply IH; lia.
Qed.

Definition extract (pl : nat) (a : list nat) (m : nat) : list nat :=
  let tmp := deref a (pl + m - 1) in
  let a := <[pl + m - 1 := deref a pl]> a in
  sift v m a pl tmp 1 2 (m - 1).

Lemma extract_spec pl n : forall c (a : list nat),
  pl + n <= length a -> c + 1 <= n ->
  (forall k, 1 <= k -> heap_at a pl (c + 1) k) ->
  sorted_on a (pl + c + 1) (pl + n - 1) ->
  (forall x y, pl <= x <= pl + c -> pl + c + 1 <= y <= pl + n - 1 ->
     (K a x <= K a y)%Z) ->
  within pl (pl + n - 1) a (fold_left (extract pl) (rev (seq 2 c)) a)
  /\ sorted_on (fold_left (extract pl) (rev (seq 2 c)) a) pl (pl + n - 1).
Proof.
  induction c as [|c IH]; intros a Hlen Hc Hheap Hsorted Hsplit.
  { cbn [seq rev fold_left]. split; [apply within_refl|].
    intros x y Hx Hxy Hy.
    destruct (decide (x = y)) as [->|Hne]; [lia|].
    destruct (decide (x = pl)) as [->|Hne'].
    - apply Hsplit; lia.
    - apply Hsorted; lia. }
  rewrite seq_S, rev_unit. cbn [fold_left].
  set (m := 2 + c).
  set (a1 := <[pl + m - 1 := deref a pl]> a).
  set (tmp := deref a (pl + m - 1)).
  assert (Em : extract pl a m = sift v m a1 pl tmp 1 (1 + 1) (m - 1))
    by reflexivity.
  assert (L1 : length a1 = length a) by apply length_insert.
  assert (K1 : forall x, K a1 x = if decide (x = pl + m - 1) then K a pl
                                  else K a x)
    by (intros x; unfold a1; rewrite key_at_insert by lia; reflexivity).
  destruct (sift_spec pl (m - 1) 1 tmp m a1 1) as [W Hh]; try lia.
  { intros k Hk [Hne|Hne]; [|lia]. intros c' Hc' Hcn.
    rewrite !K1, !decide_False by lia.
    apply (Hheap k); [lia|exact Hc'|lia]. }
  rewrite <- Em in W, Hh.
  set (R := extract pl a m) in *.
  assert (EV : <[pl + 1 - 1 := tmp]> a1 = swap a (pl + m - 1) pl).
  { unfold swap, a1, tmp. replace (pl + 1 - 1) with pl by lia.
    reflexivity. }
  rewrite EV in W.
  assert (KV : forall x, K (swap a (pl + m - 1) pl) x
               = if decide (x = pl) then K a (pl + m - 1)
                 else if decide (x = pl + m - 1) then K a pl else K a x)
    by (intros x; apply key_at_swap; lia).
  assert (LR : length R = length a)
    by (destruct W as [L _]; rewrite L, length_swap; reflexivity).
  assert (Hroot : forall k, 1 <= k <= m -> (K a (pl + k - 1) <= K a pl)%Z).
  { apply heap_root. intros k Hk.
    replace m with (S c + 1) by (unfold m; lia). apply Hheap, Hk. }
  assert (Hin : forall x, pl <= x <= pl + m - 2 ->
            exists y, pl <= y <= pl + m - 1 /\ K R x = K a y).
  { intros x Hx.
    destruct (within_key pl (pl + (m - 1) - 1) _ _ x W) as (y & Hy & E);
      [lia|].
    rewrite E, KV.
    destruct (decide (y = pl)); [exists (pl + m - 1); split; [lia|easy]|].
    rewrite decide_False by lia. exists y. split; [lia|reflexivity]. }
  assert (Hout : forall y, pl + m - 1 <= y ->
            K R y = if decide (y = pl + m - 1) then K a pl else K a y).
  { intros y Hy.
    rewrite (within_key_out pl (pl + (m - 1) - 1) _ _ y W) by lia.
    rewrite KV, decide_False by lia. reflexivity. }
  destruct (IH R) as [W' Hs']; try lia.
  - intros k Hk. replace (c + 1) with (m - 1) by (unfold m; lia).
    apply Hh, Hk.
  - intros x y Hx Hxy Hy. rewrite !Hout by (unfold m; lia).
    destruct (decide (y = pl + m - 1)) as [Ey|Ey].
    + rewrite decide_True by lia. lia.
    + destruct (decide (x = pl + m - 1)) as [Ex|Ex].
      * apply Hsplit; unfold m in *; lia.
      * apply Hsorted; unfold m in *; lia.
  - intros x y Hx Hy.
    destruct (Hin x) as (x' & Hx' & ->); [unfold m; lia|].
    rewrite Hout by (unfold m; lia).
    destruct (decide (y = pl + m - 1)) as [Ey|Ey].
    + replace x' with (pl + (x' - pl + 1) - 1) by lia.
      apply Hroot. lia.
    + apply Hsplit; unfold m in *; lia.
  - split; [|exact Hs'].
    eapply within_trans; [|exact W'].
    eapply within_trans;
      [apply (within_swap pl (pl + n - 1) a (pl + m - 1) pl);
       unfold m; lia|].
    eapply within_wider; [| |exact W]; lia.
Qed.

Lemma aheapsort_spec (a : list nat) pl n :
  1 <= n -> pl + n <= length a ->
  within pl (pl + n - 1) a (aheapsort v a pl n)
  /\ sorted_on (aheapsort v a pl n) pl (pl + n - 1).
Proof.
  intros Hn Hlen. unfold aheapsort.
  pose proof (Nat.div_mod_eq n 2) as D.
  pose proof (Nat.mod_upper_bound n 2 ltac:(lia)) as M.
  destruct (heapify_spec pl n (n / 2) a) as [W Hh]; try lia.
  { intros k Hk c Hc Hcn. lia. }
  set (heap := fold_left _ (rev (seq 1 (n / 2))) a) in *.
  assert (L : length heap = length a) by (destruct W as [L _]; exact L).
  destruct (extract_spec pl n (n - 1) heap) as [W' Hs]; try lia.
  - intros k Hk. replace (n - 1 + 1) with n by lia. apply Hh, Hk.
  - intros x y Hx Hxy Hy. lia.
  - split; [|exact Hs]. eapply within_trans; [exact W|exact W'].
Qed.

(** ** The ranges still to sort *)

Definition range : Type := (nat * nat)%type.

Definition range_of (s : saved) : range := s.1.

Definition apart (r r' : range) : Prop := r.2 < r'.1 \/ r'.2 < r.1.

Fixpoint all_apart (rs : list range) : Prop :=
  match rs with
  | [] => True
  | r :: rs' => Forall (apart r) rs' /\ all_apart rs'
  end.

Definition inside (x y : nat) (r : range) : Prop := r.1 <= x /\ y <= r.2.

(** The ranges [rs] are what is left to sort in [a]: they lie in [a],
    no two of them meet, and two positions whose keys are in the wrong
    order are in one of them. *)
Definition pending (a : list nat) (rs : list range) : Prop :=
  Forall (fun r : range => r.1 <= r.2 /\ r.2 < length a) rs
  /\ all_apart rs
  /\ (forall x y, x < y -> y < length a -> (K a y < K a x)%Z ->
        Exists (inside x y) rs).

Definition total_size (rs : list range) : nat :=
  foldr (fun (r : range) n => r.2 - r.1 + 1 + n) 0 rs.

Lemma all_apart_app (l1 l2 : list range) :
  all_apart l1 -> all_apart l2 ->
  (forall r1 r2, r1 ∈ l1 -> r2 ∈ l2 -> apart r1 r2) ->
  all_apart (l1 ++ l2).
Proof.
  induction l1 as [|r l1 IH]; intros H1 H2 Hx; [exact H2|].
  destruct H1 as [Hr H1]. cbn [app all_apart]. split.
  - apply Forall_app. split; [exact Hr|].
    apply Forall_forall. intros r2 Hr2. apply Hx; [left|exact Hr2].
  - apply IH; [exact H1|exact H2|].
    intros r1 r2 Hr1 Hr2. apply Hx; [right; exact Hr1|exact Hr2].
Qed.

Lemma pending_refine (a a' : list nat) lo hi (new rs : list range) :
  pending a ((lo, hi) :: rs) -> within lo hi a a' ->
  Forall (fun r : range => lo <= r.1 /\ r.1 <= r.2 /\ r.2 <= hi) new ->
  all_apart new ->
  (forall x y, lo <= x -> x < y -> y <= hi -> (K a' y < K a' x)%Z ->
     Exists (inside x y) new) ->
  pending a' (new ++ rs).
Proof.
  intros (Hv & Ha & Hi) W Hnew Hnapart Hnin.
  assert (L : length a' = length a) by (destruct W as [L _]; exact L).
  apply Forall_cons in Hv as [Hv0 Hv]. cbn [fst snd] in Hv0.
  destruct Ha as [Ha0 Ha].
  split; [|split].
  - apply Forall_app. split.
    + eapply Forall_impl; [exact Hnew|]. intros r Hr. cbv beta in Hr. lia.
    + eapply Forall_impl; [exact Hv|]. intros r Hr. cbv beta in Hr.
      rewrite L. exact Hr.
  - apply all_apart_app; [exact Hnapart|exact Ha|].
    intros r1 r2 Hr1 Hr2.
    pose proof (proj1 (Forall_forall _ _) Hnew r1 Hr1) as H1.
    pose proof (proj1 (Forall_forall _ _) Ha0 r2 Hr2) as H2.
    cbv beta in H1. unfold apart in *. cbn [fst snd] in H2. lia.
  - intros x y Hxy Hy Hinv. rewrite L in Hy. apply Exists_app.
    destruct (decide (lo <= x <= hi)) as [Hx|Hx];
      destruct (decide (lo <= y <= hi)) as [Hy'|Hy'].
    + left. apply Hnin; [lia|exact Hxy|lia|exact Hinv].
    + exfalso.
      destruct (within_key lo hi a a' x W Hx) as (x' & Hx' & Ex).
      rewrite Ex, (within_key_out lo hi a a' y W) in Hinv by lia.
      pose proof (Hi x' y ltac:(lia) Hy Hinv) as Hex.
      apply Exists_cons in Hex as [Hex|Hex].
      * unfold inside in Hex. cbn [fst snd] in Hex. lia.
      * apply Exists_exists in Hex as (r & Hr & Hex).
        pose proof (proj1 (Forall_forall _ _) Ha0 r Hr) as H2.
        unfold apart, inside in *. cbn [fst snd] in H2. lia.
    + exfalso.
      destruct (within_key lo hi a a' y W Hy') as (y' & Hy2 & Ey).
      rewrite Ey, (within_key_out lo hi a a' x W) in Hinv by lia.
      pose proof (Hi x y' ltac:(lia) ltac:(lia) Hinv) as Hex.
      apply Exists_cons in Hex as [Hex|Hex].
      * unfold inside in Hex. cbn [fst snd] in Hex. lia.
      * apply Exists_exists in Hex as (r & Hr & Hex).
        pose proof (proj1 (Forall_forall _ _) Ha0 r Hr) as H2.
        unfold apart, inside in *. cbn [fst snd] in H2. lia.
    + right.
      rewrite !(within_key_out lo hi a a' _ W) in Hinv by lia.
      pose proof (Hi x y Hxy Hy Hinv) as Hex.
      apply Exists_cons in Hex as [Hex|Hex]; [|exact Hex].
      unfold inside in Hex. cbn [fst snd] in Hex. lia.
Qed.

Lemma pending_sorted (a a' : list nat) lo hi (rs : list range) :
  pending a ((lo, hi) :: rs) -> within lo hi a a' -> sorted_on a' lo hi ->
  pending a' rs.
Proof.
  intros P W Hs.
  apply (pending_refine a a' lo hi [] rs P W); [constructor|exact I|].
  intros x y Hx Hxy Hy Hinv. specialize (Hs x y Hx ltac:(lia) Hy). lia.
Qed.

Lemma pending_partition (a a' : list nat) pl pr pi (rs : list range) :
  pending a ((pl, pr) :: rs) -> pl + 2 <= pr ->
  partition v a pl pr = (a', pi) ->
  pl < pi < pr
  /\ length a' = length a /\ a' ≡ₚ a
  /\ pending a' ((pl, pi - 1) :: (pi + 1, pr) :: rs)
  /\ pending a' ((pi + 1, pr) :: (pl, pi - 1) :: rs).
Proof.
  intros P Hsz E.
  assert (Hlen : pr < length a).
  { destruct P as (Hv & _). apply Forall_cons in Hv as [Hv _].
    cbn [fst snd] in Hv. lia. }
  destruct (partition_spec a pl pr a' pi Hsz Hlen E) as (W & Hpi & Hlo & Hhi).
  split; [exact Hpi|].
  split; [destruct W as [L _]; exact L|].
  split; [destruct W as (_ & Pm & _); exact Pm|].
  assert (Hin : forall x y, pl <= x -> x < y -> y <= pr ->
            (K a' y < K a' x)%Z -> y <= pi - 1 \/ pi + 1 <= x).
  { intros x y Hx Hxy Hy Hinv.
    destruct (decide (y <= pi - 1)) as [|Hy1]; [left; assumption|].
    destruct (decide (pi + 1 <= x)) as [|Hx1]; [right; assumption|].
    exfalso.
    assert (Hxp : (K a' x <= K a' pi)%Z).
    { destruct (decide (x = pi)) as [->|]; [lia|]. apply Hlo. lia. }
    assert (Hyp : (K a' pi <= K a' y)%Z).
    { destruct (decide (y = pi)) as [->|]; [lia|]. apply Hhi. lia. }
    lia. }
  split.
  - apply (pending_refine a a' pl pr [(pl, pi - 1); (pi + 1, pr)] rs P W).
    + repeat constructor; cbn [fst snd]; lia.
    + cbn [all_apart]. split; [|split; [constructor|exact I]].
      constructor; [|constructor]. left. cbn [fst snd]. lia.
    + intros x y Hx Hxy Hy Hinv.
      destruct (Hin x y Hx Hxy Hy Hinv) as [H|H].
      * apply Exists_cons_hd. split; cbn [fst snd]; lia.
      * apply Exists_cons_tl, Exists_cons_hd. split; cbn [fst snd]; lia.
  - apply (pending_refine a a' pl pr [(pi + 1, pr); (pl, pi - 1)] rs P W).
    + repeat constructor; cbn [fst snd]; lia.
    + cbn [all_apart]. split; [|split; [constructor|exact I]].
      constructor; [|constructor]. right. cbn [fst snd]. lia.
    + intros x y Hx Hxy Hy Hinv.
      destruct (Hin x y Hx Hxy Hy Hinv) as [H|H].
      * apply Exists_cons_tl, Exists_cons_hd. split; cbn [fst snd]; lia.
      * apply Exists_cons_hd. split; cbn [fst snd]; lia.
Qed.

(** ** The loops *)

Lemma partitions_spec : forall turns (a : list nat) pl pr stack cdepth
                               a' pl' pr' stack',
  pending a ((pl, pr) :: map range_of stack) ->
  partitions v turns a pl pr stack cdepth = (a', pl', pr', stack') ->
  pending a' ((pl', pr') :: map range_of stack')
  /\ length a' = length a /\ a' ≡ₚ a
  /\ total_size ((pl', pr') :: map range_of stack')
     <= total_size ((pl, pr) :: map range_of stack).
Proof.
  induction turns as [|turns IH];
    intros a pl pr stack cdepth a' pl' pr' stack' P E.
  { injection E as <- <- <- <-.
    split; [exact P|]. split; [reflexivity|]. split; reflexivity. }
  cbn [partitions] in E.
  destruct (Nat.ltb_spec 16 (pr - pl)) as [Hbig|Hsmall].
  2:{ injection E as <- <- <- <-.
      split; [exact P|]. split; [reflexivity|]. split; reflexivity. }
  destruct (partition v a pl pr) as [a1 pi] eqn:Ep.
  destruct (pending_partition a a1 pl pr pi (map range_of stack) P
              ltac:(lia) Ep) as (Hpi & L1 & Pm1 & P1 & P2).
  destruct (Nat.ltb_spec (pi - pl) (pr - pi)) as [Hside|Hside].
  - destruct (IH a1 pl (pi - 1) ((pi + 1, pr, (cdepth - 1)%Z) :: stack)
                (cdepth - 1)%Z a' pl' pr' stack' P1 E)
      as (P' & L' & Pm' & Hs').
    split; [exact P'|]. split; [congruence|].
    split; [etransitivity; eassumption|].
    cbn [map total_size foldr range_of fst snd] in *. lia.
  - destruct (IH a1 (pi + 1) pr ((pl, pi - 1, (cdepth - 1)%Z) :: stack)
                (cdepth - 1)%Z a' pl' pr' stack' P2 E)
      as (P' & L' & Pm' & Hs').
    split; [exact P'|]. split; [congruence|].
    split; [etransitivity; eassumption|].
    cbn [map total_size foldr range_of fst snd] in *. lia.
Qed.

(** The turns given to [partitions] are never used up: it stops on a
    partition of at most 17 entries. *)
Lemma partitions_small : forall turns (a : list nat) pl pr stack cdepth
                                a' pl' pr' stack',
  pending a ((pl, pr) :: map range_of stack) ->
  pr - pl <= 16 + turns ->
  partitions v turns a pl pr stack cdepth = (a', pl', pr', stack') ->
  pr' - pl' <= 16.
Proof.
  induction turns as [|turns IH];
    intros a pl pr stack cdepth a' pl' pr' stack' P Hturns E.
  { injection E as <- <- <- <-. lia. }
  cbn [partitions] in E.
  destruct (Nat.ltb_spec 16 (pr - pl)) as [Hbig|Hsmall].
  2:{ injection E as <- <- <- <-. exact Hsmall. }
  destruct (partition v a pl pr) as [a1 pi] eqn:Ep.
  destruct (pending_partition a a1 pl pr pi (map range_of stack) P
              ltac:(lia) Ep) as (Hpi & L1 & Pm1 & P1 & P2).
  destruct (Nat.ltb_spec (pi - pl) (pr - pi)) as [Hside|Hside].
  - apply (IH a1 pl (pi - 1) ((pi + 1, pr, (cdepth - 1)%Z) :: stack)
             (cdepth - 1)%Z a' pl' pr' stack' P1); [lia|exact E].
  - apply (IH a1 (pi + 1) pr ((pl, pi - 1, (cdepth - 1)%Z) :: stack)
             (cdepth - 1)%Z a' pl' pr' stack' P2); [lia|exact E].
Qed.

Lemma pending_head (a : list nat) pl pr (rs : list range) :
  pending a ((pl, pr) :: rs) -> pl <= pr /\ pr < length a.
Proof.
  intros (Hv & _). apply Forall_cons in Hv as [Hv _]. exact Hv.
Qed.

Lemma sort_loop_spec : forall turns (a : list nat) pl pr stack cdepth,
  pending a ((pl, pr) :: map range_of stack) ->
  total_size ((pl, pr) :: map range_of stack) <= turns ->
  exists a', sort_loop v turns a pl pr stack cdepth = Some a'
             /\ a' ≡ₚ a /\ pending a' [].
Proof.
  induction turns as [|turns IH]; intros a pl pr stack cdepth P Hsize.
  { cbn [total_size foldr] in Hsize. lia. }
  cbn [sort_loop].
  assert (Hstep : exists a1 stack1,
            (if (cdepth <? 0)%Z
             then (aheapsort v a pl (pr - pl + 1), stack)
             else let '(a0, pl0, pr0, stack0) :=
                    partitions v (length a) a pl pr stack cdepth in
                  (insertion v a0 pl0 pr0, stack0)) = (a1, stack1)
            /\ a1 ≡ₚ a /\ pending a1 (map range_of stack1)
            /\ total_size (map range_of stack1) <= turns).
  { destruct (pending_head _ _ _ _ P) as [Hle Hlen].
    destruct (cdepth <? 0)%Z.
    - exists (aheapsort v a pl (pr - pl + 1)), stack.
      split; [reflexivity|].
      destruct (aheapsort_spec a pl (pr - pl + 1)) as [W Hs]; try lia.
      replace (pl + (pr - pl + 1) - 1) with pr in W, Hs by lia.
      split; [destruct W as (_ & Pm & _); exact Pm|].
      split; [exact (pending_sorted _ _ _ _ _ P W Hs)|].
      cbn [total_size foldr fst snd] in Hsize. fold (total_size (map range_of stack)) in Hsize.
      lia.
    - destruct (partitions v (length a) a pl pr stack cdepth)
        as [[[a0 pl0] pr0] stack0] eqn:Ep.
      destruct (partitions_spec _ _ _ _ _ _ _ _ _ _ P Ep)
        as (P0 & L0 & Pm0 & Hs0).
      exists (insertion v a0 pl0 pr0), stack0.
      split; [reflexivity|].
      destruct (pending_head _ _ _ _ P0) as [Hle0 Hlen0].
      destruct (insertion_spec a0 pl0 pr0 Hle0 Hlen0) as [W Hs].
      split; [destruct W as (_ & Pm & _); etransitivity; eassumption|].
      split; [exact (pending_sorted _ _ _ _ _ P0 W Hs)|].
      cbn [total_size foldr fst snd] in Hsize, Hs0.
      fold (total_size (map range_of stack)) in Hsize, Hs0.
      fold (total_size (map range_of stack0)) in Hs0.
      lia. }
  destruct Hstep as (a1 & stack1 & -> & Pm1 & P1 & Hs1).
  destruct stack1 as [|[[pl1 pr1] d1] stack1].
  - exists a1. split; [reflexivity|]. split; assumption.
  - destruct (IH a1 pl1 pr1 stack1 d1 P1 Hs1) as (a' & E & Pm' & P').
    exists a'. split; [exact E|]. split; [|exact P'].
    etransitivity; eassumption.
Qed.

Lemma aquicksort_spec :
  aquicksort v ≡ₚ seq 0 (length v)
  /\ forall x y, x < y -> y < length v ->
       (K (aquicksort v) x <= K (aquicksort v) y)%Z.
Proof.
  unfold aquicksort.
  destruct (decide (length v = 0)) as [E0|Hne].
  { rewrite E0. cbn. split; [reflexivity|]. intros x y Hxy Hy. lia. }
  destruct (sort_loop_spec (S (length v)) (seq 0 (length v)) 0
              (length v - 1) [] (2 * Z.log2 (Z.of_nat (length v)))%Z)
    as (a' & E & Pm & P).
  - split; [|split].
    + constructor; [|constructor]. cbn [fst snd]. rewrite length_seq. lia.
    + cbn [map all_apart]. split; [constructor|exact I].
    + intros x y Hxy Hy _. rewrite length_seq in Hy.
      apply Exists_cons_hd. split; cbn [fst snd]; lia.
  - cbn [map total_size foldr fst snd]. lia.
  - rewrite E. cbn [default]. split; [exact Pm|].
    intros x y Hxy Hy.
    destruct P as (_ & _ & Hi).
    destruct (Z.le_gt_cases (K a' x) (K a' y)) as [|Hinv]; [assumption|].
    assert (Hy' : y < length a').
    { rewrite (Permutation_length Pm), length_seq. exact Hy. }
    pose proof (Hi x y Hxy Hy' ltac:(lia)) as Hex.
    inversion Hex.
Qed.

End Keys.

(** ** The indexer of [sort_values] *)

Lemma rev_reverse {A} (l : list A) : rev l = reverse l.
Proof. unfold reverse. apply rev_alt. Qed.

Lemma lookup_rev {A} (l : list A) i :
  i < length l -> rev l !! i = l !! (length l - 1 - i).
Proof.
  intros H. rewrite rev_reverse, reverse_lookup by exact H.
  f_equal. lia.
Qed.

Lemma sorted_by_lookup {A} (R : A -> A -> Prop) (l : list A) :
  (forall i j x y, i < j -> l !! i = Some x -> l !! j = Some y -> R x y) ->
  StronglySorted R l.
Proof.
  induction l as [|x l IH]; intros H; constructor.
  - apply IH. intros i j y z Hij Hy Hz. apply (H (S i) (S j)); [lia|easy|easy].
  - apply Forall_forall. intros y Hy.
    apply list_elem_of_lookup_1 in Hy as [j Hj].
    apply (H 0 (S j)); [lia|reflexivity|exact Hj].
Qed.

Lemma nargsort_desc_sorts : Argsort.sorts_descending nargsort_desc.
Proof.
  intros keys. unfold nargsort_desc.
  set (n := length keys). set (ks := rev keys).
  destruct (aquicksort_spec ks) as [Pm Hs].
  assert (Ln : length ks = n) by apply length_rev.
  rewrite Ln in Pm, Hs.
  set (q := aquicksort ks) in *.
  set (f := fun k => default 0 (rev (seq 0 n) !! k)).
  assert (Hf : forall k, k < n -> f k = n - 1 - k).
  { intros k Hk. unfold f.
    rewrite lookup_rev by (rewrite length_seq; exact Hk).
    rewrite length_seq, lookup_seq_lt by lia. reflexivity. }
  assert (Lq : length q = n)
    by (rewrite (Permutation_length Pm); apply length_seq).
  assert (Hq : forall x k, q !! x = Some k -> k < n).
  { intros x k Hk. apply list_elem_of_lookup_2 in Hk.
    rewrite Pm in Hk. apply elem_of_seq in Hk. lia. }
  assert (Hkey : forall k, k < n ->
            Argsort.key keys (f k) = vkey ks k).
  { intros k Hk. rewrite Hf by exact Hk. unfold Argsort.key, vkey, ks.
    rewrite lookup_rev by exact Hk. reflexivity. }
  split.
  - rewrite rev_reverse, reverse_Permutation, Pm.
    assert (E : map f (seq 0 n) = rev (seq 0 n)).
    { apply list_eq. intros i. rewrite list_lookup_fmap.
      destruct (decide (i < n)) as [Hi|Hi].
      - rewrite lookup_seq_lt by exact Hi. cbn [fmap option_fmap option_map].
        rewrite Hf by exact Hi.
        rewrite lookup_rev by (rewrite length_seq; exact Hi).
        rewrite length_seq, lookup_seq_lt by lia. reflexivity.
      - rewrite lookup_seq_ge by lia.
        rewrite lookup_ge_None_2 by (rewrite length_rev, length_seq; lia).
        reflexivity. }
    rewrite E, rev_reverse. apply reverse_Permutation.
  - apply sorted_by_lookup. intros i j x y Hij Hx Hy.
    assert (Hj : j < n).
    { apply lookup_lt_Some in Hy.
      rewrite length_rev, length_map, Lq in Hy. exact Hy. }
    rewrite lookup_rev in Hx, Hy by (rewrite length_map, Lq; lia).
    rewrite length_map, Lq, list_lookup_fmap in Hx, Hy.
    destruct (q !! (n - 1 - i)) as [kx|] eqn:Ex; [|discriminate].
    destruct (q !! (n - 1 - j)) as [ky|] eqn:Ey; [|discriminate].
    injection Hx as <-. injection Hy as <-.
    rewrite !Hkey by eauto.
    specialize (Hs (n - 1 - j) (n - 1 - i) ltac:(lia) ltac:(lia)).
    unfold key_at, deref in Hs. rewrite Ex, Ey in Hs. exact Hs.
Qed.

End QuicksortFacts.

Module FuzzyFacts.
Import Spec SearchFacts.

(** ** Frames *)

Lemma filter_label_none (l : nat) (rs : list row) :
  l ∉ map fst rs -> filter (fun r : row => r.1 = l) rs = [].
Proof.
  induction rs as [|x rs IH]; intros Hn; [reflexivity|].
  rewrite filter_cons. simpl in Hn.
  rewrite decide_False by (intros E; apply Hn; rewrite E; left).
  apply IH. intros Hin. apply Hn. right. exact Hin.
Qed.

(** With distinct labels, a label finds its one row. *)
Lemma filter_label_unique (rs : list row) r :
  NoDup (map fst rs) -> r ∈ rs ->
  filter (fun r' : row => r'.1 = r.1) rs = [r].
Proof.
  induction rs as [|x rs IH]; intros Hnd Hin.
  - inversion Hin.
  - simpl in Hnd. apply NoDup_cons in Hnd as [Hx Hnd].
    rewrite filter_cons.
    apply elem_of_cons in Hin as [->|Hin].
    + rewrite decide_True by reflexivity.
      rewrite filter_label_none by assumption. reflexivity.
    + rewrite decide_False.
      * apply IH; assumption.
      * intros E. apply Hx. rewrite E.
        apply (list_elem_of_fmap_2 fst) in Hin. exact Hin.
Qed.


(** [df.loc[labels]] for the labels of a selection gives the selection. *)
Lemma loc_rows_selection (rs ks : list row) :
  NoDup (map fst rs) -> (forall r, r ∈ ks -> r ∈ rs) ->
  Pandas.loc_rows rs (map fst ks) = ks.
Proof.
  intros Hnd. unfold Pandas.loc_rows.
  induction ks as [|k ks IH]; intros Hin; [reflexivity|].
  simpl. rewrite filter_label_unique; [|assumption|apply Hin; left].
  simpl. f_equal. apply IH. intros r Hr. apply Hin. right. exact Hr.
Qed.

Lemma set_cells_map p (g : row -> cell) rs :
  Pandas.set_cells p rs (map g rs)
  = map (fun r => (r.1, Pandas.set_cell p (g r) r.2)) rs.
Proof. induction rs as [|r rs IH]; simpl; [reflexivity|]. f_equal. exact IH. Qed.

Lemma lookup_set_cell p v : forall cs, Pandas.set_cell p v cs !! p = Some v.
Proof.
  induction p as [|p IH]; intros [|c cs]; simpl; try reflexivity; apply IH.
Qed.

Lemma cell_at_set_cell p v (l : nat) cs :
  Pandas.cell_at p (l, Pandas.set_cell p v cs) = v.
Proof. unfold Pandas.cell_at. simpl. rewrite lookup_set_cell. reflexivity. Qed.

Lemma col_pos_lt column cols p :
  Pandas.col_pos column cols = Some p -> (p < length cols)%nat.
Proof.
  revert p. induction cols as [|c cols IH]; intros p H; simpl in *;
    [discriminate|].
  destruct (String.eqb c column); [injection H as <-; lia|].
  destruct (Pandas.col_pos column cols) as [q|]; [|discriminate].
  injection H as <-. specialize (IH q eq_refl). lia.
Qed.

Lemma col_pos_app_new column cols :
  Pandas.col_pos column cols = None ->
  Pandas.col_pos column (cols ++ [column]) = Some (length cols).
Proof.
  induction cols as [|c cols IH]; intros H; simpl in *.
  - rewrite String.eqb_refl. reflexivity.
  - destruct (String.eqb c column); [discriminate|].
    destruct (Pandas.col_pos column cols); [discriminate|].
    rewrite IH by reflexivity. reflexivity.
Qed.

Lemma score_pos_spec cols :
  Pandas.col_pos score_column (score_columns cols) = Some (score_pos cols).
Proof.
  unfold score_columns, score_pos.
  destruct (Pandas.col_pos score_column cols) as [q|] eqn:E; simpl.
  - exact E.
  - apply col_pos_app_new. exact E.
Qed.

Lemma mapM_int_key (g : row -> Z) (h : row -> row) (q : nat)
      (ks : list row) :
  (forall r, Pandas.cell_at q (h r) = CInt (g r)) ->
  mapM Pandas.int_key (map (Pandas.cell_at q) (map h ks)) = Some (map g ks).
Proof.
  intros H. apply mapM_Some. induction ks as [|r ks IH]; simpl.
  - constructor.
  - constructor; [rewrite H; reflexivity|exact IH].
Qed.

(** Taking every position in turn gives the rows back. *)
Lemma take_seq (rs : list row) : forall pre,
  Pandas.take (pre ++ rs) (seq (length pre) (length rs)) = rs.
Proof.
  unfold Pandas.take.
  induction rs as [|r rs IH]; intros pre; [reflexivity|].
  cbn [length seq omap list_omap].
  rewrite lookup_new. f_equal.
  specialize (IH (pre ++ [r])).
  rewrite length_app, <- app_assoc in IH. simpl in IH.
  replace (length pre + 1)%nat with (S (length pre)) in IH by lia.
  exact IH.
Qed.

Lemma take_perm (rs : list row) idx :
  idx ≡ₚ seq 0 (length rs) -> Pandas.take rs idx ≡ₚ rs.
Proof.
  intros Hp. unfold Pandas.take. rewrite Hp.
  pose proof (take_seq rs []) as H. unfold Pandas.take in H. simpl in H.
  rewrite H. reflexivity.
Qed.

(** The cells read along an indexer are the keys read along it. *)
Lemma take_keys (g : row -> Z) (h : row -> row) (q : nat) (ks : list row)
      idx :
  (forall r, Pandas.cell_at q (h r) = CInt (g r)) ->
  map (Pandas.cell_at q) (Pandas.take (map h ks) idx)
  = map CInt (omap (fun i => map g ks !! i) idx).
Proof.
  intros H. unfold Pandas.take.
  induction idx as [|i idx IH]; [reflexivity|].
  cbn [omap list_omap].
  change (map h ks) with (h <$> ks) in *.
  change (map g ks) with (g <$> ks) in *.
  rewrite !list_lookup_fmap.
  destruct (ks !! i) as [r|] eqn:E; simpl; [|exact IH].
  rewrite IH, H. reflexivity.
Qed.

(** ** The scan *)

Lemma fuzzy_scan_result self keyword column threshold cols p rs :
  Pandas.col_pos column cols = Some p ->
  small_texts keyword p rs ->
  forall acc,
    fuzzy_scan self keyword column threshold cols rs acc
    = Ok (acc.1 ++ map (fun r => similarity self keyword (Pandas.cell_at p r))
                     (hits (fuzzy_match self keyword threshold) p rs),
          acc.2 ++ map fst (hits (fuzzy_match self keyword threshold) p rs)).
Proof.
  intros Hp. induction rs as [|r rs IH]; intros Hsmall acc.
  - simpl. rewrite !app_nil_r. destruct acc; reflexivity.
  - cbn [fuzzy_scan]. rewrite Hp.
    destruct (SimilarityFacts.similarity_spec self keyword
                (Pandas.cell_at p r)) as [E _];
      [apply Hsmall; left|].
    rewrite E. rewrite IH by (intros r' Hr'; apply Hsmall; right; exact Hr').
    unfold hits. rewrite filter_cons.
    change (threshold <=? similarity self keyword (Pandas.cell_at p r))
      with (fuzzy_match self keyword threshold (Pandas.cell_at p r)).
    destruct (fuzzy_match self keyword threshold (Pandas.cell_at p r))
      eqn:Et.
    + rewrite decide_True by reflexivity. simpl.
      rewrite <- !app_assoc. reflexivity.
    + rewrite decide_False by discriminate. reflexivity.
Qed.

(** ** The search *)

(** *** Running a method step by step *)

Lemma bind_assoc {A B C} (m : M A) (f : A -> M B) (k : B -> M C) w :
  bind (bind m f) k w = bind m (fun x => bind (f x) k) w.
Proof. unfold bind. destruct (m w) as [[x|e] w1]; reflexivity. Qed.

Lemma bind_alloc {B} fr (k : loc -> M B) w :
  bind (alloc fr) k w
  = k (length (store w)) (World (store w ++ [fr]) (shown w)).
Proof. reflexivity. Qed.

Lemma bind_deref {B} (l : loc) (k : frame -> M B) w fr :
  store w !! l = Some fr -> bind (deref l) k w = k fr w.
Proof. intros H. unfold bind, deref. rewrite H. reflexivity. Qed.

Lemma bind_update {B} (l : loc) f (k : unit -> M B) w fr fr' :
  store w !! l = Some fr -> f fr = Ok fr' ->
  bind (update l f) k w
  = k tt (World (<[l := fr']> (store w)) (shown w)).
Proof. intros H1 H2. unfold bind, update. rewrite H1, H2. reflexivity. Qed.

Lemma bind_lift {A B} (r : result A) (k : A -> M B) w x :
  r = Ok x -> bind (lift r) k w = k x w.
Proof. intros ->. reflexivity. Qed.

Lemma insert_new {A} (l : list A) x y k :
  <[length l := y]> (l ++ x :: k) = l ++ y :: k.
Proof. rewrite insert_app_r_alt, Nat.sub_diag by lia. reflexivity. Qed.

(** The branch of [fuzzy_search] taken when some row [ks] was found. *)
Lemma fuzzy_search_found argsort_desc self keyword p w fr (ks : list row) :
  NoDup (map fst (rows fr)) -> (forall r, r ∈ ks -> r ∈ rows fr) ->
  let sim := fun r : row => similarity self keyword (Pandas.cell_at p r) in
  exists l' w',
    (do sel <- alloc (Pandas.loc_labels fr (map fst ks)) in
     do results <- copy sel in
     run update results
           (Pandas.setitem score_column (map CInt (map sim ks))) in
     sort_values argsort_desc results score_column) w
    = (Ok l', w')
    /\ store w' !! l'
       = Some (Frame (score_columns (columns fr))
                 (Pandas.take
                    (map (with_score self keyword p (columns fr)) ks)
                    (argsort_desc (map sim ks)))).
Proof.
  intros Hnd Hin sim.
  assert (Hloc : Pandas.loc_labels fr (map fst ks) = Frame (columns fr) ks).
  { unfold Pandas.loc_labels. f_equal.
    apply loc_rows_selection; assumption. }
  assert (Hupd : Pandas.setitem score_column (map CInt (map sim ks))
                   (Frame (columns fr) ks)
                 = Ok (Frame (score_columns (columns fr))
                         (map (with_score self keyword p (columns fr)) ks))).
  { unfold Pandas.setitem. cbn [rows columns].
    rewrite !length_map, Nat.eqb_refl, map_map.
    unfold score_columns, with_score, score_pos.
    destruct (Pandas.col_pos score_column (columns fr));
      rewrite set_cells_map; reflexivity. }
  rewrite Hloc, bind_alloc.
  unfold copy. rewrite bind_assoc.
  rewrite (bind_deref _ _ _ (Frame (columns fr) ks))
    by (cbn [store]; apply lookup_new).
  rewrite bind_alloc. cbn [store shown].
  erewrite bind_update; [|cbn [store]; apply lookup_new|exact Hupd].
  cbn [store shown]. rewrite insert_new.
  unfold sort_values.
  erewrite bind_deref; [|cbn [store]; apply lookup_new].
  erewrite bind_lift;
    [|unfold Pandas.getitem; cbn [columns rows];
      rewrite score_pos_spec; reflexivity].
  cbn [columns rows].
  rewrite (mapM_int_key sim)
    by (intros r; unfold with_score; apply cell_at_set_cell).
  unfold alloc. cbn [store shown]. eexists _, _.
  split; [reflexivity|]. cbn [store]. apply lookup_new.
Qed.

Lemma fuzzy_search_result argsort_desc self keyword column threshold w
      (l : loc) fr p :
  df self = Some l -> store w !! l = Some fr ->
  Pandas.col_pos column (columns fr) = Some p ->
  NoDup (map fst (rows fr)) ->
  small_texts keyword p (rows fr) ->
  exists l' w',
    fuzzy_search argsort_desc self keyword column threshold w = (Ok l', w')
    /\ store w' !! l'
       = Some (fuzzy_frame argsort_desc self keyword threshold p fr).
Proof.
  intros Hdf Hl Hp Hnd Hsmall.
  unfold fuzzy_search, self_df. rewrite Hdf.
  rewrite bind_assoc, (bind_deref _ _ _ _ Hl).
  unfold ret at 1. unfold bind at 1. cbn [fst snd].
  erewrite bind_lift; [|apply (fuzzy_scan_result _ _ _ _ _ p); assumption].
  cbn [fst snd app]. unfold fuzzy_frame.
  assert (Hfound : forall r,
             r ∈ hits (fuzzy_match self keyword threshold) p (rows fr) ->
             r ∈ rows fr).
  { intros r Hr. unfold hits in Hr.
    apply list_elem_of_filter in Hr. tauto. }
  destruct (hits (fuzzy_match self keyword threshold) p (rows fr))
    as [|r0 found'] eqn:Efound.
  - cbn [map]. unfold alloc. eexists _, _. split; [reflexivity|].
    cbn [store]. apply lookup_new.
  - apply (fuzzy_search_found argsort_desc self keyword p w fr
             (r0 :: found') Hnd Hfound).
Qed.

(** The rows of the result are the scored matching rows, in some
    order. *)
Lemma fuzzy_frame_perm argsort_desc self keyword threshold p fr :
  Argsort.sorts_descending argsort_desc ->
  rows (fuzzy_frame argsort_desc self keyword threshold p fr)
  ≡ₚ map (with_score self keyword p (columns fr))
       (hits (fuzzy_match self keyword threshold) p (rows fr)).
Proof.
  intros Hsort. unfold fuzzy_frame.
  destruct (hits (fuzzy_match self keyword threshold) p (rows fr))
    as [|r0 found'] eqn:E; [reflexivity|].
  cbn [rows]. apply take_perm.
  destruct (Hsort (map (fun r => similarity self keyword (Pandas.cell_at p r))
                     (r0 :: found'))) as [Hp _].
  rewrite Hp, !length_map. reflexivity.
Qed.

(** Along the result the scores do not increase. *)
Lemma fuzzy_frame_sorted argsort_desc self keyword threshold p fr :
  Argsort.sorts_descending argsort_desc ->
  exists zs,
    map (Pandas.cell_at (score_pos (columns fr)))
      (rows (fuzzy_frame argsort_desc self keyword threshold p fr))
    = map CInt zs
    /\ StronglySorted (fun x y => y <= x) zs.
Proof.
  intros Hsort. unfold fuzzy_frame.
  destruct (hits (fuzzy_match self keyword threshold) p (rows fr))
    as [|r0 found'] eqn:E.
  - exists []. split; [reflexivity|constructor].
  - cbn [rows].
    set (sim := fun r : row => similarity self keyword (Pandas.cell_at p r)).
    exists (omap (fun i => map sim (r0 :: found') !! i)
              (argsort_desc (map sim (r0 :: found')))).
    split.
    + apply take_keys. intros r. unfold with_score.
      apply cell_at_set_cell.
    + apply ArgsortFacts.keys_along_sorted.
      apply (Hsort (map sim (r0 :: found'))).
Qed.

End FuzzyFacts.

(* ===================================================================== *)
(** * The claims *)
(* ===================================================================== *)

Module Claims.
Import Spec SearchFacts StoreFacts.

Lemma lstrip_blank s : PyStr.blank s = true -> PyStr.lstrip s = EmptyString.
Proof.
  induction s as [|c s IH]; simpl; [reflexivity|].
  destruct (PyStr.is_space c); simpl; [exact IH|discriminate].
Qed.

Lemma strip_blank s : PyStr.blank s = true -> PyStr.strip s = EmptyString.
Proof. intros H. unfold PyStr.strip. rewrite lstrip_blank by exact H. reflexivity. Qed.

Lemma prefix_prefixes s : forall pat,
  String.prefix pat s = true -> pat ∈ PyStr.prefixes s.
Proof.
  induction s as [|c s IH]; intros [|a pat] H; simpl in *;
    try discriminate; try (left; fail).
  destruct (ascii_dec a c) as [->|]; [|discriminate].
  right. apply list_elem_of_fmap. exists pat. split; [reflexivity|].
  apply IH. exact H.
Qed.

Lemma contains_substrings s : forall pat,
  PyStr.contains pat s = true -> pat ∈ PyStr.substrings s.
Proof.
  induction s as [|c s IH]; intros pat H.
  - simpl in H. rewrite orb_false_r in H.
    apply (prefix_prefixes EmptyString). exact H.
  - cbn [PyStr.contains] in H. cbn [PyStr.substrings].
    apply elem_of_app. apply orb_true_iff in H as [H|H].
    + left. apply prefix_prefixes. exact H.
    + right. apply IH. exact H.
Qed.

(** Every substring of "nan" is a plain pattern in lower case. *)
Lemma substrings_nan pat :
  PyStr.contains pat "nan" = true ->
  Re.plain pat = true /\ PyStr.lower pat = pat.
Proof.
  intros H. apply contains_substrings in H. revert pat H.
  apply Forall_forall. vm_compute. repeat constructor.
Qed.

(** C7. ExactMatch. The frame [exact_search] returns has the columns of
    the dataset (no score column is added) and exactly those rows whose
    cell, coerced to text, equals the keyword, both lower-cased when case
    is ignored and both left alone otherwise; the rows come in dataset
    order. *)
Theorem exact_search_matches self keyword column w (l : loc) fr p :
  df self = Some l -> store w !! l = Some fr ->
  Pandas.col_pos column (columns fr) = Some p ->
  exists l' w' fr',
    exact_search self keyword column w = (Ok l', w')
    /\ store w' !! l' = Some fr'
    /\ columns fr' = columns fr
    /\ rows fr' = hits (exact_match self keyword) p (rows fr)
    /\ rows fr' `sublist_of` rows fr
    /\ forall r,
         r ∈ rows fr'
         <-> r ∈ rows fr
             /\ normalize self (astype_str (Pandas.cell_at p r))
                = normalize self keyword.
Proof.
  intros Hdf Hl Hp.
  eexists _, _, _. split; [apply (exact_search_result _ _ _ _ _ _ _ Hdf Hl Hp)|].
  cbn [store]. split.
  { rewrite (lookup_app_r (store w)) by lia.
    replace (S (length (store w)) - length (store w))%nat with 1%nat by lia.
    reflexivity. }
  cbn [columns rows].
  split; [reflexivity|]. split; [reflexivity|].
  split; [apply sublist_filter|].
  intros r. unfold hits. rewrite list_elem_of_filter.
  unfold exact_match. rewrite String.eqb_eq. tauto.
Qed.

Lemma exact_search_matches_witness :
  exists l' w' fr',
    exact_search (Sample.tool_for "exact" "Apple Japan" 60 true)
      "Apple Japan" "name" (Sample.loaded Sample.companies) = (Ok l', w')
    /\ store w' !! l' = Some fr'
    /\ rows fr' = [(0%nat, [CStr "Apple Japan"; CObj "150" "150"]);
                   (1%nat, [CStr "apple japan"; CObj "25" "25"])].
Proof.
  destruct (exact_search_matches
              (Sample.tool_for "exact" "Apple Japan" 60 true)
              "Apple Japan" "name" (Sample.loaded Sample.companies)
              0%nat Sample.companies 0%nat eq_refl eq_refl eq_refl)
    as (l' & w' & fr' & E & Hs & _ & Hr & _).
  exists l', w', fr'. split; [exact E|]. split; [exact Hs|].
  rewrite Hr. reflexivity.
Defined.

(** C8. A keyword that is empty or all white space stops [execute_search]
    at once, in every mode: it shows a warning and returns, with the tool
    (its earlier results included) and every frame untouched, so no row is
    scanned and no empty result set is put in place. *)
Theorem execute_search_blank_keyword re_compile argsort_desc self w :
  PyStr.blank (search_keyword self) = true ->
  exists msg,
    execute_search re_compile argsort_desc self w
    = (self, World (store w) (shown w ++ [ShowWarning msg])).
Proof.
  intros Hb. unfold execute_search.
  destruct (df self); [|eexists; reflexivity].
  rewrite (strip_blank _ Hb). eexists. reflexivity.
Qed.

Lemma execute_search_blank_keyword_witness :
  exists msg,
    execute_search Re.compile_plain Argsort.stable_desc
      (Sample.tool_for "fuzzy" "   " 60 true)
      (Sample.loaded Sample.companies)
    = (Sample.tool_for "fuzzy" "   " 60 true,
       World [Sample.companies] [ShowWarning msg]).
Proof.
  apply (execute_search_blank_keyword Re.compile_plain Argsort.stable_desc
           (Sample.tool_for "fuzzy" "   " 60 true)
           (Sample.loaded Sample.companies)).
  reflexivity.
Defined.

(** C9. No search changes the dataset.  Whatever [exact_search],
    [partial_search], [fuzzy_search] or [execute_search] do and however
    they end, every frame that was in the store before is there
    afterwards, cell for cell and row for row, and [self.df] still names
    the same frame. *)
Theorem search_keeps_dataset re_compile argsort_desc self w (l : loc) fr :
  store w !! l = Some fr ->
  (forall keyword column,
      store (exact_search self keyword column w).2 !! l = Some fr)
  /\ (forall keyword column,
         store (partial_search re_compile self keyword column w).2 !! l
         = Some fr)
  /\ (forall keyword column threshold,
         store (fuzzy_search argsort_desc self keyword column threshold w).2
               !! l = Some fr)
  /\ store (execute_search re_compile argsort_desc self w).2 !! l = Some fr
  /\ df (execute_search re_compile argsort_desc self w).1 = df self.
Proof.
  intros Hl.
  assert (Hk : forall A (Q : A -> Prop) (m : M A),
             keeps (length (store w)) Q m -> store (m w).2 !! l = Some fr).
  { intros A Q m Hm. destruct (m w) as [r w'] eqn:E.
    destruct (Hm w r w' (Nat.le_refl _) E) as (Ht & _ & _).
    apply (keeps_lookup w); assumption. }
  split; [intros; eapply Hk, keeps_exact_search|].
  split; [intros; eapply Hk, keeps_partial_search|].
  split; [intros; eapply Hk, keeps_fuzzy_search|].
  unfold execute_search.
  destruct (df self) eqn:Hdf; [|split; [exact Hl|exact Hdf]].
  destruct (PyStr.is_empty (PyStr.strip (search_keyword self)));
    [split; [exact Hl|exact Hdf]|].
  destruct (PyStr.is_empty (search_column self));
    [split; [exact Hl|exact Hdf]|].
  pose proof (keeps_search_body re_compile argsort_desc
                (length (store w)) self) as Hb.
  destruct (search_body re_compile argsort_desc self w) as [[self'|e] w']
    eqn:E;
    destruct (Hb w _ w' (Nat.le_refl _) E) as (Ht & _ & HQ); cbn [fst snd].
  - split; [apply (keeps_lookup w); assumption|].
    rewrite (HQ self' eq_refl). exact Hdf.
  - split; [apply (keeps_lookup w); assumption|exact Hdf].
Qed.

Lemma search_keeps_dataset_witness :
  store (execute_search Re.compile_plain Argsort.stable_desc
           (Sample.tool_for "fuzzy" "aple jpan" 60 true)
           (Sample.loaded Sample.companies)).2 !! 0%nat
  = Some Sample.companies.
Proof.
  apply (search_keeps_dataset Re.compile_plain Argsort.stable_desc
           (Sample.tool_for "fuzzy" "aple jpan" 60 true)
           (Sample.loaded Sample.companies) 0%nat Sample.companies).
  reflexivity.
Defined.

(** C10. An empty cell reads as the text "nan" in [exact_search] and
    [partial_search], so it can match: a row whose cell is empty is
    returned by [exact_search] for the keyword "nan", and by
    [partial_search] for every keyword that is a substring of "nan", with
    case ignored or not. *)
Theorem null_cell_matches_nan re_compile self keyword column w
        (l : loc) fr p r :
  Re.agrees re_compile ->
  df self = Some l -> store w !! l = Some fr ->
  Pandas.col_pos column (columns fr) = Some p ->
  r ∈ rows fr -> Pandas.cell_at p r = CNaN ->
  Series.astype_str [Pandas.cell_at p r] = [CStr "nan"]
  /\ (exists l' w' fr',
         exact_search self "nan" column w = (Ok l', w')
         /\ store w' !! l' = Some fr' /\ r ∈ rows fr')
  /\ (PyStr.contains keyword "nan" = true ->
      exists l' w' fr',
        partial_search re_compile self keyword column w = (Ok l', w')
        /\ store w' !! l' = Some fr' /\ r ∈ rows fr').
Proof.
  intros Hre Hdf Hl Hp Hr Hc.
  assert (Hnew : forall res : frame,
             (store w ++ [res; res]) !! S (length (store w)) = Some res).
  { intros res. rewrite (lookup_app_r (store w)) by lia.
    replace (S (length (store w)) - length (store w))%nat with 1%nat by lia.
    reflexivity. }
  split; [rewrite Hc; reflexivity|]. split.
  - eexists _, _, _.
    split; [apply (exact_search_result _ _ _ _ _ _ _ Hdf Hl Hp)|].
    split; [apply Hnew|].
    cbn [rows]. apply list_elem_of_filter. split; [|exact Hr].
    rewrite Hc. unfold exact_match, normalize.
    destruct (ignore_case self); reflexivity.
  - intros Hsub. destruct (substrings_nan _ Hsub) as [Hplain Hlow].
    assert (Hnorm : normalize self keyword = keyword)
      by (unfold normalize; destruct (ignore_case self); auto).
    eexists _, _, _.
    split; [apply (partial_search_result re_compile Hre _ _ _ _ _ _ _
                     Hdf Hl Hp); rewrite Hnorm; exact Hplain|].
    split; [apply Hnew|].
    cbn [rows]. apply list_elem_of_filter. split; [|exact Hr].
    rewrite Hc. unfold partial_match. rewrite Hnorm.
    unfold normalize. destruct (ignore_case self); exact Hsub.
Qed.

Lemma null_cell_matches_nan_witness :
  exists l' w' fr',
    partial_search Re.compile_plain
      (Sample.tool_for "partial" "an" 60 false) "an" "name"
      (Sample.loaded Sample.blank_sheet) = (Ok l', w')
    /\ store w' !! l' = Some fr' /\ (0%nat, [CNaN]) ∈ rows fr'.
Proof.
  apply (null_cell_matches_nan Re.compile_plain
           (Sample.tool_for "partial" "an" 60 false) "an" "name"
           (Sample.loaded Sample.blank_sheet) 0%nat Sample.blank_sheet
           0%nat (0%nat, [CNaN]) compile_plain_agrees eq_refl eq_refl
           eq_refl).
  - apply list_elem_of_here.
  - reflexivity.
  - reflexivity.
Defined.

(** C2, at its failing input.  A sheet whose only row has an empty cell,
    searched in PartialMatch for "nan": [na=False] has nothing to act on,
    the cell has become the text "nan" before [str.contains] sees it, and
    the row is returned. *)
Theorem partial_search_returns_null_row :
  execute_search Re.compile_plain Argsort.stable_desc
    (Sample.tool_for "partial" "nan" 60 true)
    (Sample.loaded Sample.blank_sheet)
  = (Tool (Some 0%nat) (Some 2%nat) "name" "nan" "partial" 60 true
       (StatusDone 1),
     World [Sample.blank_sheet; Sample.blank_sheet; Sample.blank_sheet]
       [RootUpdate; DisplaySearchResults (Some 2%nat); NotebookSelect 1]).
Proof. reflexivity. Qed.

(** C3, as the specification has it, fails where both strings are empty:
    the matcher's ratio is then 1.0 and the score 100, not 0. *)
Lemma both_empty_scores_100 :
  calculate_similarity (Sample.tool_for "fuzzy" "" 60 true) "" (CStr "")
  = Ok 100
  /\ calculate_similarity (Sample.tool_for "fuzzy" "" 60 false) ""
       (CStr "") <> Ok 0.
Proof. split; [reflexivity|discriminate]. Qed.

(** C3, amended.  For strings [a] and [b] (of fewer than 2^53 characters
    together) the basic similarity is an integer from 0 to 100 and no
    exception is raised; it is 0 when exactly one of the two is empty, and
    100 when both are. *)
Theorem sequence_ratio_range self a b :
  Z.of_nat (String.length a + String.length b) < 2 ^ 53 ->
  exists z,
    calculate_similarity self a (CStr b) = Ok z
    /\ 0 <= z <= 100
    /\ ((a = EmptyString /\ b <> EmptyString)
        \/ (a <> EmptyString /\ b = EmptyString) -> z = 0)
    /\ (a = EmptyString /\ b = EmptyString -> z = 100).
Proof.
  intros Hlen.
  destruct (SimilarityFacts.calculate_similarity_range self a (CStr b) Hlen)
    as (z & E & Hz).
  exists z. split; [exact E|]. split; [exact Hz|]. split.
  - intros Hone.
    rewrite SimilarityFacts.calculate_similarity_one_empty in E;
      [congruence|tauto|tauto|assumption].
  - intros [-> ->].
    rewrite SimilarityFacts.calculate_similarity_both_empty in E.
    congruence.
Qed.

Lemma sequence_ratio_range_witness :
  exists z,
    calculate_similarity (Sample.tool_for "fuzzy" "" 60 true) "aple jpan"
      (CStr "Apple Japan") = Ok z
    /\ 0 <= z <= 100.
Proof.
  destruct (sequence_ratio_range (Sample.tool_for "fuzzy" "" 60 true)
              "aple jpan" "Apple Japan") as (z & E & Hz & _).
  - vm_compute. reflexivity.
  - exists z. split; assumption.
Defined.

(** C4, as the specification has it, fails: the matcher looks for the
    longest block that starts earliest in its first argument, so swapping
    the arguments can change the blocks found.  "tide" against "diet"
    scores 25, "diet" against "tide" scores 50. *)
Lemma tide_diet_not_symmetric :
  calculate_similarity (Sample.tool_for "fuzzy" "" 60 true) "tide"
    (CStr "diet") = Ok 25
  /\ calculate_similarity (Sample.tool_for "fuzzy" "" 60 true) "diet"
       (CStr "tide") = Ok 50
  /\ calculate_similarity (Sample.tool_for "fuzzy" "" 60 false) "tide"
       (CStr "diet")
     <> calculate_similarity (Sample.tool_for "fuzzy" "" 60 false) "diet"
          (CStr "tide").
Proof.
  split; [vm_compute; reflexivity|].
  split; [vm_compute; reflexivity|].
  vm_compute. discriminate.
Qed.

(** C4, amended.  When at least one of the strings [a], [b] is empty the
    basic similarity of [a] against [b] equals that of [b] against [a],
    with case ignored or not. *)
Theorem sequence_ratio_symmetric_on_empty self a b :
  a = EmptyString \/ b = EmptyString ->
  Z.of_nat (String.length a + String.length b) < 2 ^ 53 ->
  calculate_similarity self a (CStr b) = calculate_similarity self b (CStr a).
Proof.
  intros Hone Hlen.
  destruct (string_dec a b) as [->|Hne]; [reflexivity|].
  rewrite !SimilarityFacts.calculate_similarity_one_empty;
    try reflexivity; try tauto; try lia.
  all: destruct Hone as [-> | ->];
    solve [left; congruence | right; congruence].
Qed.

Lemma sequence_ratio_symmetric_on_empty_witness :
  calculate_similarity (Sample.tool_for "fuzzy" "" 60 true) "" (CStr "diet")
  = calculate_similarity (Sample.tool_for "fuzzy" "" 60 true) "diet"
      (CStr "").
Proof.
  apply (sequence_ratio_symmetric_on_empty
           (Sample.tool_for "fuzzy" "" 60 true) "" "diet").
  - left. reflexivity.
  - vm_compute. reflexivity.
Defined.

(** C6, as the specification has it, fails on empty input: two empty
    strings are equal after normalization, yet the score is 0, not 100;
    and an empty keyword is contained in any text, yet the score is 0,
    not 85. *)
Lemma empty_input_scores_0 :
  advanced_fuzzy_search (Sample.tool_for "fuzzy" "" 60 true) "" "" = Ok 0
  /\ advanced_fuzzy_search (Sample.tool_for "fuzzy" "" 60 true) "" "abc"
     = Ok 0.
Proof. split; reflexivity. Qed.

(** C6, amended.  The composite score is 0 when the keyword or the text is
    empty.  Otherwise, after case normalization: 100 when the two strings
    are equal; else 85 when one contains the other, whatever their
    lengths; else the integer part of the larger of the sequence-matching
    ratio and the Jaccard token overlap, each scaled to a percentage, and
    that integer is between 0 and 100.  (Strings of fewer than 2^53
    characters together.) *)
Theorem advanced_fuzzy_search_piecewise self keyword text :
  Z.of_nat (String.length keyword + String.length text) < 2 ^ 53 ->
  let k := normalize self keyword in
  let t := normalize self text in
  (keyword = EmptyString \/ text = EmptyString ->
   advanced_fuzzy_search self keyword text = Ok 0)
  /\ (keyword <> EmptyString -> text <> EmptyString ->
      (k = t -> advanced_fuzzy_search self keyword text = Ok 100)
      /\ (k <> t ->
          PyStr.contains k t = true \/ PyStr.contains t k = true ->
          advanced_fuzzy_search self keyword text = Ok 85)
      /\ (k <> t ->
          PyStr.contains k t = false -> PyStr.contains t k = false ->
          exists z,
            advanced_fuzzy_search self keyword text = Ok z
            /\ PyNum.to_int (PyNum.max (seq_percent k t) (word_percent k t))
               = Some z
            /\ 0 <= z <= 100)).
Proof.
  intros Hlen k t. split.
  - unfold advanced_fuzzy_search.
    intros [-> | ->]; [destruct text|]; reflexivity.
  - intros Hk Ht.
    assert (E : advanced_fuzzy_search self keyword text
                = if String.eqb k t then Ok 100
                  else if PyStr.contains k t || PyStr.contains t k
                       then Ok 85
                       else match PyNum.to_int
                                    (PyNum.max (seq_percent k t)
                                       (word_percent k t)) with
                            | Some z => Ok z
                            | None => Raise OverflowError
                            end).
    { unfold advanced_fuzzy_search.
      destruct text; [congruence|]. destruct keyword; [congruence|].
      reflexivity. }
    rewrite E. clear E. repeat split.
    + intros Heq. apply String.eqb_eq in Heq. rewrite Heq. reflexivity.
    + intros Hne Hc. apply String.eqb_neq in Hne. rewrite Hne.
      destruct Hc as [-> | ->]; [reflexivity|].
      rewrite orb_true_r. reflexivity.
    + intros Hne Hc1 Hc2. apply String.eqb_neq in Hne.
      rewrite Hne, Hc1, Hc2. cbn [orb].
      destruct (SimilarityFacts.max_percent k t) as (z & Ez & Hz).
      { unfold k, t. rewrite !normalize_length. exact Hlen. }
      exists z. rewrite Ez. repeat split; trivial; lia.
Qed.

Lemma advanced_fuzzy_search_piecewise_witness :
  advanced_fuzzy_search (Sample.tool_for "fuzzy" "" 60 true) "ab" "xABx"
  = Ok 85.
Proof.
  destruct (advanced_fuzzy_search_piecewise
              (Sample.tool_for "fuzzy" "" 60 true) "ab" "xABx")
    as [_ H].
  - vm_compute. reflexivity.
  - destruct H as (_ & H85 & _); [discriminate|discriminate|].
    apply H85; [discriminate|]. left. reflexivity.
Defined.


Lemma sample_labels_distinct : NoDup (map fst (rows Sample.companies)).
Proof. compute_done. Qed.

Lemma sample_texts_small keyword :
  Z.of_nat (String.length keyword) < 2 ^ 52 ->
  small_texts keyword 0 (rows Sample.companies).
Proof.
  intros Hk. unfold small_texts. apply Forall_forall.
  repeat constructor; simpl; lia.
Qed.


(** C1, as the specification has it, fails on the order of equal scores.
    The code sorts with [sort_values] and its default kind, numpy's
    quicksort, which is not stable.  Twenty rows with the same name score
    100 each; the partition of the quicksort swaps entries with equal
    keys, and the row of index 18 comes back before the row of
    index 17. *)
Lemma equal_scores_reordered :
  exists l' w' fr' (i j : nat) r r',
    fuzzy_search Quicksort.nargsort_desc
      (Sample.tool_for "fuzzy" "apple" 60 true) "apple" "name" 60
      (Sample.loaded Sample.namesakes) = (Ok l', w')
    /\ store w' !! l' = Some fr'
    /\ rows fr' !! i = Some r /\ rows fr' !! j = Some r'
    /\ (i < j)%nat
    /\ Pandas.cell_at 1 r = CInt 100 /\ Pandas.cell_at 1 r' = CInt 100
    /\ (r'.1 < r.1)%nat.
Proof.
  eexists _, _, _, 2%nat, 3%nat,
    (18%nat, [CStr "apple"; CInt 100]), (17%nat, [CStr "apple"; CInt 100]).
  split; [vm_compute; reflexivity|].
  split; [vm_compute; reflexivity|].
  split; [vm_compute; reflexivity|].
  split; [vm_compute; reflexivity|].
  split; [lia|]. split; [reflexivity|]. split; [reflexivity|].
  simpl. lia.
Qed.

(** C1, amended.  For every dataset (with distinct row labels) and every
    FuzzyMatch search, sorted as pandas and numpy sort by default: the
    returned rows are the matching rows with their scores, in an order
    along which the score never increases.  Nothing is promised about
    the order of rows with equal scores. *)
Theorem fuzzy_search_descending self keyword column threshold
        w (l : loc) fr p :
  df self = Some l -> store w !! l = Some fr ->
  Pandas.col_pos column (columns fr) = Some p ->
  NoDup (map fst (rows fr)) ->
  small_texts keyword p (rows fr) ->
  exists l' w' fr' zs,
    fuzzy_search Quicksort.nargsort_desc self keyword column threshold w
    = (Ok l', w')
    /\ store w' !! l' = Some fr'
    /\ rows fr'
       ≡ₚ map (with_score self keyword p (columns fr))
            (hits (fuzzy_match self keyword threshold) p (rows fr))
    /\ map (Pandas.cell_at (score_pos (columns fr))) (rows fr')
       = map CInt zs
    /\ StronglySorted (fun x y => y <= x) zs.
Proof.
  intros Hdf Hl Hp Hnd Hsmall.
  pose proof QuicksortFacts.nargsort_desc_sorts as Hsort.
  destruct (FuzzyFacts.fuzzy_search_result Quicksort.nargsort_desc self
              keyword column threshold w l fr p Hdf Hl Hp Hnd Hsmall)
    as (l' & w' & E & Hs).
  destruct (FuzzyFacts.fuzzy_frame_sorted Quicksort.nargsort_desc self
              keyword threshold p fr Hsort) as (zs & Hz & Hsorted).
  exists l', w', (fuzzy_frame Quicksort.nargsort_desc self keyword
                    threshold p fr), zs.
  split; [exact E|]. split; [exact Hs|].
  split; [apply FuzzyFacts.fuzzy_frame_perm; exact Hsort|].
  split; assumption.
Qed.

Lemma fuzzy_search_descending_witness :
  exists l' w' fr',
    fuzzy_search Quicksort.nargsort_desc
      (Sample.tool_for "fuzzy" "aple jpan" 10 true) "aple jpan" "name" 10
      (Sample.loaded Sample.companies) = (Ok l', w')
    /\ store w' !! l' = Some fr'
    /\ map (Pandas.cell_at 2) (rows fr') = map CInt [90; 90; 33]
    /\ StronglySorted (fun x y => y <= x) [90; 90; 33].
Proof.
  destruct (fuzzy_search_descending
              (Sample.tool_for "fuzzy" "aple jpan" 10 true) "aple jpan"
              "name" 10 (Sample.loaded Sample.companies) 0%nat
              Sample.companies 0%nat
              eq_refl eq_refl eq_refl sample_labels_distinct
              (sample_texts_small "aple jpan" eq_refl))
    as (l' & w' & fr' & zs & E & Hs & _ & Hz & Hsorted).
  exists l', w', fr'. split; [exact E|]. split; [exact Hs|].
  assert (Hfr : map (Pandas.cell_at 2) (rows fr') = map CInt [90; 90; 33]).
  { vm_compute in E. injection E as <- <-.
    vm_compute in Hs. injection Hs as <-. reflexivity. }
  split; [exact Hfr|].
  change (score_pos (columns Sample.companies)) with 2%nat in Hz.
  rewrite Hfr in Hz.
  assert (Ez : zs = [90; 90; 33]).
  { clear - Hz. revert Hz.
    destruct zs as [|a [|b [|c [|d zs]]]]; simpl; try discriminate.
    intros H. injection H as -> -> ->. reflexivity. }
  rewrite <- Ez. exact Hsorted.
Defined.

End Claims.

(* ===================================================================== *)
(** * The window: previews, saving and clearing *)
(* ===================================================================== *)

(** The methods of [ExcelSearchTool] around the search.  Of [self] they
    read and write the fields of [tool]; every text they put in
    [status_var] is one of those [StatusOther] stands for.  The text
    widgets [data_text] and [result_text] are not fields of [tool]: a
    display method returns the chunks it inserts, in order, after its
    [delete(1.0, tk.END)]. *)

Module Window.

(** The character a Python literal writes as a backslash and an n. *)
Definition nl : string := String (ascii_of_nat 10) EmptyString.

(** [c * n] for a one-character string. *)
Fixpoint times (c : ascii) (n : nat) : string :=
  match n with
  | O => EmptyString
  | S n' => String c (times c n')
  end.

(** [f"{s:<15}"]: [s], then blanks up to the width; a longer [s] is kept
    whole. *)
Definition ljust (width : nat) (s : string) : string :=
  s +:+ times " " (width - String.length s).

(** [f"{n:3d}"] on the digits of [n]: blanks first. *)
Definition rjust (width : nat) (s : string) : string :=
  times " " (width - String.length s) +:+ s.

(** [sep.join(parts)] *)
Fixpoint join (sep : string) (parts : list string) : string :=
  match parts with
  | [] => EmptyString
  | p :: ps =>
      match ps with
      | [] => p
      | _ => p +:+ sep +:+ join sep ps
      end
  end.

(** [" | ".join([f"{col:<15}" for col in x.columns])] *)
Definition headers (cols : list string) : string :=
  join " | " (map (ljust 15) cols).

(** [row.values]: one value for each column. *)
Definition values (cols : list string) (r : row) : list cell :=
  map (fun p => Pandas.cell_at p r) (seq 0 (length cols)).

(** [" | ".join([f"{str(val):<15}" for val in row.values])] *)
Definition row_data (cols : list string) (r : row) : string :=
  join " | " (map (fun val => ljust 15 (py_str val)) (values cols r)).

(** [f"[{idx+1:3d}] {row_data}\n"] *)
Definition row_line (cols : list string) (r : row) : string :=
  "[" +:+ rjust 3 (PyStr.of_int (Z.of_nat r.1 + 1)) +:+ "] "
  +:+ row_data cols r +:+ nl.

(** [x.head(n)] *)
Definition head (n : nat) (fr : frame) : frame :=
  Frame (columns fr) (take n (rows fr)).

(** The lines both displays write for a frame: the heading with the
    column names, the rule under it, the first [shown] rows. *)
Definition table (shown : nat) (fr : frame) : list string :=
  let headers := headers (columns fr) in
  ["列名: " +:+ headers +:+ nl; times "-" (String.length headers) +:+ nl]
  ++ map (row_line (columns fr)) (rows (head shown fr)).

(** [f"\n... 他 {len(x) - shown} 行"], when there are more rows. *)
Definition more_rows (shown : nat) (fr : frame) (tail : string)
  : list string :=
  if (shown <? length (rows fr))%nat
  then [nl +:+ "... 他 "
        +:+ PyStr.of_int (Z.of_nat (length (rows fr)) - Z.of_nat shown)
        +:+ " 行" +:+ tail]
  else [].

(** The body of [display_data_preview], for the frame [self.df] is. *)
Definition data_preview (d : option frame) : list string :=
  match d with
  | None => ["データが読み込まれていません。"]
  | Some fr => table 20 fr ++ more_rows 20 fr EmptyString
  end.

Definition display_data_preview (self : tool) : M (list string) :=
  match df self with
  | None => ret (data_preview None)
  | Some l => do fr <- deref l in ret (data_preview (Some fr))
  end.

(** What [display_search_results] shows when there is nothing to show. *)
Definition search_hints : list string :=
  ["検索結果が見つかりませんでした。" +:+ nl +:+ nl;
   "検索のヒント:" +:+ nl;
   "• 完全一致: 文字列が完全に一致する場合のみ" +:+ nl;
   "• 部分一致: キーワードが含まれている場合" +:+ nl;
   "• 曖昧検索: 似たような文字列も含める（誤字脱字に強い）" +:+ nl;
   "• 大文字小文字を無視: チェックで区別しない" +:+ nl].

(** The body of [display_search_results], for the frame
    [self.search_results] is. *)
Definition results_view (mode : string) (d : option frame) : list string :=
  match d with
  | None => search_hints
  | Some fr =>
      if (length (rows fr) =? 0)%nat then search_hints
      else
        ["検索結果: " +:+ PyStr.of_int (Z.of_nat (length (rows fr)))
         +:+ "件" +:+ nl;
         "検索モード: " +:+ mode +:+ nl]
        ++ table 50 fr
        ++ more_rows 50 fr "（保存時には全件出力されます）"
  end.

Definition display_search_results (self : tool) : M (list string) :=
  match search_results self with
  | None => ret (results_view (search_mode self) None)
  | Some l =>
      do fr <- deref l in ret (results_view (search_mode self) (Some fr))
  end.

(** The loop of [apply_excel_styles] over one worksheet column; [texts]
    are the [str(cell.value)] of its cells, the header cell first. *)
Definition max_length (texts : list string) : nat :=
  fold_left
    (fun max_length text =>
       if (max_length <? String.length text)%nat
       then String.length text else max_length)
    texts O.

Definition adjusted_width (texts : list string) : nat :=
  Nat.min (max_length texts + 2) 50.

(** [clear_all] on the fields of [tool]; it also empties [self.columns],
    the two file paths and the two text widgets. *)
Definition clear_all (self : tool) : tool :=
  Tool None None EmptyString EmptyString (search_mode self)
    (similarity_threshold self) (ignore_case self) StatusOther.

(** The frame [save_results] writes to the sheet of the search
    conditions. *)
Definition search_info (self : tool) : frame :=
  Frame ["検索条件"; "値"]
    [(0%nat, [CStr "検索キーワード"; CStr (search_keyword self)]);
     (1%nat, [CStr "検索対象列"; CStr (search_column self)]);
     (2%nat, [CStr "検索モード"; CStr (search_mode self)]);
     (3%nat, [CStr "大文字小文字無視";
              CStr (if ignore_case self then "True" else "False")])].

(** How [save_results] ends. *)
Inductive saved :=
| NothingToSave
  (** the warning that there is no result to save *)
| NoOutputFile
  (** the warning that no output file is given *)
| Saved (path : string) (sheets : list (string * frame)) (count : nat)
  (** the workbook is written; the message reports [count] rows *)
| SaveError (e : exn)
  (** writing raised; the error is shown *).

Section Files.

(** Leaving [with pd.ExcelWriter(output_path, engine='openpyxl')] after
    the [to_excel] calls, which put the sheets in the workbook in this
    order, each without its index. *)
Variable write_excel : string -> list (string * frame) -> result unit.

(** The body of the [try] of [save_results]. *)
Definition save_body (self : tool) (results : frame) (output_path : string)
  : M (list (string * frame)) :=
  run emit RootUpdate in
  do data <-
    match df self with
    | Some l => do fr <- deref l in ret [("元データ（抜粋）", head 1000 fr)]
    | None => ret []
    end in
  let sheets :=
    [("検索結果", results); ("検索条件", search_info self)] ++ data in
  run lift (write_excel output_path sheets) in
  ret sheets.

Definition save_results (self : tool) (output_file_path : string)
  : M (tool * saved) :=
  match search_results self with
  | None =>
      run emit (ShowWarning "保存する検索結果がありません。") in
      ret (self, NothingToSave)
  | Some r =>
      do results <- deref r in
      if (length (rows results) =? 0)%nat then
        run emit (ShowWarning "保存する検索結果がありません。") in
        ret (self, NothingToSave)
      else if PyStr.is_empty output_file_path then
        run emit (ShowWarning "保存先ファイルを指定してください。") in
        ret (self, NoOutputFile)
      else
        fun w =>
          match save_body self results output_file_path w with
          | (Ok sheets, w') =>
              (Ok (set_status StatusOther self,
                   Saved output_file_path sheets (length (rows results))),
               w')
          | (Raise e, w') =>
              (Ok (set_status StatusOther self, SaveError e),
               (emit (ShowError e) w').2)
          end
  end.

End Files.

End Window.

(* ===================================================================== *)
(** * More about the three search methods *)
(* ===================================================================== *)

Module SearchLaws.
Import Spec SearchFacts.


Lemma lower_char_idem c :
  PyStr.lower_char (PyStr.lower_char c) = PyStr.lower_char c.
Proof. destruct c as [[] [] [] [] [] [] [] []]; reflexivity. Qed.

Lemma lower_idem s : PyStr.lower (PyStr.lower s) = PyStr.lower s.
Proof.
  induction s as [|c s IH]; simpl; [reflexivity|].
  rewrite lower_char_idem, IH. reflexivity.
Qed.

Lemma prefix_refl s : String.prefix s s = true.
Proof.
  induction s as [|c s IH]; simpl; [reflexivity|].
  destruct (ascii_dec c c); [exact IH|congruence].
Qed.

Lemma contains_refl s : PyStr.contains s s = true.
Proof.
  destruct s as [|c s]; [reflexivity|].
  cbn [PyStr.contains]. rewrite (prefix_refl (String c s)). reflexivity.
Qed.



Lemma filter_sublist_impl {A} (P Q : A -> Prop)
      `{forall x, Decision (P x)} `{forall x, Decision (Q x)} (l : list A) :
  (forall x, P x -> Q x) -> filter P l `sublist_of` filter Q l.
Proof.
  intros Himp. induction l as [|x l IH]; [reflexivity|].
  rewrite !filter_cons.
  destruct (decide (P x)) as [HP|HP].
  - rewrite decide_True by auto. constructor. exact IH.
  - destruct (decide (Q x)); [constructor|]; exact IH.
Qed.

Lemma hits_sublist (f g : cell -> bool) p rs :
  (forall c, f c = true -> g c = true) ->
  hits f p rs `sublist_of` hits g p rs.
Proof. intros H. apply filter_sublist_impl. intros r. apply H. Qed.

Lemma calculate_similarity_lower self keyword c :
  ignore_case self = true ->
  calculate_similarity self (PyStr.lower keyword) c
  = calculate_similarity self keyword c.
Proof.
  intros H. unfold calculate_similarity. rewrite H, lower_idem. reflexivity.
Qed.

Lemma fuzzy_scan_lower self keyword column threshold cols rs :
  ignore_case self = true ->
  forall acc,
    fuzzy_scan self (PyStr.lower keyword) column threshold cols rs acc
    = fuzzy_scan self keyword column threshold cols rs acc.
Proof.
  intros H. induction rs as [|r rs IH]; intros acc; [reflexivity|].
  cbn [fuzzy_scan]. destruct (Pandas.col_pos column cols); [|reflexivity].
  rewrite calculate_similarity_lower by exact H.
  destruct (calculate_similarity self keyword (Pandas.cell_at n r));
    [apply IH|reflexivity].
Qed.



(** The frame a method hands back in world [w], if it returns one. *)
Definition returned (m : M loc) (w : world) : option frame :=
  match m w with
  | (Ok l, w') => store w' !! l
  | (Raise _, _) => None
  end.

Lemma lookup_second (s : list frame) (x y : frame) :
  (s ++ [x; y]) !! S (length s) = Some y.
Proof.
  rewrite (lookup_app_r s) by lia.
  replace (S (length s) - length s)%nat with 1%nat by lia. reflexivity.
Qed.

Lemma returned_exact self keyword column w (l : loc) fr p :
  df self = Some l -> store w !! l = Some fr ->
  Pandas.col_pos column (columns fr) = Some p ->
  returned (exact_search self keyword column) w
  = Some (Frame (columns fr) (hits (exact_match self keyword) p (rows fr))).
Proof.
  intros Hdf Hl Hp. unfold returned.
  rewrite (exact_search_result _ _ _ _ _ _ _ Hdf Hl Hp).
  cbn [store]. apply lookup_second.
Qed.

Lemma returned_partial re_compile self keyword column w (l : loc) fr p :
  Re.agrees re_compile ->
  df self = Some l -> store w !! l = Some fr ->
  Pandas.col_pos column (columns fr) = Some p ->
  Re.plain (normalize self keyword) = true ->
  returned (partial_search re_compile self keyword column) w
  = Some (Frame (columns fr) (hits (partial_match self keyword) p (rows fr))).
Proof.
  intros Hre Hdf Hl Hp Hplain. unfold returned.
  rewrite (partial_search_result re_compile Hre _ _ _ _ _ _ _ Hdf Hl Hp Hplain).
  cbn [store]. apply lookup_second.
Qed.

Lemma returned_fuzzy argsort_desc self keyword column threshold w
      (l : loc) fr p :
  df self = Some l -> store w !! l = Some fr ->
  Pandas.col_pos column (columns fr) = Some p ->
  NoDup (map fst (rows fr)) -> small_texts keyword p (rows fr) ->
  returned (fuzzy_search argsort_desc self keyword column threshold) w
  = Some (fuzzy_frame argsort_desc self keyword threshold p fr).
Proof.
  intros Hdf Hl Hp Hnd Hsmall. unfold returned.
  destruct (FuzzyFacts.fuzzy_search_result argsort_desc self keyword column
              threshold w l fr p Hdf Hl Hp Hnd Hsmall) as (l' & w' & -> & Hs).
  exact Hs.
Qed.

Lemma bind_returns {A B} (m : M A) (k : A -> M B) w x w' :
  m w = (Ok x, w') -> bind m k w = k x w'.
Proof. intros H. unfold bind. rewrite H. reflexivity. Qed.

Lemma bind_raises {A B} (m : M A) (k : A -> M B) w e w' :
  m w = (Raise e, w') -> bind m k w = (Raise e, w').
Proof. intros H. unfold bind. rewrite H. reflexivity. Qed.

Lemma set_cell_append v cs : Pandas.set_cell (length cs) v cs = cs ++ [v].
Proof. induction cs as [|c cs IH]; simpl; [reflexivity|]. f_equal. exact IH. Qed.

Lemma set_cell_insert v : forall q cs,
  (q < length cs)%nat -> Pandas.set_cell q v cs = <[q := v]> cs.
Proof.
  induction q as [|q IH]; intros [|c cs] H; simpl in *; try lia;
    [reflexivity|].
  f_equal. apply IH. lia.
Qed.

Lemma hits_all (f : cell -> bool) p rs :
  (forall r, r ∈ rs -> f (Pandas.cell_at p r) = true) -> hits f p rs = rs.
Proof.
  intros H. unfold hits. induction rs as [|r rs IH]; [reflexivity|].
  rewrite filter_cons, decide_True by (apply H; left).
  f_equal. apply IH. intros r' Hr'. apply H. right. exact Hr'.
Qed.

Lemma hits_none (f : cell -> bool) p rs :
  (forall r, r ∈ rs -> f (Pandas.cell_at p r) = false) -> hits f p rs = [].
Proof.
  intros H. unfold hits. induction rs as [|r rs IH]; [reflexivity|].
  rewrite filter_cons, decide_False
    by (rewrite (H r) by left; discriminate).
  apply IH. intros r' Hr'. apply H. right. exact Hr'.
Qed.

Lemma bind_emit {B} ev (k : unit -> M B) w :
  bind (emit ev) k w = k tt (World (store w) (shown w ++ [ev])).
Proof. reflexivity. Qed.

Lemma getitem_missing fr column :
  Pandas.col_pos column (columns fr) = None ->
  Pandas.getitem fr column = Raise KeyError.
Proof. intros H. unfold Pandas.getitem. rewrite H. reflexivity. Qed.

Lemma self_df_ok self w (l : loc) fr :
  df self = Some l -> store w !! l = Some fr ->
  self_df self w = (Ok (l, fr), w).
Proof.
  intros Hdf Hl. unfold self_df, bind, deref, ret. rewrite Hdf, Hl.
  reflexivity.
Qed.

Lemma exact_search_missing self keyword column w (l : loc) fr :
  df self = Some l -> store w !! l = Some fr ->
  Pandas.col_pos column (columns fr) = None ->
  exact_search self keyword column w = (Raise KeyError, w).
Proof.
  intros Hdf Hl Hp. unfold exact_search.
  rewrite (bind_returns _ _ _ _ _ (self_df_ok _ _ _ _ Hdf Hl)).
  cbn [snd]. rewrite (getitem_missing _ _ Hp). reflexivity.
Qed.

Lemma partial_search_missing re_compile self keyword column w (l : loc) fr :
  df self = Some l -> store w !! l = Some fr ->
  Pandas.col_pos column (columns fr) = None ->
  partial_search re_compile self keyword column w = (Raise KeyError, w).
Proof.
  intros Hdf Hl Hp. unfold partial_search.
  rewrite (bind_returns _ _ _ _ _ (self_df_ok _ _ _ _ Hdf Hl)).
  cbn [snd]. rewrite (getitem_missing _ _ Hp). reflexivity.
Qed.

Lemma fuzzy_search_missing argsort_desc self keyword column threshold w
      (l : loc) fr :
  df self = Some l -> store w !! l = Some fr ->
  Pandas.col_pos column (columns fr) = None ->
  rows fr <> [] ->
  fuzzy_search argsort_desc self keyword column threshold w
  = (Raise KeyError, w).
Proof.
  intros Hdf Hl Hp Hrows. unfold fuzzy_search.
  rewrite (bind_returns _ _ _ _ _ (self_df_ok _ _ _ _ Hdf Hl)).
  cbn [snd]. destruct (rows fr) as [|r rs]; [congruence|].
  cbn [fuzzy_scan]. rewrite Hp. reflexivity.
Qed.

(** The tool once a search has put its results at [r] and counted [n]
    rows. *)
Definition searched (r : loc) (n : nat) (self : tool) : tool :=
  set_status (StatusDone n) (set_search_results (Some r) self).

(** The rest of [search_body] once the method of the chosen mode has
    returned [r]. *)
Lemma search_body_tail (self : tool) (r : loc) w1 res :
  store w1 !! r = Some res ->
  (run emit (DisplaySearchResults
               (search_results (set_search_results (Some r) self))) in
   run emit (NotebookSelect 1) in
   do n <- result_count (set_search_results (Some r) self) in
   ret (set_status (StatusDone n) (set_search_results (Some r) self))) w1
  = (Ok (searched r (length (rows res)) self),
     World (store w1)
       (shown w1 ++ [DisplaySearchResults (Some r); NotebookSelect 1])).
Proof.
  intros Hr. rewrite !bind_emit. unfold result_count.
  cbn [search_results set_search_results].
  rewrite FuzzyFacts.bind_assoc.
  erewrite FuzzyFacts.bind_deref by (cbn [store]; exact Hr).
  unfold bind, ret. cbn [store shown]. rewrite <- app_assoc. reflexivity.
Qed.

(** [silent m]: [m] shows nothing in the window. *)
Definition silent {A} (m : M A) : Prop :=
  forall w r w', m w = (r, w') -> shown w' = shown w.

Lemma silent_bind {A B} (m : M A) (k : A -> M B) :
  silent m -> (forall x, silent (k x)) -> silent (bind m k).
Proof.
  intros Hm Hk w r w' E. unfold bind in E.
  destruct (m w) as [[x|e] w1] eqn:Em.
  - rewrite (Hk x _ _ _ E). apply (Hm _ _ _ Em).
  - injection E as <- <-. apply (Hm _ _ _ Em).
Qed.

Lemma silent_ret {A} (x : A) : silent (ret x).
Proof. intros w r w' E. unfold ret in E. injection E as <- <-. reflexivity. Qed.

Lemma silent_raise {A} e : silent (@raise A e).
Proof. intros w r w' E. unfold raise in E. injection E as <- <-. reflexivity. Qed.

Lemma silent_lift {A} (x : result A) : silent (lift x).
Proof. intros w r w' E. unfold lift in E. injection E as <- <-. reflexivity. Qed.

Lemma silent_alloc fr : silent (alloc fr).
Proof. intros w r w' E. unfold alloc in E. injection E as <- <-. reflexivity. Qed.

Lemma silent_deref (l : loc) : silent (deref l).
Proof.
  intros w r w' E. unfold deref in E.
  destruct (store w !! l); injection E as <- <-; reflexivity.
Qed.

Lemma silent_update (l : loc) f : silent (update l f).
Proof.
  intros w r w' E. unfold update in E.
  destruct (store w !! l) as [fr|]; [destruct (f fr)|];
    injection E as <- <-; reflexivity.
Qed.

Lemma silent_copy (l : loc) : silent (copy l).
Proof.
  unfold copy. apply silent_bind; [apply silent_deref|].
  intros fr. apply silent_alloc.
Qed.

Lemma silent_self_df self : silent (self_df self).
Proof.
  unfold self_df. destruct (df self); [|apply silent_raise].
  apply silent_bind; [apply silent_deref|]. intros fr. apply silent_ret.
Qed.

Lemma silent_sort_values argsort_desc (l : loc) column :
  silent (sort_values argsort_desc l column).
Proof.
  unfold sort_values. apply silent_bind; [apply silent_deref|]. intros fr.
  apply silent_bind; [apply silent_lift|]. intros ser.
  destruct (mapM Pandas.int_key ser); [apply silent_alloc|apply silent_raise].
Qed.

Lemma silent_fuzzy_search argsort_desc self keyword column threshold :
  silent (fuzzy_search argsort_desc self keyword column threshold).
Proof.
  unfold fuzzy_search. apply silent_bind; [apply silent_self_df|]. intros d.
  apply silent_bind; [apply silent_lift|]. intros found.
  destruct found.2; [apply silent_alloc|].
  apply silent_bind; [apply silent_alloc|]. intros sel.
  apply silent_bind; [apply silent_copy|]. intros results.
  apply silent_bind; [apply silent_update|]. intros _.
  apply silent_sort_values.
Qed.

(** [execute_search] past its three checks, one lemma for each mode. *)
Lemma execute_search_exact re_compile argsort_desc self w (l : loc) fr p :
  df self = Some l -> store w !! l = Some fr ->
  PyStr.is_empty (PyStr.strip (search_keyword self)) = false ->
  PyStr.is_empty (search_column self) = false ->
  Pandas.col_pos (search_column self) (columns fr) = Some p ->
  search_mode self = "exact" ->
  let found :=
    hits (exact_match self (PyStr.strip (search_keyword self))) p (rows fr) in
  execute_search re_compile argsort_desc self w
  = (searched (S (length (store w))) (length found) self,
     World (store w ++ [Frame (columns fr) found; Frame (columns fr) found])
       (shown w ++ [RootUpdate;
                    DisplaySearchResults (Some (S (length (store w))));
                    NotebookSelect 1])).
Proof.
  intros Hdf Hl Hkw Hcol Hp Hmode found.
  assert (Hdf0 : df (set_status StatusSearching self) = Some l) by exact Hdf.
  unfold execute_search. rewrite Hdf, Hkw, Hcol.
  unfold search_body. rewrite bind_emit.
  cbn [search_mode set_status search_keyword search_column].
  rewrite Hmode. change (String.eqb "exact" "exact") with true.
  cbv iota. rewrite !FuzzyFacts.bind_assoc.
  erewrite bind_returns
    by (apply (exact_search_result _ _ _ _ l fr p Hdf0);
        [exact Hl|exact Hp]).
  unfold ret at 1. unfold bind at 1.
  erewrite search_body_tail by (cbn [store]; apply lookup_second).
  cbn [store shown]. unfold searched. rewrite <- app_assoc.
  reflexivity.
Qed.

Lemma execute_search_partial re_compile argsort_desc self w (l : loc) fr p :
  Re.agrees re_compile ->
  df self = Some l -> store w !! l = Some fr ->
  PyStr.is_empty (PyStr.strip (search_keyword self)) = false ->
  PyStr.is_empty (search_column self) = false ->
  Pandas.col_pos (search_column self) (columns fr) = Some p ->
  search_mode self = "partial" ->
  Re.plain (normalize self (PyStr.strip (search_keyword self))) = true ->
  let found :=
    hits (partial_match self (PyStr.strip (search_keyword self))) p
      (rows fr) in
  execute_search re_compile argsort_desc self w
  = (searched (S (length (store w))) (length found) self,
     World (store w ++ [Frame (columns fr) found; Frame (columns fr) found])
       (shown w ++ [RootUpdate;
                    DisplaySearchResults (Some (S (length (store w))));
                    NotebookSelect 1])).
Proof.
  intros Hre Hdf Hl Hkw Hcol Hp Hmode Hplain found.
  assert (Hdf0 : df (set_status StatusSearching self) = Some l) by exact Hdf.
  unfold execute_search. rewrite Hdf, Hkw, Hcol.
  unfold search_body. rewrite bind_emit.
  cbn [search_mode set_status search_keyword search_column].
  rewrite Hmode. change (String.eqb "partial" "exact") with false.
  change (String.eqb "partial" "partial") with true.
  cbv iota. rewrite !FuzzyFacts.bind_assoc.
  erewrite bind_returns
    by (apply (partial_search_result re_compile Hre _ _ _ _ l fr p Hdf0);
        [exact Hl|exact Hp|exact Hplain]).
  unfold ret at 1. unfold bind at 1.
  erewrite search_body_tail by (cbn [store]; apply lookup_second).
  cbn [store shown]. unfold searched. rewrite <- app_assoc.
  reflexivity.
Qed.

Lemma execute_search_fuzzy_frame re_compile argsort_desc self w
      (l : loc) fr p :
  Argsort.sorts_descending argsort_desc ->
  df self = Some l -> store w !! l = Some fr ->
  PyStr.is_empty (PyStr.strip (search_keyword self)) = false ->
  PyStr.is_empty (search_column self) = false ->
  search_mode self = "fuzzy" ->
  Pandas.col_pos (search_column self) (columns fr) = Some p ->
  NoDup (map fst (rows fr)) ->
  small_texts (PyStr.strip (search_keyword self)) p (rows fr) ->
  let keyword := PyStr.strip (search_keyword self) in
  let found :=
    hits (fuzzy_match self keyword (similarity_threshold self)) p (rows fr) in
  exists (r : loc) w' f,
    execute_search re_compile argsort_desc self w
    = (searched r (length found) self, w')
    /\ store w' !! r = Some f
    /\ rows f ≡ₚ map (with_score self keyword p (columns fr)) found
    /\ shown w' = shown w ++ [RootUpdate; DisplaySearchResults (Some r);
                              NotebookSelect 1].
Proof.
  intros Hsort Hdf Hl Hkw Hcol Hmode Hp Hnd Hsmall keyword found.
  assert (Hdf0 : df (set_status StatusSearching self) = Some l) by exact Hdf.
  destruct (FuzzyFacts.fuzzy_search_result argsort_desc
              (set_status StatusSearching self) keyword (search_column self)
              (similarity_threshold self)
              (World (store w) (shown w ++ [RootUpdate])) l fr p
              Hdf0 Hl Hp Hnd Hsmall) as (r & w1 & E & Hs).
  pose proof (silent_fuzzy_search _ _ _ _ _ _ _ _ E) as Hshown.
  cbn [shown] in Hshown.
  pose proof (FuzzyFacts.fuzzy_frame_perm argsort_desc
                (set_status StatusSearching self) keyword
                (similarity_threshold self) p fr Hsort) as Hperm.
  exists r, (World (store w1)
               (shown w1 ++ [DisplaySearchResults (Some r); NotebookSelect 1])),
    (fuzzy_frame argsort_desc (set_status StatusSearching self) keyword
       (similarity_threshold self) p fr).
  split; [|split; [exact Hs|split; [exact Hperm|]]].
  - unfold execute_search. rewrite Hdf, Hkw, Hcol.
    unfold search_body. rewrite bind_emit.
    cbn [search_mode set_status search_keyword search_column
         similarity_threshold].
    rewrite Hmode. change (String.eqb "fuzzy" "exact") with false.
    change (String.eqb "fuzzy" "partial") with false.
    change (String.eqb "fuzzy" "fuzzy") with true.
    cbv iota. rewrite !FuzzyFacts.bind_assoc.
    erewrite bind_returns by exact E.
    unfold ret at 1. unfold bind at 1.
    erewrite search_body_tail by exact Hs.
    rewrite (Permutation_length Hperm), length_map. reflexivity.
  - cbn [shown]. rewrite Hshown, <- app_assoc. reflexivity.
Qed.

(** A saved result, loaded again: it already has a score column. *)
Definition saved_result : frame :=
  Frame ["name"; score_column]
    [(0%nat, [CStr "Apple Japan"; CInt 12]);
     (1%nat, [CStr "Orange Co"; CInt 34])].

(** A sheet with a header and no rows. *)
Definition header_only : frame := Frame ["name"; "staff"] [].

End SearchLaws.

(* ===================================================================== *)
(** * Laws of the matcher *)
(* ===================================================================== *)

Module MatcherLaws.
Import Difflib DifflibFacts.
Local Open Scope nat_scope.

(** The positions of [c] in [l], counted from [s], in increasing
    order. *)
Fixpoint positions (c : ascii) (s : nat) (l : list ascii) : list nat :=
  match l with
  | [] => []
  | x :: l' => (if decide (x = c) then [s] else []) ++ positions c (S s) l'
  end.

Lemma chain_lookup c l : forall s (m : gmap ascii (list nat)),
  fold_left
    (fun (m : gmap ascii (list nat)) (p : nat * ascii) =>
       <[p.2 := default [] (m !! p.2) ++ [p.1]]> m)
    (combine (seq s (length l)) l) m !! c
  = match positions c s l with
    | [] => m !! c
    | ps => Some (default [] (m !! c) ++ ps)
    end.
Proof.
  induction l as [|x l IH]; intros s m; simpl; [reflexivity|].
  rewrite IH. destruct (decide (x = c)) as [->|Hne]; simpl.
  - rewrite lookup_insert_eq. simpl.
    destruct (positions c (S s) l); simpl; [reflexivity|].
    rewrite <- app_assoc. reflexivity.
  - rewrite lookup_insert_ne by assumption. reflexivity.
Qed.

(** [b2j] before the popular elements are purged. *)
Lemma b2j_all_lookup (b : list ascii) c :
  b2j_all b !! c
  = match positions c 0 b with
    | [] => None
    | ps => Some ps
    end.
Proof.
  unfold b2j_all. rewrite chain_lookup, lookup_empty. reflexivity.
Qed.

Lemma elem_of_positions c l : forall s j,
  j ∈ positions c s l <-> s <= j /\ l !! (j - s) = Some c.
Proof.
  induction l as [|x l IH]; intros s j; simpl.
  - split; [intros H; inversion H|intros [_ H]; discriminate].
  - rewrite elem_of_app, IH. split.
    + intros [H|[H1 H2]].
      * destruct (decide (x = c)) as [->|]; [|inversion H].
        apply list_elem_of_singleton in H as ->.
        rewrite Nat.sub_diag. split; [lia|reflexivity].
      * split; [lia|].
        replace (j - s) with (S (j - S s)) by lia. exact H2.
    + intros [H1 H2]. destruct (decide (j = s)) as [->|Hne].
      * rewrite Nat.sub_diag in H2. simpl in H2. injection H2 as ->.
        left. rewrite decide_True by reflexivity. apply list_elem_of_singleton.
        reflexivity.
      * right. split; [lia|].
        replace (j - s) with (S (j - S s)) in H2 by lia. exact H2.
Qed.

Lemma positions_app c l1 : forall s l2,
  positions c s (l1 ++ l2)
  = positions c s l1 ++ positions c (s + length l1) l2.
Proof.
  induction l1 as [|x l1 IH]; intros s l2; simpl.
  - rewrite Nat.add_0_r. reflexivity.
  - rewrite IH, <- app_assoc.
    replace (S s + length l1) with (s + S (length l1)) by lia.
    reflexivity.
Qed.

Section Common.
Variables a b : list ascii.

(** The block is a substring of both sequences. *)
Definition common (m : Match) : Prop :=
  let '(i, j, k) := m in
  forall t, t < k -> same_elt a b (i + t) (j + t) = true.

Lemma b2j_get_same i j : j ∈ b2j_get a b i -> same_elt a b i j = true.
Proof.
  unfold b2j_get, same_elt. intros H.
  destruct (a !! i) as [c|] eqn:Ea; [|inversion H].
  destruct (b2j b !! c) as [js|] eqn:E; simpl in H; [|inversion H].
  apply map_lookup_filter_Some in E as [E _].
  rewrite b2j_all_lookup in E.
  destruct (positions c 0 b) as [|p ps] eqn:P; [discriminate|].
  injection E as <-. rewrite <- P in H.
  apply elem_of_positions in H as [_ H].
  rewrite Nat.sub_0_r in H. rewrite H.
  apply bool_decide_eq_true_2. reflexivity.
Qed.

(** Every run recorded for row [n - 1] ends a common substring. *)
Definition runs_common (n : nat) (m : gmap nat nat) : Prop :=
  forall j k, m !! j = Some k ->
    k <= n /\ k <= j + 1
    /\ forall t, t < k -> same_elt a b (n - 1 - t) (j - t) = true.

Lemma runs_common_empty n : runs_common n ∅.
Proof. intros j k H. simpl in H. rewrite lookup_empty in H. discriminate. Qed.

Lemma flm_inner_common i blo bhi j2len js : forall st,
  runs_common i j2len ->
  (forall j, j ∈ js -> same_elt a b i j = true) ->
  runs_common (i + 1) (newj2len st) ->
  common (besti st, bestj st, bestsize st) ->
  let st' := flm_inner i blo bhi j2len js st in
  runs_common (i + 1) (newj2len st')
  /\ common (besti st', bestj st', bestsize st').
Proof.
  induction js as [|j js IH]; intros st Hold Hjs Hnew Hbest; simpl.
  - split; assumption.
  - assert (Hjs' : forall j0, j0 ∈ js -> same_elt a b i j0 = true).
    { intros j0 H0. apply Hjs. right. exact H0. }
    destruct (Nat.ltb_spec j blo) as [Hlt|Hge]; [apply IH; assumption|].
    destruct (Nat.leb_spec bhi j) as [Hbrk|Hin]; [split; assumption|].
    assert (Hk : j2lenget_pred j2len j + 1 <= i + 1
                 /\ j2lenget_pred j2len j + 1 <= j + 1
                 /\ forall t, t < j2lenget_pred j2len j + 1 ->
                      same_elt a b (i - t) (j - t) = true).
    { assert (H0 : same_elt a b i j = true) by (apply Hjs; left).
      unfold j2lenget_pred. destruct j as [|j'].
      - split; [lia|]. split; [lia|]. intros t Ht.
        replace t with 0 by lia. rewrite !Nat.sub_0_r. exact H0.
      - destruct (j2len !! j') as [k'|] eqn:E; simpl.
        + destruct (Hold _ _ E) as (A & B & C).
          split; [lia|]. split; [lia|]. intros [|t] Ht.
          * rewrite !Nat.sub_0_r. exact H0.
          * replace (i - S t) with (i - 1 - t) by lia.
            replace (S j' - S t) with (j' - t) by lia.
            apply C. lia.
        + split; [lia|]. split; [lia|]. intros t Ht.
          replace t with 0 by lia. rewrite !Nat.sub_0_r. exact H0. }
    destruct Hk as (K1 & K2 & K3).
    apply IH; try assumption.
    + destruct (Nat.ltb_spec (bestsize st) (j2lenget_pred j2len j + 1));
        simpl; intros j0 k0 Hl;
        (destruct (decide (j = j0)) as [<-|Hne];
         [rewrite lookup_insert_eq in Hl; injection Hl as <-;
          split; [lia|]; split; [lia|]; intros t Ht;
          replace (i + 1 - 1 - t) with (i - t) by lia; apply K3; exact Ht
         |rewrite lookup_insert_ne in Hl by assumption;
          exact (Hnew _ _ Hl)]).
    + destruct (Nat.ltb_spec (bestsize st) (j2lenget_pred j2len j + 1));
        simpl; [|exact Hbest].
      intros t Ht.
      replace (i + 1 - (j2lenget_pred j2len j + 1) + t)
        with (i - (j2lenget_pred j2len j - t)) by lia.
      replace (j + 1 - (j2lenget_pred j2len j + 1) + t)
        with (j - (j2lenget_pred j2len j - t)) by lia.
      apply K3. lia.
Qed.

Lemma flm_outer_step_common blo bhi st i :
  runs_common i (newj2len st) ->
  common (besti st, bestj st, bestsize st) ->
  let st' := flm_outer_step a b blo bhi st i in
  runs_common (i + 1) (newj2len st')
  /\ common (besti st', bestj st', bestsize st').
Proof.
  intros Hr Hb. unfold flm_outer_step.
  apply flm_inner_common; try assumption.
  - apply b2j_get_same.
  - apply runs_common_empty.
Qed.

Lemma flm_fold_common blo bhi n : forall i st,
  runs_common i (newj2len st) ->
  common (besti st, bestj st, bestsize st) ->
  let st' := fold_left (flm_outer_step a b blo bhi) (seq i n) st in
  common (besti st', bestj st', bestsize st').
Proof.
  induction n as [|n IH]; intros i st Hr Hb; simpl; [assumption|].
  destruct (flm_outer_step_common blo bhi st i Hr Hb) as [Hr' Hb'].
  apply IH; [|assumption].
  replace (S i) with (i + 1) by lia. assumption.
Qed.

Lemma extend_left_common p alo blo turns : forall m,
  common m -> common (extend_left a b p alo blo turns m).
Proof.
  induction turns as [|t IH]; intros [[bi bj] bs] H; simpl; [assumption|].
  destruct (Nat.ltb_spec alo bi); simpl; [|assumption].
  destruct (Nat.ltb_spec blo bj); simpl; [|assumption].
  destruct (b_sat b p (bj - 1)); simpl; [|assumption].
  destruct (same_elt a b (bi - 1) (bj - 1)) eqn:E; [|assumption].
  apply IH. intros [|u] Hu.
  - rewrite !Nat.add_0_r. exact E.
  - replace (bi - 1 + S u) with (bi + u) by lia.
    replace (bj - 1 + S u) with (bj + u) by lia.
    apply H. lia.
Qed.

Lemma extend_right_common p ahi bhi turns : forall m,
  common m -> common (extend_right a b p ahi bhi turns m).
Proof.
  induction turns as [|t IH]; intros [[bi bj] bs] H; simpl; [assumption|].
  destruct (Nat.ltb_spec (bi + bs) ahi); simpl; [|assumption].
  destruct (Nat.ltb_spec (bj + bs) bhi); simpl; [|assumption].
  destruct (b_sat b p (bj + bs)); simpl; [|assumption].
  destruct (same_elt a b (bi + bs) (bj + bs)) eqn:E; [|assumption].
  apply IH. intros u Hu.
  destruct (decide (u = bs)) as [->|Hne]; [exact E|].
  apply H. lia.
Qed.

Lemma find_longest_match_common alo ahi blo bhi :
  common (find_longest_match a b alo ahi blo bhi).
Proof.
  unfold find_longest_match, extend.
  repeat first [apply extend_right_common | apply extend_left_common].
  unfold flm_scan. apply flm_fold_common.
  - apply runs_common_empty.
  - intros t Ht. simpl in Ht. lia.
Qed.

Lemma blocks_loop_common turns : forall queue blocks bs,
  Forall common blocks ->
  blocks_loop a b turns queue blocks = Some bs -> Forall common bs.
Proof.
  induction turns as [|t IH];
    intros [|[[[alo ahi] blo] bhi] q] blocks bs Hb E; simpl in E;
    try discriminate; try (injection E as <-; assumption).
  destruct (Nat.eqb_spec (find_longest_match a b alo ahi blo bhi).2 0).
  - exact (IH _ _ _ Hb E).
  - refine (IH _ _ _ _ E). apply Forall_app. split; [assumption|].
    constructor; [apply find_longest_match_common|constructor].
Qed.

Lemma found_blocks_common : Forall common (found_blocks a b).
Proof.
  unfold found_blocks.
  destruct (blocks_loop a b _ _ _) as [bs|] eqn:E; simpl; [|constructor].
  refine (blocks_loop_common _ _ _ _ _ E). constructor.
Qed.

Lemma insert_match_common x l :
  common x -> Forall common l -> Forall common (insert_match x l).
Proof.
  intros Hx. induction 1 as [|y l Hy Hl IH]; simpl.
  - constructor; [assumption|constructor].
  - destruct (match_leb x y); repeat constructor; assumption.
Qed.

Lemma sort_matches_common l :
  Forall common l -> Forall common (sort_matches l).
Proof.
  induction 1 as [|x l Hx Hl IH]; simpl; [constructor|].
  apply insert_match_common; assumption.
Qed.

Lemma collapse_common l : forall cur,
  common cur -> Forall common l -> Forall common (collapse cur l).
Proof.
  induction l as [|[[i2 j2] k2] l IH]; intros [[i1 j1] k1] Hc Hl; simpl.
  - destruct (k1 =? 0); repeat constructor; assumption.
  - inversion Hl as [|? ? H2 Hl']; subst.
    destruct (Nat.eqb_spec (i1 + k1) i2) as [Ei|]; simpl.
    + destruct (Nat.eqb_spec (j1 + k1) j2) as [Ej|]; simpl.
      * apply IH; [|assumption]. intros t Ht.
        destruct (Nat.lt_ge_cases t k1) as [Hlt|Hge]; [apply Hc; exact Hlt|].
        replace (i1 + t) with (i2 + (t - k1)) by lia.
        replace (j1 + t) with (j2 + (t - k1)) by lia.
        apply H2. lia.
      * apply Forall_app. split; [|apply IH; assumption].
        destruct (k1 =? 0); repeat constructor; assumption.
    + apply Forall_app. split; [|apply IH; assumption].
      destruct (k1 =? 0); repeat constructor; assumption.
Qed.

Lemma get_matching_blocks_common : Forall common (get_matching_blocks a b).
Proof.
  unfold get_matching_blocks. apply Forall_app. split.
  - apply collapse_common.
    + intros t Ht. lia.
    + apply sort_matches_common, found_blocks_common.
  - constructor; [|constructor]. intros t Ht. lia.
Qed.

Lemma same_elt_true i j :
  same_elt a b i j = true ->
  exists c, a !! i = Some c /\ b !! j = Some c.
Proof.
  unfold same_elt. destruct (a !! i) as [x|]; [|discriminate].
  destruct (b !! j) as [y|]; [|discriminate].
  intros H. apply bool_decide_eq_true_1 in H as ->.
  exists y. split; reflexivity.
Qed.

(** More turns than needed change nothing. *)
Lemma blocks_loop_more turns : forall turns' queue blocks bs,
  blocks_loop a b turns queue blocks = Some bs -> turns <= turns' ->
  blocks_loop a b turns' queue blocks = Some bs.
Proof.
  induction turns as [|t IH];
    intros turns' [|[[[alo ahi] blo] bhi] q] blocks bs E Hle;
    try (destruct turns'; exact E); try discriminate.
  destruct turns' as [|t']; [lia|].
  cbn [blocks_loop] in E |- *.
  destruct (Nat.eqb_spec (find_longest_match a b alo ahi blo bhi).2 0);
    apply (IH t' _ _ _ E); lia.
Qed.

End Common.

(** ** A sequence against itself *)

Lemma flm_inner_app i blo bhi j2len l1 : forall l2 st,
  Forall (fun j => j < bhi) l1 ->
  flm_inner i blo bhi j2len (l1 ++ l2) st
  = flm_inner i blo bhi j2len l2 (flm_inner i blo bhi j2len l1 st).
Proof.
  induction l1 as [|j l1 IH]; intros l2 st H; simpl; [reflexivity|].
  inversion H as [|? ? Hj Hl]; subst.
  destruct (j <? blo); [apply IH; assumption|].
  destruct (Nat.leb_spec bhi j); [lia|].
  apply IH. assumption.
Qed.

Lemma positions_bounds c l s j :
  j ∈ positions c s l -> s <= j /\ j < s + length l.
Proof.
  intros H. apply elem_of_positions in H as [H1 H2].
  apply lookup_lt_Some in H2. lia.
Qed.

Section Same.
Variable s : list ascii.

(** Whether the element at [i] has an entry in [b2j]. *)
Definition kept (i : nat) : bool :=
  match b2j_get s s i with
  | [] => false
  | _ => true
  end.

(** The length of the run of kept elements that ends at [i]. *)
Fixpoint diag (i : nat) : nat :=
  match i with
  | O => if kept 0 then 1 else 0
  | S i' => if kept (S i') then diag i' + 1 else 0
  end.

Definition pred_diag (i : nat) : nat :=
  match i with
  | O => 0
  | S i' => diag i'
  end.

Lemma diag_eq i : diag i = if kept i then pred_diag i + 1 else 0.
Proof. destruct i; reflexivity. Qed.

Lemma b2j_get_row i j :
  j ∈ b2j_get s s i ->
  b2j_get s s j = b2j_get s s i /\ j < length s /\ i < length s.
Proof.
  intros H. pose proof (b2j_get_same s s i j H) as E.
  apply same_elt_true in E as (c & Ei & Ej).
  split; [unfold b2j_get; rewrite Ei, Ej; reflexivity|].
  split; eapply lookup_lt_Some; eassumption.
Qed.

Lemma kept_row i j : j ∈ b2j_get s s i -> kept j = true /\ kept i = true.
Proof.
  intros H. destruct (b2j_get_row i j H) as (E & _).
  unfold kept. rewrite E.
  destruct (b2j_get s s i); [inversion H|split; reflexivity].
Qed.

(** The row of a kept element lists its own position, after the smaller
    positions and before the larger ones. *)
Lemma kept_split i :
  kept i = true ->
  exists l1 l2,
    b2j_get s s i = l1 ++ i :: l2
    /\ Forall (fun j => j < i) l1 /\ Forall (fun j => i < j) l2.
Proof.
  unfold kept, b2j_get. intros H.
  destruct (s !! i) as [c|] eqn:Ec; [|discriminate].
  destruct (b2j s !! c) as [js|] eqn:E; simpl in *; [|discriminate].
  apply map_lookup_filter_Some in E as [E _].
  rewrite b2j_all_lookup in E.
  assert (P : positions c 0 s
              = positions c 0 (take i s)
                ++ i :: positions c (S i) (drop (S i) s)).
  { transitivity (positions c 0 (take i s ++ c :: drop (S i) s)).
    - f_equal. symmetry. apply take_drop_middle. exact Ec.
    - rewrite positions_app. simpl.
      rewrite decide_True by reflexivity.
      rewrite length_take, Nat.min_l
        by (apply Nat.lt_le_incl; eapply lookup_lt_Some; exact Ec).
      reflexivity. }
  rewrite P in E.
  exists (positions c 0 (take i s)), (positions c (S i) (drop (S i) s)).
  split.
  - destruct (positions c 0 (take i s)); simpl in E |- *; congruence.
  - split; apply Forall_forall; intros j Hj;
      apply positions_bounds in Hj.
    + rewrite length_take in Hj. lia.
    + lia.
Qed.

Lemma not_kept i : kept i = false -> b2j_get s s i = [].
Proof. unfold kept. destruct (b2j_get s s i); [reflexivity|discriminate]. Qed.

(** The runs of the row before [i]. *)
Definition prev_ok (i : nat) (J : gmap nat nat) : Prop :=
  (forall j k, J !! j = Some k ->
     1 <= k /\ k <= diag j /\ k <= pred_diag i)
  /\ j2lenget_pred J i = pred_diag i.

(** The runs of row [i]. *)
Definition cur_ok (i : nat) (N : gmap nat nat) : Prop :=
  forall j k, N !! j = Some k -> 1 <= k /\ k <= diag j /\ k <= diag i.

Lemma new_run_bound i J j :
  prev_ok i J -> j ∈ b2j_get s s i ->
  j2lenget_pred J j + 1 <= diag j /\ j2lenget_pred J j + 1 <= diag i.
Proof.
  intros [He _] Hj. destruct (kept_row i j Hj) as [Kj Ki].
  rewrite (diag_eq j), (diag_eq i), Kj, Ki.
  unfold j2lenget_pred. destruct j as [|j']; simpl; [lia|].
  destruct (J !! j') as [k'|] eqn:E; simpl; [|lia].
  destruct (He _ _ E) as (_ & A & B). lia.
Qed.

Lemma flm_inner_off i J js : forall st,
  prev_ok i J ->
  (forall j, j ∈ js ->
     j ∈ b2j_get s s i /\ j <> i
     /\ (diag j <= bestsize st \/ diag i <= bestsize st)) ->
  cur_ok i (newj2len st) ->
  let st' := flm_inner i 0 (length s) J js st in
  besti st' = besti st /\ bestj st' = bestj st
  /\ bestsize st' = bestsize st
  /\ cur_ok i (newj2len st')
  /\ newj2len st' !! i = newj2len st !! i.
Proof.
  induction js as [|j js IH]; intros st Hp Hjs Hc; simpl.
  - split; [reflexivity|]. split; [reflexivity|]. split; [reflexivity|].
    split; [assumption|reflexivity].
  - destruct (Hjs j ltac:(left)) as (Hj & Hne & Hb).
    destruct (b2j_get_row i j Hj) as (_ & Hlt & _).
    destruct (Nat.leb_spec (length s) j); [lia|].
    destruct (new_run_bound i J j Hp Hj) as [B1 B2].
    destruct (Nat.ltb_spec (bestsize st) (j2lenget_pred J j + 1)); [lia|].
    match goal with
    | |- context [flm_inner _ _ _ _ _ ?st0] =>
        destruct (IH st0 Hp) as (E1 & E2 & E3 & E4 & E5)
    end.
    + intros j0 Hj0. simpl. apply Hjs. right. exact Hj0.
    + simpl. intros j0 k0 Hl.
      destruct (decide (j = j0)) as [<-|Hn].
      * rewrite lookup_insert_eq in Hl. injection Hl as <-. lia.
      * rewrite lookup_insert_ne in Hl by assumption. exact (Hc _ _ Hl).
    + simpl in E1, E2, E3, E5.
      rewrite lookup_insert_ne in E5 by assumption.
      split; [assumption|]. split; [assumption|]. split; [assumption|].
      split; assumption.
Qed.

(** What holds before row [i] is scanned: the best block lies on the
    diagonal and is no shorter than any diagonal run seen. *)
Definition scan_ok (i : nat) (st : flm_state) : Prop :=
  besti st = bestj st
  /\ (forall m, m < i -> diag m <= bestsize st)
  /\ prev_ok i (newj2len st).

Lemma flm_outer_step_same st i :
  i < length s -> scan_ok i st ->
  scan_ok (S i) (flm_outer_step s s 0 (length s) st i).
Proof.
  intros Hi (Hd & Hm & Hp). unfold flm_outer_step.
  destruct (kept i) eqn:K.
  - destruct (kept_split i K) as (l1 & l2 & E & F1 & F2).
    assert (Hin : forall j, j ∈ l1 ++ i :: l2 -> j ∈ b2j_get s s i)
      by (rewrite E; trivial).
    rewrite E, flm_inner_app.
    2: { apply Forall_forall. intros j Hj.
         apply (b2j_get_row i j). apply Hin, elem_of_app. left. exact Hj. }
    destruct (flm_inner_off i (newj2len st) l1
                (FlmState (besti st) (bestj st) (bestsize st) ∅) Hp)
      as (A1 & A2 & A3 & A4 & A5).
    { intros j Hj. split; [apply Hin, elem_of_app; left; exact Hj|].
      rewrite Forall_forall in F1. specialize (F1 j Hj).
      split; [lia|]. left. simpl. apply Hm. exact F1. }
    { intros j k H. simpl in H. rewrite lookup_empty in H. discriminate. }
    simpl in A1, A2, A3, A5.
    set (st1 := flm_inner i 0 (length s) (newj2len st) l1
                  (FlmState (besti st) (bestj st) (bestsize st) ∅)) in *.
    cbn [flm_inner].
    change (i <? 0) with false. cbv iota.
    destruct (Nat.leb_spec (length s) i); [lia|].
    assert (Hk : j2lenget_pred (newj2len st) i + 1 = diag i).
    { rewrite diag_eq, K. destruct Hp as [_ ->]. reflexivity. }
    rewrite Hk.
    match goal with
    | |- context [flm_inner _ _ _ _ l2 ?st0] =>
        destruct (flm_inner_off i (newj2len st) l2 st0 Hp)
          as (B1 & B2 & B3 & B4 & B5); [| |set (st2 := st0) in *]
    end.
    { intros j Hj.
      split; [apply Hin, elem_of_app; right; right; exact Hj|].
      rewrite Forall_forall in F2. specialize (F2 j Hj).
      split; [lia|]. right.
      destruct (Nat.ltb_spec (bestsize st1) (diag i)); simpl; lia. }
    { assert (1 <= diag i) by lia.
      destruct (Nat.ltb_spec (bestsize st1) (diag i)); simpl;
        intros j k Hl;
        (destruct (decide (i = j)) as [<-|Hn];
         [rewrite lookup_insert_eq in Hl; injection Hl as <-; lia
         |rewrite lookup_insert_ne in Hl by assumption;
          exact (A4 _ _ Hl)]). }
    assert (C : besti st2 = bestj st2
                /\ bestsize st1 <= bestsize st2
                /\ diag i <= bestsize st2
                /\ newj2len st2 !! i = Some (diag i)).
    { unfold st2.
      destruct (Nat.ltb_spec (bestsize st1) (diag i)); simpl;
        rewrite lookup_insert_eq; repeat split; try lia; congruence. }
    destruct C as (C1 & C2 & C3 & C4).
    split; [congruence|]. split.
    + intros m Hlt. rewrite B3.
      destruct (decide (m = i)) as [->|]; [exact C3|].
      assert (diag m <= bestsize st) by (apply Hm; lia). lia.
    + split.
      * intros j k Hl. destruct (B4 _ _ Hl) as (? & ? & ?).
        simpl. lia.
      * simpl. rewrite B5, C4. reflexivity.
  - rewrite (not_kept i K). simpl.
    split; [exact Hd|]. split.
    + intros m Hlt. destruct (decide (m = i)) as [->|].
      * rewrite diag_eq, K. lia.
      * apply Hm. lia.
    + split.
      * intros j k H. simpl in H. rewrite lookup_empty in H. discriminate.
      * simpl. rewrite lookup_empty, diag_eq, K. reflexivity.
Qed.

Lemma flm_fold_same n : forall i st,
  i + n <= length s -> scan_ok i st ->
  scan_ok (i + n)
    (fold_left (flm_outer_step s s 0 (length s)) (seq i n) st).
Proof.
  induction n as [|n IH]; intros i st Hle H; simpl.
  - rewrite Nat.add_0_r. exact H.
  - replace (i + S n) with (S i + n) by lia.
    apply IH; [lia|]. apply flm_outer_step_same; [lia|exact H].
Qed.

Lemma flm_scan_diagonal :
  besti (flm_scan s s 0 (length s) 0 (length s))
  = bestj (flm_scan s s 0 (length s) 0 (length s)).
Proof.
  unfold flm_scan.
  destruct (flm_fold_same (length s - 0) 0 (FlmState 0 0 0 ∅)) as [H _].
  - lia.
  - split; [reflexivity|]. split; [intros m Hm; lia|].
    split; [|reflexivity].
    intros j k H. simpl in H. rewrite lookup_empty in H. discriminate.
  - exact H.
Qed.

Lemma same_elt_refl i : i < length s -> same_elt s s i i = true.
Proof.
  intros H. unfold same_elt.
  destruct (lookup_lt_is_Some_2 s i H) as [c ->].
  apply bool_decide_eq_true_2. reflexivity.
Qed.

Lemma b_sat_all p i :
  (forall c, p c = true) -> i < length s -> b_sat s p i = true.
Proof.
  intros Hp H. unfold b_sat.
  destruct (lookup_lt_is_Some_2 s i H) as [c ->]. apply Hp.
Qed.

Lemma b_sat_none p i : (forall c, p c = false) -> b_sat s p i = false.
Proof. intros Hp. unfold b_sat. destruct (s !! i); [apply Hp|reflexivity]. Qed.

Lemma extend_left_diag p d : forall k,
  (forall c, p c = true) -> d + k <= length s ->
  extend_left s s p 0 0 d (d, d, k) = (0, 0, d + k).
Proof.
  induction d as [|d IH]; intros k Hp Hle; [reflexivity|].
  cbn [extend_left].
  replace (S d - 1) with d by lia.
  rewrite (b_sat_all p d Hp), same_elt_refl by lia.
  change (0 <? S d) with true. cbn [andb].
  rewrite IH by (trivial; lia). f_equal. lia.
Qed.

Lemma extend_right_diag p t : forall k,
  (forall c, p c = true) -> k + t = length s ->
  extend_right s s p (length s) (length s) t (0, 0, k) = (0, 0, length s).
Proof.
  induction t as [|t IH]; intros k Hp E.
  - simpl. f_equal. lia.
  - cbn [extend_right]. rewrite !Nat.add_0_l.
    destruct (Nat.ltb_spec k (length s)); [|lia].
    rewrite (b_sat_all p k Hp), same_elt_refl by lia.
    cbn [andb]. apply IH; [assumption|lia].
Qed.

Lemma extend_none p alo ahi blo bhi m :
  (forall c, p c = false) -> extend s s p alo ahi blo bhi m = m.
Proof.
  intros Hp.
  assert (L : forall t m0, extend_left s s p alo blo t m0 = m0).
  { intros [|t] [[bi bj] bs]; [reflexivity|]. cbn [extend_left].
    rewrite b_sat_none by assumption.
    rewrite andb_false_r. reflexivity. }
  assert (R : forall t m0, extend_right s s p ahi bhi t m0 = m0).
  { intros [|t] [[bi bj] bs]; [reflexivity|]. cbn [extend_right].
    rewrite b_sat_none by assumption.
    rewrite andb_false_r. reflexivity. }
  unfold extend. rewrite L, R. reflexivity.
Qed.

(** The longest block of a sequence with itself is the whole of it. *)
Lemma find_longest_match_same :
  find_longest_match s s 0 (length s) 0 (length s) = (0, 0, length s).
Proof.
  unfold find_longest_match.
  rewrite (extend_none isbjunk) by reflexivity.
  pose proof (flm_scan_ok s s 0 0 (length s) (length s)
                ltac:(lia) ltac:(lia)) as Hin.
  unfold best_ok, inside in Hin.
  rewrite <- flm_scan_diagonal in *.
  set (st := flm_scan s s 0 (length s) 0 (length s)) in *.
  unfold extend. cbn [fst snd]. rewrite Nat.sub_0_r.
  rewrite extend_left_diag by (trivial; lia).
  cbn [fst snd]. apply extend_right_diag; [trivial|lia].
Qed.

Lemma found_blocks_same : total (found_blocks s s) = length s.
Proof.
  unfold found_blocks.
  assert (E : blocks_loop s s 1 [(0, length s, 0, length s)] []
              = Some (if length s =? 0 then [] else [(0, 0, length s)])).
  { cbn [blocks_loop]. rewrite find_longest_match_same. cbn [snd].
    destruct (Nat.eqb_spec (length s) 0); [reflexivity|].
    unfold push_ranges. change (0 + length s) with (length s).
    rewrite !Nat.ltb_irrefl. reflexivity. }
  rewrite (blocks_loop_more s s 1 _ _ _ _ E) by (simpl; lia).
  simpl. destruct (Nat.eqb_spec (length s) 0); simpl; lia.
Qed.

Lemma matches_same : matches s s = length s.
Proof. rewrite matches_eq. apply found_blocks_same. Qed.

End Same.

(** ** Sequences without a common element *)

Lemma total_none (l : list Match) :
  Forall (fun m : Match => m.2 = 0) l -> total l = 0.
Proof.
  induction 1 as [|x l Hx Hl IH]; simpl; [reflexivity|].
  rewrite Hx, IH. reflexivity.
Qed.

Lemma matches_disjoint (a b : list ascii) :
  (forall c, c ∈ a -> c ∈ b -> False) -> matches a b = 0.
Proof.
  intros Hd.
  change (total (get_matching_blocks a b) = 0).
  apply total_none.
  eapply Forall_impl; [apply get_matching_blocks_common|].
  intros [[i j] k] Hc. simpl. destruct k as [|k]; [reflexivity|].
  destruct (same_elt_true a b _ _ (Hc 0 ltac:(lia))) as (c & Ha & Hb).
  exfalso. apply (Hd c); eapply list_elem_of_lookup_2; eassumption.
Qed.

End MatcherLaws.

(* ===================================================================== *)
(** * The score of a full match *)
(* ===================================================================== *)

Module ScoreLaws.
Import PyNum FloatFacts Spec SearchFacts SimilarityFacts.

(** An integer has one normal float. *)
Lemma is_int_unique S x y n :
  1200 <= S -> is_int S x n -> is_int S y n -> x = y.
Proof.
  intros HS (m1 & e1 & -> & D1 & E1 & V1) (m2 & e2 & -> & D2 & E2 & V2).
  assert (V : Zpos m1 * pw S e1 = Zpos m2 * pw S e2) by congruence.
  destruct (digits2_pos_bounds m1) as [L1 U1].
  destruct (digits2_pos_bounds m2) as [L2 U2].
  rewrite D1 in L1, U1. rewrite D2 in L2, U2.
  change (2 ^ (53 - 1)) with 4503599627370496 in L1, L2.
  change (2 ^ 53) with 9007199254740992 in U1, U2.
  assert (Hlt : forall (ma mb : positive) ea eb,
            -52 <= ea -> ea < eb ->
            4503599627370496 <= Zpos mb -> Zpos ma < 9007199254740992 ->
            Zpos ma * pw S ea = Zpos mb * pw S eb -> False).
  { intros ma mb ea eb Ha Hab Lb Ua Hv.
    assert (P : pw S eb = pw S ea * 2 ^ (eb - ea)).
    { rewrite <- pw_add by lia. f_equal. lia. }
    assert (0 < pw S ea) by (apply pw_pos; lia).
    assert (2 ^ 1 <= 2 ^ (eb - ea)) by (apply Z.pow_le_mono_r; lia).
    change (2 ^ 1) with 2 in *.
    rewrite P in Hv.
    assert (Zpos ma = Zpos mb * 2 ^ (eb - ea)) by nia.
    nia. }
  destruct (Z.lt_trichotomy e1 e2) as [H|[H|H]].
  - exfalso. apply (Hlt m1 m2 e1 e2); lia.
  - subst e2. assert (0 < pw S e1) by (apply pw_pos; lia).
    assert (Zpos m1 = Zpos m2) by nia.
    f_equal. lia.
  - exfalso. apply (Hlt m2 m1 e2 e1); lia.
Qed.

(** A normal float divided by itself is 1.0. *)
Lemma fdiv_self m e :
  Zpos (digits2_pos m) = 53 ->
  fdiv (S754_finite false m e) (S754_finite false m e) = of_int 1.
Proof.
  intros Hd. unfold fdiv, SFdiv, SFdiv_core_binary.
  cbn [Zdigits2 xorb]. rewrite Hd.
  replace (fexp prec emax (53 + e - (53 + e))) with (e - e - 53)
    by (unfold fexp, emin, prec, emax; lia).
  replace (Z.min (e - e - 53) (e - e)) with (e - e - 53) by lia.
  replace (e - e - (e - e - 53)) with 53 by lia.
  cbv iota beta.
  rewrite Z.shiftl_mul_pow2 by lia.
  pose proof (Z_div_mod (Zpos m * 2 ^ 53) (Zpos m) ltac:(lia)) as Hdm.
  destruct (Z.div_eucl (Zpos m * 2 ^ 53) (Zpos m)) as [q r].
  destruct Hdm as [Hq Hr].
  assert (q = 2 ^ 53) as ->.
  { change (2 ^ 53) with 9007199254740992 in *.
    destruct (Z.lt_trichotomy q 9007199254740992) as [H|[H|H]];
      [exfalso|exact H|exfalso]; nia. }
  assert (r = 0) as -> by lia.
  replace (new_location (Zpos m) 0) with loc_Exact
    by (unfold new_location, new_location_even, new_location_odd;
        destruct (Z.even (Zpos m)); reflexivity).
  replace (e - e - 53) with (-53) by lia.
  change (2 ^ 53) with (Zpos 4503599627370496 * 2 ^ Zpos 1).
  rewrite binary_round_aux_shift; [reflexivity|reflexivity|lia|lia].
Qed.

(** When every character is matched the score is 100. *)
Lemma score_full n :
  Z.of_nat (n + n) < 2 ^ 53 -> score n (n + n) = Some 100.
Proof.
  intros Hlen. destruct n as [|n]; [apply score_empty|].
  unfold score, calculate_ratio.
  replace (Datatypes.S n + Datatypes.S n)%nat
    with (Datatypes.S (n + Datatypes.S n)) by lia.
  set (v := Z.of_nat (Datatypes.S n)).
  assert (Hv : 0 < v /\ 2 * v < 2 ^ 53) by (unfold v; lia).
  assert (P : is_int 1200 (fmul (of_int 2) (of_int v)) (2 * v)).
  { apply fmul_two_is_int; [lia| |lia].
    apply of_int_is_int; lia. }
  assert (Q : is_int 1200 (of_int (Z.of_nat (Datatypes.S (n + Datatypes.S n))))
                (2 * v)).
  { replace (2 * v) with (Z.of_nat (Datatypes.S (n + Datatypes.S n)))
      by (unfold v; lia).
    apply of_int_is_int; lia. }
  rewrite (is_int_unique 1200 _ _ _ ltac:(lia) Q P).
  destruct P as (m & e & -> & Hd & _).
  rewrite fdiv_self by exact Hd.
  vm_compute. reflexivity.
Qed.

(** The texts [calculate_similarity] compares are the same. *)
Lemma calculate_similarity_equal self keyword c :
  isna c = false ->
  normalize self (py_str c) = normalize self keyword ->
  Z.of_nat (String.length keyword + String.length (py_str c)) < 2 ^ 53 ->
  calculate_similarity self keyword c = Ok 100.
Proof.
  intros Hna Heq Hlen.
  assert (Hl : String.length (py_str c) = String.length keyword).
  { rewrite <- (normalize_length self (py_str c)), Heq.
    apply normalize_length. }
  rewrite calculate_similarity_eq by assumption.
  rewrite Heq. unfold matched. rewrite MatcherLaws.matches_same.
  rewrite length_list_ascii, normalize_length, Hl.
  rewrite Hl in Hlen. rewrite score_full by exact Hlen. reflexivity.
Qed.

(** The texts [calculate_similarity] compares share no character. *)
Lemma calculate_similarity_disjoint self keyword c :
  isna c = false ->
  (forall ch,
     ch ∈ list_ascii_of_string (normalize self keyword) ->
     ch ∈ list_ascii_of_string (normalize self (py_str c)) -> False) ->
  (0 < String.length keyword + String.length (py_str c))%nat ->
  Z.of_nat (String.length keyword + String.length (py_str c)) < 2 ^ 53 ->
  calculate_similarity self keyword c = Ok 0.
Proof.
  intros Hna Hd Hpos Hlen.
  rewrite calculate_similarity_eq by assumption.
  unfold matched. rewrite MatcherLaws.matches_disjoint by exact Hd.
  rewrite score_no_match by assumption. reflexivity.
Qed.

End ScoreLaws.

(* ===================================================================== *)
(** * Laws of the window *)
(* ===================================================================== *)

Module WindowLaws.
Import Window.
Local Open Scope nat_scope.

Lemma append_length (s t : string) :
  String.length (s +:+ t) = String.length s + String.length t.
Proof. induction s as [|c s IH]; simpl; [reflexivity|]. rewrite IH. reflexivity. Qed.

Lemma times_length c n : String.length (times c n) = n.
Proof. induction n as [|n IH]; simpl; [reflexivity|]. rewrite IH. reflexivity. Qed.

Lemma ljust_length width s :
  String.length (ljust width s) = Nat.max width (String.length s).
Proof. unfold ljust. rewrite append_length, times_length. lia. Qed.

Lemma rjust_length width s :
  String.length (rjust width s) = Nat.max width (String.length s).
Proof. unfold rjust. rewrite append_length, times_length. lia. Qed.

(** Fields of 15 characters joined by the 3 of the separator. *)
Lemma join_width (parts : list string) :
  Forall (fun p => String.length p = 15) parts -> parts <> [] ->
  String.length (join " | " parts) = 18 * length parts - 3.
Proof.
  induction 1 as [|p ps Hp Hps IH]; intros Hne; [congruence|].
  cbn [join]. destruct ps as [|q ps]; [simpl; lia|].
  rewrite !append_length, IH by discriminate.
  change (String.length " | ") with 3. simpl length. lia.
Qed.

Lemma headers_width (cols : list string) :
  Forall (fun c => String.length c <= 15) cols -> cols <> [] ->
  String.length (headers cols) = 18 * length cols - 3.
Proof.
  intros H Hne. unfold headers.
  rewrite join_width, length_map; [reflexivity| |].
  - apply Forall_fmap. eapply Forall_impl; [exact H|].
    intros c Hc. cbv beta in Hc. unfold compose. rewrite ljust_length. lia.
  - destruct cols; [congruence|discriminate].
Qed.

(** The texts of a row fit their fields. *)
Definition fits (cols : list string) (r : row) : Prop :=
  r.1 < 999
  /\ forall p, p < length cols ->
       String.length (py_str (Pandas.cell_at p r)) <= 15.

Lemma row_data_width (cols : list string) r :
  fits cols r -> cols <> [] ->
  String.length (row_data cols r) = 18 * length cols - 3.
Proof.
  intros [_ H] Hne. unfold row_data, values.
  rewrite join_width, !length_map, length_seq; [reflexivity| |].
  - apply Forall_fmap, Forall_fmap, Forall_forall. intros p Hp.
    unfold compose. apply elem_of_seq in Hp. rewrite ljust_length.
    specialize (H p ltac:(lia)). lia.
  - destruct cols; [congruence|discriminate].
Qed.

Definition short_label (n : nat) : bool :=
  String.length (PyStr.of_int (Z.of_nat n + 1)) <=? 3.

Lemma labels_short : forallb short_label (seq 0 999) = true.
Proof. vm_compute. reflexivity. Qed.

Lemma label_width n :
  n < 999 ->
  String.length (rjust 3 (PyStr.of_int (Z.of_nat n + 1))) = 3.
Proof.
  intros H. rewrite rjust_length.
  pose proof labels_short as E. rewrite forallb_forall in E.
  specialize (E n ltac:(apply in_seq; lia)).
  unfold short_label in E. apply Nat.leb_le in E. lia.
Qed.

Lemma row_line_width (cols : list string) r :
  fits cols r -> cols <> [] ->
  String.length (row_line cols r) = 18 * length cols + 4.
Proof.
  intros Hf Hne. unfold row_line.
  rewrite !append_length, label_width, row_data_width
    by (try apply Hf; assumption).
  assert (1 <= length cols) by (destruct cols; [congruence|simpl; lia]).
  change (String.length "[") with 1. change (String.length "] ") with 2.
  change (String.length nl) with 1. lia.
Qed.

Lemma elem_of_head {A} (x : A) n (l : list A) : x ∈ take n l -> x ∈ l.
Proof.
  intros H. apply elem_of_take in H as (i & Hi & _).
  eapply list_elem_of_lookup_2. exact Hi.
Qed.

(** The heading, the rule, and the lines of the rows shown, each as long
    as the rule and the six characters of its label. *)
Lemma table_shape shown (fr : frame) :
  columns fr <> [] ->
  Forall (fun c => String.length c <= 15) (columns fr) ->
  Forall (fits (columns fr)) (rows fr) ->
  exists heading rule lines,
    table shown fr = heading :: rule :: lines
    /\ length lines = Nat.min shown (length (rows fr))
    /\ Forall (fun line => String.length line = String.length rule + 6)
         lines.
Proof.
  intros Hne Hc Hr. unfold table. eexists _, _, _.
  split; [reflexivity|]. split.
  - rewrite length_map. simpl. rewrite length_take. reflexivity.
  - apply Forall_fmap, Forall_forall. intros r Hin.
    unfold compose. cbn [rows head] in Hin.
    rewrite Forall_forall in Hr.
    rewrite row_line_width by
      (try assumption; apply Hr; eapply elem_of_head; exact Hin).
    rewrite append_length, times_length, headers_width by assumption.
    assert (1 <= length (columns fr))
      by (destruct (columns fr); [congruence|simpl; lia]).
    change (String.length nl) with 1. lia.
Qed.

(** ** The width of a column *)

Lemma max_length_fold (texts : list string) : forall m,
  let r :=
    fold_left
      (fun max_length text =>
         if max_length <? String.length text
         then String.length text else max_length) texts m in
  m <= r
  /\ (forall t, t ∈ texts -> String.length t <= r)
  /\ (r = m \/ exists t, t ∈ texts /\ r = String.length t).
Proof.
  induction texts as [|t texts IH]; intros m; simpl.
  - split; [lia|]. split; [intros t H; inversion H|left; reflexivity].
  - destruct (Nat.ltb_spec m (String.length t)) as [Hlt|Hge].
    + destruct (IH (String.length t)) as (A & B & C).
      split; [lia|]. split.
      * intros u Hu. apply elem_of_cons in Hu as [->|Hu]; [exact A|].
        apply B. exact Hu.
      * right. destruct C as [C|(u & Hu & C)].
        -- exists t. split; [left|exact C].
        -- exists u. split; [right; exact Hu|exact C].
    + destruct (IH m) as (A & B & C).
      split; [exact A|]. split.
      * intros u Hu. apply elem_of_cons in Hu as [->|Hu]; [lia|].
        apply B. exact Hu.
      * destruct C as [C|(u & Hu & C)]; [left; exact C|].
        right. exists u. split; [right; exact Hu|exact C].
Qed.

Lemma max_length_spec (texts : list string) :
  (forall t, t ∈ texts -> String.length t <= max_length texts)
  /\ (texts <> [] ->
      exists t, t ∈ texts /\ max_length texts = String.length t).
Proof.
  destruct (max_length_fold texts 0) as (_ & B & C).
  split; [exact B|]. intros Hne.
  destruct C as [C|C]; [|exact C].
  destruct texts as [|t texts]; [congruence|].
  exists t. split; [left|].
  fold (max_length (t :: texts)) in C.
  pose proof (B t ltac:(left)) as Ht.
  fold (max_length (t :: texts)) in Ht. lia.
Qed.

(** ** Saving *)

Lemma bind_emit_warning {A} msg (x : A) w :
  (run emit (ShowWarning msg) in ret x) w
  = (Ok x, World (store w) (shown w ++ [ShowWarning msg])).
Proof. reflexivity. Qed.

(** Results without rows are not saved. *)
Lemma save_results_empty write_excel self path w (r : loc) res :
  search_results self = Some r -> store w !! r = Some res ->
  rows res = [] ->
  save_results write_excel self path w
  = (Ok (self, NothingToSave),
     World (store w)
       (shown w ++ [ShowWarning "保存する検索結果がありません。"])).
Proof.
  intros Hr Hs Hrows. unfold save_results. rewrite Hr.
  erewrite FuzzyFacts.bind_deref by exact Hs.
  rewrite Hrows. reflexivity.
Qed.

(** Results with rows, an output path, a dataset: what is handed to the
    writer, and how the method ends with what the writer answers. *)
Lemma save_results_written write_excel self path w (r l : loc) res fr :
  search_results self = Some r -> store w !! r = Some res ->
  df self = Some l -> store w !! l = Some fr ->
  rows res <> [] -> PyStr.is_empty path = false ->
  let sheets :=
    [("検索結果", res); ("検索条件", search_info self);
     ("元データ（抜粋）", head 1000 fr)] in
  save_results write_excel self path w
  = match write_excel path sheets with
    | Ok _ =>
        (Ok (set_status StatusOther self,
             Saved path sheets (length (rows res))),
         World (store w) (shown w ++ [RootUpdate]))
    | Raise e =>
        (Ok (set_status StatusOther self, SaveError e),
         World (store w) (shown w ++ [RootUpdate; ShowError e]))
    end.
Proof.
  intros Hr Hs Hdf Hl Hrows Hpath sheets. unfold save_results. rewrite Hr.
  erewrite FuzzyFacts.bind_deref by exact Hs.
  destruct (rows res) as [|x xs] eqn:E; [congruence|].
  cbn [length Nat.eqb]. rewrite Hpath.
  unfold save_body. rewrite Hdf.
  change ((run emit RootUpdate in ?k) w)
    with (k (World (store w) (shown w ++ [RootUpdate]))).
  rewrite FuzzyFacts.bind_assoc.
  erewrite FuzzyFacts.bind_deref by (cbn [store]; exact Hl).
  unfold bind at 1. unfold ret at 1. cbn [app].
  fold sheets. unfold bind, lift, ret.
  destruct (write_excel path sheets) as [[]|e]; cbn [emit snd store shown].
  - reflexivity.
  - rewrite <- app_assoc. reflexivity.
Qed.

End WindowLaws.

(* ===================================================================== *)
(** * Further properties of the code *)
(* ===================================================================== *)

Module Extras.
Import Spec SearchFacts SearchLaws.

(** X1. With case ignored, the case of the keyword does not matter: a
    keyword and its lower-case form give the same run of [exact_search],
    of [partial_search] and of [fuzzy_search]. *)
Theorem keyword_case_is_ignored re_compile argsort_desc self keyword column
        threshold w :
  ignore_case self = true ->
  exact_search self (PyStr.lower keyword) column w
  = exact_search self keyword column w
  /\ partial_search re_compile self (PyStr.lower keyword) column w
     = partial_search re_compile self keyword column w
  /\ fuzzy_search argsort_desc self (PyStr.lower keyword) column threshold w
     = fuzzy_search argsort_desc self keyword column threshold w.
Proof.
  intros H. repeat split.
  - unfold exact_search. rewrite H, lower_idem. reflexivity.
  - unfold partial_search. rewrite H, lower_idem. reflexivity.
  - unfold fuzzy_search, bind. destruct (self_df self w) as [[d|e] w1];
      [|reflexivity].
    unfold lift. rewrite fuzzy_scan_lower by exact H. reflexivity.
Qed.

Lemma keyword_case_is_ignored_witness :
  exact_search (Sample.tool_for "exact" "APPLE Japan" 60 true)
    (PyStr.lower "APPLE Japan") "name" (Sample.loaded Sample.companies)
  = exact_search (Sample.tool_for "exact" "APPLE Japan" 60 true)
      "APPLE Japan" "name" (Sample.loaded Sample.companies).
Proof.
  apply (keyword_case_is_ignored Re.compile_plain Argsort.stable_desc
           (Sample.tool_for "exact" "APPLE Japan" 60 true) "APPLE Japan"
           "name" 60 (Sample.loaded Sample.companies)).
  reflexivity.
Defined.



(** X3. Every exact match is a partial match: for a keyword that is a plain
    pattern, the rows [exact_search] returns are among the rows
    [partial_search] returns for the same keyword, column and case switch,
    in the same order. *)
Theorem exact_matches_are_partial_matches re_compile self keyword column w
        (l : loc) fr p :
  Re.agrees re_compile -> Re.plain (normalize self keyword) = true ->
  df self = Some l -> store w !! l = Some fr ->
  Pandas.col_pos column (columns fr) = Some p ->
  exists f1 f2,
    returned (exact_search self keyword column) w = Some f1
    /\ returned (partial_search re_compile self keyword column) w = Some f2
    /\ rows f1 `sublist_of` rows f2.
Proof.
  intros Hre Hplain Hdf Hl Hp. eexists _, _.
  split; [apply (returned_exact _ _ _ _ l fr p); assumption|].
  split; [apply (returned_partial _ _ _ _ _ l fr p); assumption|].
  cbn [rows]. apply hits_sublist. intros c.
  unfold exact_match, partial_match. intros E.
  apply String.eqb_eq in E. rewrite E. apply contains_refl.
Qed.

Lemma exact_matches_are_partial_matches_witness :
  exists f1 f2,
    returned (exact_search (Sample.tool_for "exact" "Orange Co" 60 true)
                "Orange Co" "name") (Sample.loaded Sample.companies)
    = Some f1
    /\ returned (partial_search Re.compile_plain
                   (Sample.tool_for "exact" "Orange Co" 60 true)
                   "Orange Co" "name") (Sample.loaded Sample.companies)
       = Some f2
    /\ rows f1 `sublist_of` rows f2.
Proof.
  apply (exact_matches_are_partial_matches Re.compile_plain
           (Sample.tool_for "exact" "Orange Co" 60 true) "Orange Co"
           "name" (Sample.loaded Sample.companies) 0%nat Sample.companies
           0%nat compile_plain_agrees eq_refl eq_refl eq_refl eq_refl).
Defined.

(** X4. Raising the threshold of [fuzzy_search] can only drop rows: every
    row returned at the higher threshold is returned, with the same score,
    at the lower one. *)
Theorem raising_threshold_drops_rows argsort_desc self keyword column
        t1 t2 w (l : loc) fr p :
  Argsort.sorts_descending argsort_desc ->
  df self = Some l -> store w !! l = Some fr ->
  Pandas.col_pos column (columns fr) = Some p ->
  NoDup (map fst (rows fr)) -> small_texts keyword p (rows fr) ->
  t1 <= t2 ->
  exists f1 f2,
    returned (fuzzy_search argsort_desc self keyword column t1) w = Some f1
    /\ returned (fuzzy_search argsort_desc self keyword column t2) w = Some f2
    /\ forall r, r ∈ rows f2 -> r ∈ rows f1.
Proof.
  intros Hsort Hdf Hl Hp Hnd Hsmall Ht. eexists _, _.
  split; [apply (returned_fuzzy _ _ _ _ _ _ l fr p); assumption|].
  split; [apply (returned_fuzzy _ _ _ _ _ _ l fr p); assumption|].
  intros r.
  rewrite !(FuzzyFacts.fuzzy_frame_perm argsort_desc) by exact Hsort.
  intros Hr. apply list_elem_of_fmap in Hr as (r0 & -> & Hr0).
  apply list_elem_of_fmap_2.
  unfold hits in *. apply list_elem_of_filter in Hr0 as [H2 Hin].
  apply list_elem_of_filter. split; [|exact Hin].
  unfold fuzzy_match in *. apply Z.leb_le in H2. apply Z.leb_le. lia.
Qed.

Lemma raising_threshold_drops_rows_witness :
  exists f1 f2,
    returned (fuzzy_search Argsort.stable_desc
                (Sample.tool_for "fuzzy" "orange" 30 true) "orange" "name" 30)
      (Sample.loaded Sample.companies) = Some f1
    /\ returned (fuzzy_search Argsort.stable_desc
                   (Sample.tool_for "fuzzy" "orange" 30 true) "orange" "name"
                   60)
         (Sample.loaded Sample.companies) = Some f2
    /\ forall r, r ∈ rows f2 -> r ∈ rows f1.
Proof.
  apply (raising_threshold_drops_rows Argsort.stable_desc
           (Sample.tool_for "fuzzy" "orange" 30 true) "orange" "name" 30 60
           (Sample.loaded Sample.companies) 0%nat Sample.companies 0%nat
           ArgsortFacts.stable_desc_sorts eq_refl eq_refl eq_refl).
  - compute_done.
  - unfold small_texts. apply Forall_forall.
    repeat constructor; vm_compute; reflexivity.
  - lia.
Defined.

(** X5. The ends of the threshold range.  With a threshold of 0 or less
    [fuzzy_search] returns every row of the dataset, scored.  With a
    threshold above 100 no row can reach it, and what comes back is the
    bare [pd.DataFrame()]: no rows and no columns either, not even those of
    the dataset. *)
Theorem fuzzy_threshold_extremes argsort_desc self keyword column threshold
        w (l : loc) fr p :
  Argsort.sorts_descending argsort_desc ->
  df self = Some l -> store w !! l = Some fr ->
  Pandas.col_pos column (columns fr) = Some p ->
  NoDup (map fst (rows fr)) -> small_texts keyword p (rows fr) ->
  exists f,
    returned (fuzzy_search argsort_desc self keyword column threshold) w
    = Some f
    /\ (threshold <= 0 ->
        rows f ≡ₚ map (with_score self keyword p (columns fr)) (rows fr))
    /\ (100 < threshold -> f = Frame [] []).
Proof.
  intros Hsort Hdf Hl Hp Hnd Hsmall. eexists.
  split; [apply (returned_fuzzy _ _ _ _ _ _ l fr p); assumption|].
  assert (Hrange : forall r, r ∈ rows fr ->
            0 <= similarity self keyword (Pandas.cell_at p r) <= 100).
  { intros r Hr. apply SimilarityFacts.similarity_spec, Hsmall, Hr. }
  split.
  - intros Ht. rewrite FuzzyFacts.fuzzy_frame_perm by exact Hsort.
    rewrite hits_all; [reflexivity|].
    intros r Hr. unfold fuzzy_match. apply Z.leb_le.
    specialize (Hrange r Hr). lia.
  - intros Ht. unfold fuzzy_frame. rewrite hits_none; [reflexivity|].
    intros r Hr. unfold fuzzy_match. apply Z.leb_gt.
    specialize (Hrange r Hr). lia.
Qed.

Lemma fuzzy_threshold_extremes_witness :
  exists f,
    returned (fuzzy_search Argsort.stable_desc
                (Sample.tool_for "fuzzy" "orange" 101 true) "orange" "name"
                101)
      (Sample.loaded Sample.companies) = Some f
    /\ f = Frame [] [].
Proof.
  destruct (fuzzy_threshold_extremes Argsort.stable_desc
              (Sample.tool_for "fuzzy" "orange" 101 true) "orange" "name" 101
              (Sample.loaded Sample.companies) 0%nat Sample.companies 0%nat
              ArgsortFacts.stable_desc_sorts eq_refl eq_refl eq_refl)
    as (f & E & _ & H).
  - compute_done.
  - unfold small_texts. apply Forall_forall.
    repeat constructor; vm_compute; reflexivity.
  - exists f. split; [exact E|]. apply H. lia.
Defined.

(** X6. Where the score goes.  When some row reaches the threshold, the
    result of [fuzzy_search] has the columns of the dataset and, if none of
    them is named 類似度, that column after them: each returned row is its
    dataset row with the score added at the end.  If the dataset already
    has a column of that name (a saved result, searched again), no column
    is added and the old value in it is overwritten by the new score. *)
Theorem fuzzy_score_column argsort_desc self keyword column threshold
        w (l : loc) fr p :
  Argsort.sorts_descending argsort_desc ->
  df self = Some l -> store w !! l = Some fr ->
  Pandas.col_pos column (columns fr) = Some p ->
  NoDup (map fst (rows fr)) -> small_texts keyword p (rows fr) ->
  (forall r, r ∈ rows fr -> length r.2 = length (columns fr)) ->
  hits (fuzzy_match self keyword threshold) p (rows fr) <> [] ->
  exists f,
    returned (fuzzy_search argsort_desc self keyword column threshold) w
    = Some f
    /\ rows f ≡ₚ map (with_score self keyword p (columns fr))
                    (hits (fuzzy_match self keyword threshold) p (rows fr))
    /\ (Pandas.col_pos score_column (columns fr) = None ->
        columns f = columns fr ++ [score_column]
        /\ forall r, r ∈ rows fr ->
             with_score self keyword p (columns fr) r
             = (r.1, r.2 ++ [CInt (similarity self keyword
                                     (Pandas.cell_at p r))]))
    /\ (forall q, Pandas.col_pos score_column (columns fr) = Some q ->
        columns f = columns fr
        /\ forall r, r ∈ rows fr ->
             with_score self keyword p (columns fr) r
             = (r.1, <[q := CInt (similarity self keyword
                                    (Pandas.cell_at p r))]> r.2)).
Proof.
  intros Hsort Hdf Hl Hp Hnd Hsmall Hwf Hsome. eexists.
  split; [apply (returned_fuzzy _ _ _ _ _ _ l fr p); assumption|].
  split; [apply FuzzyFacts.fuzzy_frame_perm; exact Hsort|].
  assert (Hcols : columns (fuzzy_frame argsort_desc self keyword threshold
                             p fr) = score_columns (columns fr)).
  { unfold fuzzy_frame.
    destruct (hits (fuzzy_match self keyword threshold) p (rows fr));
      [congruence|reflexivity]. }
  rewrite Hcols. unfold score_columns, with_score, score_pos. split.
  - intros Hnone. rewrite Hnone. split; [reflexivity|].
    intros r Hr. cbn [default]. rewrite <- (Hwf r Hr), set_cell_append.
    reflexivity.
  - intros q Hq. rewrite Hq. split; [reflexivity|].
    intros r Hr. cbn [default]. rewrite set_cell_insert; [reflexivity|].
    rewrite (Hwf r Hr). apply (FuzzyFacts.col_pos_lt _ _ _ Hq).
Qed.

Lemma fuzzy_score_column_witness :
  exists f,
    returned (fuzzy_search Argsort.stable_desc
                (Sample.tool_for "fuzzy" "apple japan" 60 true) "apple japan"
                "name" 60) (Sample.loaded saved_result) = Some f
    /\ columns f = ["name"; score_column]
    /\ with_score (Sample.tool_for "fuzzy" "apple japan" 60 true)
         "apple japan" 0 (columns saved_result)
         (0%nat, [CStr "Apple Japan"; CInt 12])
       = (0%nat, [CStr "Apple Japan"; CInt 100]).
Proof.
  destruct (fuzzy_score_column Argsort.stable_desc
              (Sample.tool_for "fuzzy" "apple japan" 60 true) "apple japan"
              "name" 60 (Sample.loaded saved_result) 0%nat saved_result 0%nat
              ArgsortFacts.stable_desc_sorts eq_refl eq_refl eq_refl)
    as (f & E & _ & _ & H).
  - compute_done.
  - unfold small_texts. apply Forall_forall.
    repeat constructor; vm_compute; reflexivity.
  - apply Forall_forall. repeat constructor.
  - vm_compute. discriminate.
  - destruct (H 1%nat eq_refl) as [Hc Hr].
    exists f. split; [exact E|]. split; [exact Hc|].
    rewrite (Hr (0%nat, [CStr "Apple Japan"; CInt 12]))
      by apply list_elem_of_here.
    vm_compute. reflexivity.
Defined.

(** X7. A column that is not there.  [exact_search] and [partial_search]
    raise [KeyError] and leave the store and the window as they were.
    [fuzzy_search] raises [KeyError] only if the dataset has a row to look
    into; on a dataset without rows it raises nothing and returns the bare
    empty frame. *)
Theorem search_missing_column re_compile argsort_desc self keyword column
        threshold w (l : loc) fr :
  df self = Some l -> store w !! l = Some fr ->
  Pandas.col_pos column (columns fr) = None ->
  exact_search self keyword column w = (Raise KeyError, w)
  /\ partial_search re_compile self keyword column w = (Raise KeyError, w)
  /\ (rows fr <> [] ->
      fuzzy_search argsort_desc self keyword column threshold w
      = (Raise KeyError, w))
  /\ (rows fr = [] ->
      fuzzy_search argsort_desc self keyword column threshold w
      = (Ok (length (store w)),
         World (store w ++ [Frame [] []]) (shown w))).
Proof.
  intros Hdf Hl Hp.
  split; [apply (exact_search_missing _ _ _ _ l fr); assumption|].
  split; [apply (partial_search_missing _ _ _ _ _ l fr); assumption|].
  split; [apply (fuzzy_search_missing _ _ _ _ _ _ l fr); assumption|].
  intros Hrows. unfold fuzzy_search.
  rewrite (bind_returns _ _ _ _ _ (self_df_ok _ _ _ _ Hdf Hl)).
  cbn [snd]. rewrite Hrows. reflexivity.
Qed.

Lemma search_missing_column_witness :
  fuzzy_search Argsort.stable_desc (Sample.tool_for "fuzzy" "x" 60 true)
    "x" "city" 60 (Sample.loaded header_only)
  = (Ok 1%nat, World [header_only; Frame [] []] [])
  /\ fuzzy_search Argsort.stable_desc (Sample.tool_for "fuzzy" "x" 60 true)
       "x" "city" 60 (Sample.loaded Sample.companies)
     = (Raise KeyError, Sample.loaded Sample.companies).
Proof.
  split.
  - apply (search_missing_column Re.compile_plain Argsort.stable_desc
             (Sample.tool_for "fuzzy" "x" 60 true) "x" "city" 60
             (Sample.loaded header_only) 0%nat header_only
             eq_refl eq_refl eq_refl).
    reflexivity.
  - apply (search_missing_column Re.compile_plain Argsort.stable_desc
             (Sample.tool_for "fuzzy" "x" 60 true) "x" "city" 60
             (Sample.loaded Sample.companies) 0%nat Sample.companies
             eq_refl eq_refl eq_refl).
    discriminate.
Defined.

(** X8. [advanced_fuzzy_search] never raises and always returns a whole
    number from 0 to 100, for any keyword and text (of fewer than 2^53
    characters together) and either case setting. *)
Theorem advanced_fuzzy_search_range self keyword text :
  Z.of_nat (String.length keyword + String.length text) < 2 ^ 53 ->
  exists z, advanced_fuzzy_search self keyword text = Ok z /\ 0 <= z <= 100.
Proof.
  intros Hlen. unfold advanced_fuzzy_search.
  destruct (PyStr.is_empty text || PyStr.is_empty keyword);
    [exists 0; split; [reflexivity|lia]|].
  fold (normalize self text). fold (normalize self keyword).
  destruct (String.eqb _ _); [exists 100; split; [reflexivity|lia]|].
  destruct (_ || _); [exists 85; split; [reflexivity|lia]|].
  destruct (SimilarityFacts.max_percent (normalize self keyword)
              (normalize self text)) as (z & Ez & Hz).
  { rewrite !normalize_length. exact Hlen. }
  exists z. split; [|exact Hz].
  unfold seq_percent, word_percent, jaccard in Ez. rewrite Ez. reflexivity.
Qed.

Lemma advanced_fuzzy_search_range_witness :
  exists z,
    advanced_fuzzy_search (Sample.tool_for "fuzzy" "" 60 true)
      "tokyo shibuya" "Shibuya Tokyo" = Ok z
    /\ 0 <= z <= 100.
Proof.
  apply (advanced_fuzzy_search_range (Sample.tool_for "fuzzy" "" 60 true)
           "tokyo shibuya" "Shibuya Tokyo").
  vm_compute. reflexivity.
Defined.



(** X10. [execute_search] in the fuzzy mode, under the same conditions and
    on a dataset with distinct row labels.  The search succeeds; the stored
    result holds exactly the rows whose score against the trimmed keyword
    reaches [similarity_threshold], each with its score; the status reports
    their number; only [execute_search] itself writes to the window. *)
Theorem execute_search_fuzzy re_compile argsort_desc self w (l : loc) fr p :
  Argsort.sorts_descending argsort_desc ->
  df self = Some l -> store w !! l = Some fr ->
  PyStr.is_empty (PyStr.strip (search_keyword self)) = false ->
  PyStr.is_empty (search_column self) = false ->
  search_mode self = "fuzzy" ->
  Pandas.col_pos (search_column self) (columns fr) = Some p ->
  NoDup (map fst (rows fr)) ->
  small_texts (PyStr.strip (search_keyword self)) p (rows fr) ->
  let keyword := PyStr.strip (search_keyword self) in
  let found :=
    hits (fuzzy_match self keyword (similarity_threshold self)) p (rows fr) in
  exists (r : loc) w' f,
    execute_search re_compile argsort_desc self w
    = (searched r (length found) self, w')
    /\ store w' !! r = Some f
    /\ rows f ≡ₚ map (with_score self keyword p (columns fr)) found
    /\ shown w' = shown w ++ [RootUpdate; DisplaySearchResults (Some r);
                              NotebookSelect 1].
Proof.
  intros Hsort Hdf Hl Hkw Hcol Hmode Hp Hnd Hsmall.
  exact (execute_search_fuzzy_frame re_compile argsort_desc self w l fr p
           Hsort Hdf Hl Hkw Hcol Hmode Hp Hnd Hsmall).
Qed.

Lemma execute_search_fuzzy_witness :
  exists (r : loc) w' f,
    execute_search Re.compile_plain Argsort.stable_desc
      (Sample.tool_for "fuzzy" " aple jpan" 60 true)
      (Sample.loaded Sample.companies)
    = (searched r 2 (Sample.tool_for "fuzzy" " aple jpan" 60 true), w')
    /\ store w' !! r = Some f.
Proof.
  destruct (execute_search_fuzzy Re.compile_plain Argsort.stable_desc
              (Sample.tool_for "fuzzy" " aple jpan" 60 true)
              (Sample.loaded Sample.companies) 0%nat Sample.companies 0%nat
              ArgsortFacts.stable_desc_sorts eq_refl eq_refl eq_refl eq_refl
              eq_refl eq_refl)
    as (r & w' & f & E & Hs & _).
  - compute_done.
  - unfold small_texts. apply Forall_forall.
    repeat constructor; vm_compute; reflexivity.
  - exists r, w', f. split; [|exact Hs].
    rewrite E. reflexivity.
Defined.

(** X11. A search that raises.  With a file loaded, a keyword and a column
    name given, but no column of that name in the dataset, [execute_search]
    (exact, partial, or fuzzy on a dataset with rows) catches the
    [KeyError]: it shows one error, sets the status to the error text, and
    leaves the earlier [search_results] and every frame as they were. *)
Theorem execute_search_missing_column re_compile argsort_desc self w
        (l : loc) fr :
  df self = Some l -> store w !! l = Some fr ->
  PyStr.is_empty (PyStr.strip (search_keyword self)) = false ->
  PyStr.is_empty (search_column self) = false ->
  Pandas.col_pos (search_column self) (columns fr) = None ->
  search_mode self = "exact" \/ search_mode self = "partial"
  \/ (search_mode self = "fuzzy" /\ rows fr <> []) ->
  execute_search re_compile argsort_desc self w
  = (set_status StatusError self,
     World (store w) (shown w ++ [RootUpdate; ShowError KeyError])).
Proof.
  intros Hdf Hl Hkw Hcol Hp Hmode.
  assert (Hdf0 : df (set_status StatusSearching self) = Some l) by exact Hdf.
  unfold execute_search. rewrite Hdf, Hkw, Hcol.
  unfold search_body. rewrite bind_emit.
  cbn [search_mode set_status search_keyword search_column
       similarity_threshold].
  destruct Hmode as [Hm | [Hm | [Hm Hrows]]]; rewrite Hm.
  - change (String.eqb "exact" "exact") with true. cbv iota.
    rewrite !FuzzyFacts.bind_assoc.
    erewrite bind_raises
      by (apply (exact_search_missing _ _ _ _ l fr Hdf0); assumption).
    cbn [snd emit store shown]. rewrite <- app_assoc. reflexivity.
  - change (String.eqb "partial" "exact") with false.
    change (String.eqb "partial" "partial") with true. cbv iota.
    rewrite !FuzzyFacts.bind_assoc.
    erewrite bind_raises
      by (apply (partial_search_missing _ _ _ _ _ l fr Hdf0); assumption).
    cbn [snd emit store shown]. rewrite <- app_assoc. reflexivity.
  - change (String.eqb "fuzzy" "exact") with false.
    change (String.eqb "fuzzy" "partial") with false.
    change (String.eqb "fuzzy" "fuzzy") with true. cbv iota.
    rewrite !FuzzyFacts.bind_assoc.
    erewrite bind_raises
      by (apply (fuzzy_search_missing _ _ _ _ _ _ l fr Hdf0); assumption).
    cbn [snd emit store shown]. rewrite <- app_assoc. reflexivity.
Qed.

Lemma execute_search_missing_column_witness :
  execute_search Re.compile_plain Argsort.stable_desc
    (Tool (Some 0%nat) None "city" "tokyo" "exact" 60 true StatusOther)
    (Sample.loaded Sample.companies)
  = (Tool (Some 0%nat) None "city" "tokyo" "exact" 60 true StatusError,
     World [Sample.companies] [RootUpdate; ShowError KeyError]).
Proof.
  apply (execute_search_missing_column Re.compile_plain Argsort.stable_desc
           (Tool (Some 0%nat) None "city" "tokyo" "exact" 60 true StatusOther)
           (Sample.loaded Sample.companies) 0%nat Sample.companies
           eq_refl eq_refl eq_refl eq_refl eq_refl).
  left. reflexivity.
Defined.

(** X12. What [execute_search] asks for first.  Without a loaded file it
    warns and returns, whatever the keyword, column and mode; with a file
    and a keyword but no column name it warns and returns.  Either way it
    shows exactly one warning and changes neither the tool nor any
    frame. *)
Theorem execute_search_needs_file_and_column re_compile argsort_desc self w :
  df self = None
  \/ (PyStr.is_empty (PyStr.strip (search_keyword self)) = false
      /\ search_column self = EmptyString) ->
  exists msg,
    execute_search re_compile argsort_desc self w
    = (self, World (store w) (shown w ++ [ShowWarning msg])).
Proof.
  intros [Hdf | [Hkw Hcol]]; unfold execute_search.
  - rewrite Hdf. eexists. reflexivity.
  - destruct (df self); [|eexists; reflexivity].
    rewrite Hkw, Hcol. eexists. reflexivity.
Qed.

Lemma execute_search_needs_file_and_column_witness :
  exists msg,
    execute_search Re.compile_plain Argsort.stable_desc
      (Tool None None "name" "apple" "exact" 60 true StatusOther)
      (World [] [])
    = (Tool None None "name" "apple" "exact" 60 true StatusOther,
       World [] [ShowWarning msg]).
Proof.
  apply (execute_search_needs_file_and_column Re.compile_plain
           Argsort.stable_desc
           (Tool None None "name" "apple" "exact" 60 true StatusOther)
           (World [] [])).
  left. reflexivity.
Defined.

(** X13. The work-list loop of [get_matching_blocks] always ends: within
    [2 * len(a) + 1] turns its queue is empty, whatever the two
    sequences, and the blocks it has found by then cover no more
    characters than the shorter sequence has. *)
Theorem matching_blocks_loop_ends (a b : list ascii) (turns : nat) :
  (2 * length a + 1 <= turns)%nat ->
  Difflib.blocks_loop a b turns [(O, length a, O, length b)] []
  = Some (Difflib.found_blocks a b)
  /\ (DifflibFacts.total (Difflib.found_blocks a b)
      <= Nat.min (length a) (length b))%nat.
Proof.
  intros Ht. split; [|apply DifflibFacts.found_blocks_total].
  destruct (DifflibFacts.blocks_loop_terminates a b) as (bs & E).
  unfold Difflib.found_blocks. rewrite E. simpl.
  apply (MatcherLaws.blocks_loop_more a b _ _ _ _ _ E).
  simpl. lia.
Qed.

Lemma matching_blocks_loop_ends_witness :
  Difflib.blocks_loop (list_ascii_of_string "tide")
    (list_ascii_of_string "diet") 9
    [(O, length (list_ascii_of_string "tide"), O,
      length (list_ascii_of_string "diet"))] []
  = Some (Difflib.found_blocks (list_ascii_of_string "tide")
            (list_ascii_of_string "diet"))
  /\ (DifflibFacts.total
        (Difflib.found_blocks (list_ascii_of_string "tide")
           (list_ascii_of_string "diet"))
      <= Nat.min (length (list_ascii_of_string "tide"))
           (length (list_ascii_of_string "diet")))%nat.
Proof.
  apply (matching_blocks_loop_ends (list_ascii_of_string "tide")
           (list_ascii_of_string "diet") 9).
  simpl. lia.
Defined.

(** X14. Every block of [get_matching_blocks] is a real common substring:
    a block [(i, j, k)] lies inside both sequences, and [a[i+t]] and
    [b[j+t]] are the same element for every [t < k]. *)
Theorem matching_blocks_are_common (a b : list ascii) (i j k t : nat) :
  (i, j, k) ∈ Difflib.get_matching_blocks a b -> (t < k)%nat ->
  exists c, a !! (i + t)%nat = Some c /\ b !! (j + t)%nat = Some c.
Proof.
  intros Hin Ht.
  pose proof (MatcherLaws.get_matching_blocks_common a b) as H.
  rewrite Forall_forall in H.
  apply MatcherLaws.same_elt_true.
  exact (H _ Hin t Ht).
Qed.

Lemma matching_blocks_are_common_witness :
  exists c,
    list_ascii_of_string "apple inc" !! (2 + 1)%nat = Some c
    /\ list_ascii_of_string "maple" !! (2 + 1)%nat = Some c.
Proof.
  apply (matching_blocks_are_common (list_ascii_of_string "apple inc")
           (list_ascii_of_string "maple") 2 2 3 1).
  - vm_compute. repeat constructor.
  - lia.
Defined.

(** X15. A cell whose text has no character in common with the keyword
    (both as compared, so after lower-casing when case is ignored) scores
    exactly 0 in [calculate_similarity]. *)
Theorem no_common_character_scores_0 self keyword c :
  isna c = false ->
  (forall ch,
     ch ∈ list_ascii_of_string (normalize self keyword) ->
     ch ∈ list_ascii_of_string (normalize self (py_str c)) -> False) ->
  (0 < String.length keyword + String.length (py_str c))%nat ->
  Z.of_nat (String.length keyword + String.length (py_str c)) < 2 ^ 53 ->
  calculate_similarity self keyword c = Ok 0.
Proof. apply ScoreLaws.calculate_similarity_disjoint. Qed.

Lemma no_common_character_scores_0_witness :
  calculate_similarity (Sample.tool_for "fuzzy" "xyz" 30 true) "xyz"
    (CStr "Apple Inc") = Ok 0.
Proof.
  apply (no_common_character_scores_0
           (Sample.tool_for "fuzzy" "xyz" 30 true) "xyz" (CStr "Apple Inc")).
  - reflexivity.
  - intros ch H1 H2. vm_compute in H1, H2.
    repeat (apply elem_of_cons in H1 as [->|H1];
            [repeat (apply elem_of_cons in H2 as [H2|H2];
                     [discriminate|]); inversion H2|]).
    inversion H1.
  - simpl. lia.
  - vm_compute. reflexivity.
Defined.

(** X16. A cell that is not null and whose text equals the keyword (after
    lower-casing when case is ignored) scores exactly 100 in
    [calculate_similarity], for texts of every length a float counts
    exactly: the matcher finds the whole text as one block, and
    [int(1.0 * 100)] is 100. *)
Theorem equal_text_scores_100 self keyword c :
  isna c = false ->
  normalize self (py_str c) = normalize self keyword ->
  Z.of_nat (String.length keyword + String.length (py_str c)) < 2 ^ 53 ->
  calculate_similarity self keyword c = Ok 100.
Proof. apply ScoreLaws.calculate_similarity_equal. Qed.

Lemma equal_text_scores_100_witness :
  calculate_similarity (Sample.tool_for "fuzzy" "apple inc" 30 true)
    "apple inc" (CStr "Apple Inc") = Ok 100.
Proof.
  apply (equal_text_scores_100
           (Sample.tool_for "fuzzy" "apple inc" 30 true) "apple inc"
           (CStr "Apple Inc")).
  - reflexivity.
  - reflexivity.
  - vm_compute. reflexivity.
Defined.

(** X17. [fuzzy_search] never misses an exact hit: for every threshold up
    to 100, a row whose cell is not null and whose text equals the keyword
    (after lower-casing when case is ignored) is in the result, with the
    score 100 in its score column. *)
Theorem fuzzy_search_finds_equal_text argsort_desc self keyword column
        threshold w (l : loc) fr p r :
  Argsort.sorts_descending argsort_desc ->
  df self = Some l -> store w !! l = Some fr ->
  Pandas.col_pos column (columns fr) = Some p ->
  NoDup (map fst (rows fr)) -> small_texts keyword p (rows fr) ->
  threshold <= 100 ->
  r ∈ rows fr -> isna (Pandas.cell_at p r) = false ->
  normalize self (py_str (Pandas.cell_at p r)) = normalize self keyword ->
  exists f,
    returned (fuzzy_search argsort_desc self keyword column threshold) w
    = Some f
    /\ (r.1, Pandas.set_cell (score_pos (columns fr)) (CInt 100) r.2)
       ∈ rows f.
Proof.
  intros Hsort Hdf Hl Hp Hnd Hsmall Ht Hr Hna Heq. eexists.
  split; [apply (returned_fuzzy _ _ _ _ _ _ l fr p); assumption|].
  assert (Hs : similarity self keyword (Pandas.cell_at p r) = 100).
  { unfold similarity.
    rewrite ScoreLaws.calculate_similarity_equal; try assumption;
      [reflexivity|].
    apply Hsmall. exact Hr. }
  rewrite (FuzzyFacts.fuzzy_frame_perm argsort_desc) by exact Hsort.
  apply list_elem_of_fmap. exists r. split.
  - unfold with_score. rewrite Hs. reflexivity.
  - unfold hits. apply list_elem_of_filter. split; [|exact Hr].
    unfold fuzzy_match. rewrite Hs. apply Z.leb_le. exact Ht.
Qed.

Lemma fuzzy_search_finds_equal_text_witness :
  exists f,
    returned (fuzzy_search Argsort.stable_desc
                (Sample.tool_for "fuzzy" "orange co" 90 true) "orange co"
                "name" 90)
      (Sample.loaded Sample.companies) = Some f
    /\ (2%nat,
        Pandas.set_cell (score_pos (columns Sample.companies)) (CInt 100)
          [CStr "Orange Co"; CNaN]) ∈ rows f.
Proof.
  apply (fuzzy_search_finds_equal_text Argsort.stable_desc
           (Sample.tool_for "fuzzy" "orange co" 90 true) "orange co" "name"
           90 (Sample.loaded Sample.companies) 0%nat Sample.companies 0%nat
           (2%nat, [CStr "Orange Co"; CNaN])
           ArgsortFacts.stable_desc_sorts eq_refl eq_refl eq_refl).
  - compute_done.
  - unfold small_texts. apply Forall_forall.
    repeat constructor; vm_compute; reflexivity.
  - lia.
  - simpl. repeat constructor.
  - reflexivity.
  - reflexivity.
Defined.

(** X18. The column width [apply_excel_styles] sets is two more than the
    longest cell text of the column, and never more than 50: it lies
    between 2 and 50, every text of at most 48 characters fits with two
    to spare, and unless the column is empty some cell gives the width
    exactly. *)
Theorem column_width_rule (texts : list string) :
  let width := Window.adjusted_width texts in
  (2 <= width <= 50)%nat
  /\ (forall t, t ∈ texts ->
        (Nat.min (String.length t + 2) 50 <= width)%nat)
  /\ (texts <> [] ->
      exists t, t ∈ texts /\ width = Nat.min (String.length t + 2) 50).
Proof.
  unfold Window.adjusted_width.
  destruct (WindowLaws.max_length_spec texts) as [B C].
  split; [lia|]. split.
  - intros t Ht. specialize (B t Ht). lia.
  - intros Hne. destruct (C Hne) as (t & Ht & E).
    exists t. split; [exact Ht|]. rewrite E. reflexivity.
Qed.

Lemma column_width_rule_witness :
  (2 <= Window.adjusted_width ["name"; "Apple Japan"; "Orange Co"] <= 50)%nat.
Proof.
  apply (column_width_rule ["name"; "Apple Japan"; "Orange Co"]).
Defined.

(** X19. The two displays line their rows up.  For a frame with at least
    one column, whose column names and cell texts have at most 15
    characters and whose row labels are below 999, [display_data_preview]
    writes the heading, the rule and one line for each of the first 20
    rows, [display_search_results] two lines more at the top and one line
    for each of the first 50 rows; every row line is exactly as long as
    the rule and the six characters of its label; after them comes the
    count of the rows left out, if any. *)
Theorem display_rows_aligned mode (fr : frame) :
  columns fr <> [] -> rows fr <> [] ->
  Forall (fun c => (String.length c <= 15)%nat) (columns fr) ->
  Forall (WindowLaws.fits (columns fr)) (rows fr) ->
  (exists heading rule lines,
      Window.data_preview (Some fr)
      = heading :: rule :: lines ++ Window.more_rows 20 fr EmptyString
      /\ length lines = Nat.min 20 (length (rows fr))
      /\ Forall (fun line =>
                   String.length line = (String.length rule + 6)%nat) lines)
  /\ (exists count searched_as heading rule lines,
         Window.results_view mode (Some fr)
         = count :: searched_as :: heading :: rule :: lines
           ++ Window.more_rows 50 fr "（保存時には全件出力されます）"
         /\ length lines = Nat.min 50 (length (rows fr))
         /\ Forall (fun line =>
                      String.length line = (String.length rule + 6)%nat)
              lines).
Proof.
  intros Hne Hrows Hc Hr. split.
  - destruct (WindowLaws.table_shape 20 fr Hne Hc Hr)
      as (heading & rule & lines & E & Hlen & Hall).
    exists heading, rule, lines. split; [|split; assumption].
    unfold Window.data_preview. rewrite E. reflexivity.
  - destruct (WindowLaws.table_shape 50 fr Hne Hc Hr)
      as (heading & rule & lines & E & Hlen & Hall).
    assert (Hz : (length (rows fr) =? 0)%nat = false)
      by (destruct (rows fr); [congruence|reflexivity]).
    eexists _, _, heading, rule, lines. split; [|split; assumption].
    unfold Window.results_view. rewrite Hz, E. reflexivity.
Qed.

Lemma display_rows_aligned_witness :
  exists heading rule lines,
    Window.data_preview (Some Sample.companies)
    = heading :: rule :: lines
      ++ Window.more_rows 20 Sample.companies EmptyString
    /\ length lines = Nat.min 20 (length (rows Sample.companies))
    /\ Forall (fun line =>
                 String.length line = (String.length rule + 6)%nat) lines.
Proof.
  apply (display_rows_aligned "exact" Sample.companies).
  - discriminate.
  - discriminate.
  - repeat constructor; simpl; lia.
  - repeat (constructor;
            [split;
             [simpl; lia
             |intros [|[|q]] Hq;
              [vm_compute; lia|vm_compute; lia|simpl in Hq; lia]]|]).
    constructor.
Defined.

(** X20. After [clear_all] nothing of the last file is left to act on:
    [execute_search] only warns that no file is loaded, [save_results]
    only warns that there is nothing to save, the preview says that no
    data is loaded and the result view shows the search hints; no frame
    is touched.  The mode, the threshold and the case switch survive. *)
Theorem clear_all_leaves_nothing re_compile argsort_desc write_excel
        self path w :
  execute_search re_compile argsort_desc (Window.clear_all self) w
  = (Window.clear_all self,
     World (store w)
       (shown w ++ [ShowWarning "まずExcelファイルを読み込んでください。"]))
  /\ Window.save_results write_excel (Window.clear_all self) path w
     = (Ok (Window.clear_all self, Window.NothingToSave),
        World (store w)
          (shown w ++ [ShowWarning "保存する検索結果がありません。"]))
  /\ Window.display_data_preview (Window.clear_all self) w
     = (Ok ["データが読み込まれていません。"], w)
  /\ Window.display_search_results (Window.clear_all self) w
     = (Ok Window.search_hints, w)
  /\ search_mode (Window.clear_all self) = search_mode self
  /\ similarity_threshold (Window.clear_all self) = similarity_threshold self
  /\ ignore_case (Window.clear_all self) = ignore_case self.
Proof. repeat split. Qed.

(** X21. A search without a hit cannot be saved.  When no row matches (in
    any of the three modes) [execute_search] reports 0 results, the result
    view shows the search hints, and [save_results] only warns that there
    is nothing to save: the writer is not called and no frame changes. *)
Theorem search_without_hits_is_not_saved re_compile argsort_desc write_excel
        self w (l : loc) fr p path :
  df self = Some l -> store w !! l = Some fr ->
  PyStr.is_empty (PyStr.strip (search_keyword self)) = false ->
  PyStr.is_empty (search_column self) = false ->
  Pandas.col_pos (search_column self) (columns fr) = Some p ->
  let keyword := PyStr.strip (search_keyword self) in
  (search_mode self = "exact"
   /\ hits (exact_match self keyword) p (rows fr) = [])
  \/ (search_mode self = "partial"
      /\ Re.agrees re_compile /\ Re.plain (normalize self keyword) = true
      /\ hits (partial_match self keyword) p (rows fr) = [])
  \/ (search_mode self = "fuzzy"
      /\ Argsort.sorts_descending argsort_desc
      /\ NoDup (map fst (rows fr)) /\ small_texts keyword p (rows fr)
      /\ hits (fuzzy_match self keyword (similarity_threshold self)) p
           (rows fr) = []) ->
  let after := execute_search re_compile argsort_desc self w in
  status_var after.1 = StatusDone 0
  /\ Window.display_search_results after.1 after.2
     = (Ok Window.search_hints, after.2)
  /\ Window.save_results write_excel after.1 path after.2
     = (Ok (after.1, Window.NothingToSave),
        World (store after.2)
          (shown after.2 ++ [ShowWarning "保存する検索結果がありません。"])).
Proof.
  intros Hdf Hl Hkw Hcol Hp keyword Hmode after.
  assert (H : exists (r : loc) w' res,
             after = (searched r 0 self, w')
             /\ store w' !! r = Some res /\ rows res = []).
  { destruct Hmode as [[Hm Hh] | [(Hm & Hre & Hpl & Hh)
                                 | (Hm & Hs & Hnd & Hsm & Hh)]].
    - pose proof (execute_search_exact re_compile argsort_desc self w l fr p
                    Hdf Hl Hkw Hcol Hp Hm) as E.
      cbv zeta in E. fold keyword in E. rewrite Hh in E.
      eexists _, _, _. split; [exact E|].
      split; [cbn [store]; apply lookup_second|reflexivity].
    - pose proof (execute_search_partial re_compile argsort_desc self w l fr
                    p Hre Hdf Hl Hkw Hcol Hp Hm Hpl) as E.
      cbv zeta in E. fold keyword in E. rewrite Hh in E.
      eexists _, _, _. split; [exact E|].
      split; [cbn [store]; apply lookup_second|reflexivity].
    - destruct (execute_search_fuzzy_frame re_compile argsort_desc self w l
                  fr p Hs Hdf Hl Hkw Hcol Hm Hp Hnd Hsm)
        as (r & w' & f & E & Hr & Hperm & _).
      fold keyword in E, Hperm. rewrite Hh in E, Hperm.
      exists r, w', f. split; [exact E|]. split; [exact Hr|].
      apply Permutation_nil. symmetry. exact Hperm. }
  destruct H as (r & w' & res & -> & Hr & Hrows).
  split; [reflexivity|]. split.
  - unfold Window.display_search_results. cbn [fst snd searched
      search_results set_status set_search_results search_mode].
    erewrite FuzzyFacts.bind_deref by exact Hr.
    unfold Window.results_view. rewrite Hrows. reflexivity.
  - apply (WindowLaws.save_results_empty write_excel _ path w' r res);
      [reflexivity|exact Hr|exact Hrows].
Qed.

Lemma search_without_hits_is_not_saved_witness :
  status_var
    (execute_search Re.compile_plain Argsort.stable_desc
       (Sample.tool_for "exact" "banana" 60 true)
       (Sample.loaded Sample.companies)).1 = StatusDone 0.
Proof.
  apply (search_without_hits_is_not_saved Re.compile_plain
           Argsort.stable_desc (fun _ _ => Ok tt)
           (Sample.tool_for "exact" "banana" 60 true)
           (Sample.loaded Sample.companies) 0%nat Sample.companies 0%nat
           "out.xlsx" eq_refl eq_refl eq_refl eq_refl eq_refl).
  left. split; reflexivity.
Defined.

(** X22. What is saved after an exact search with hits.  [save_results]
    hands the writer three sheets: every row found (not only the 50
    displayed), the four search conditions as they stand in the form (the
    keyword as typed, not stripped), and the first 1000 rows of the
    dataset.  If the writer succeeds the message counts the rows found;
    if it raises, the error is shown.  Either way no frame changes and
    the results stay. *)
Theorem exact_search_then_save re_compile argsort_desc write_excel self w
        (l : loc) fr p path :
  df self = Some l -> store w !! l = Some fr ->
  PyStr.is_empty (PyStr.strip (search_keyword self)) = false ->
  PyStr.is_empty (search_column self) = false ->
  Pandas.col_pos (search_column self) (columns fr) = Some p ->
  search_mode self = "exact" ->
  let found :=
    hits (exact_match self (PyStr.strip (search_keyword self))) p (rows fr) in
  found <> [] -> PyStr.is_empty path = false ->
  let after := execute_search re_compile argsort_desc self w in
  let sheets :=
    [("検索結果", Frame (columns fr) found);
     ("検索条件", Window.search_info self);
     ("元データ（抜粋）", Window.head 1000 fr)] in
  Window.save_results write_excel after.1 path after.2
  = match write_excel path sheets with
    | Ok _ =>
        (Ok (set_status StatusOther after.1,
             Window.Saved path sheets (length found)),
         World (store after.2) (shown after.2 ++ [RootUpdate]))
    | Raise e =>
        (Ok (set_status StatusOther after.1, Window.SaveError e),
         World (store after.2) (shown after.2 ++ [RootUpdate; ShowError e]))
    end.
Proof.
  intros Hdf Hl Hkw Hcol Hp Hm found Hfound Hpath after sheets.
  pose proof (execute_search_exact re_compile argsort_desc self w l fr p
                Hdf Hl Hkw Hcol Hp Hm) as E.
  cbv zeta in E. fold found in E. fold after in E. rewrite E.
  cbn [fst snd].
  rewrite (WindowLaws.save_results_written write_excel _ path _
             (S (length (store w))) l (Frame (columns fr) found) fr);
    try assumption; try reflexivity.
  - cbn [store]. apply lookup_second.
  - cbn [store]. rewrite lookup_app_l by (eapply lookup_lt_Some; exact Hl).
    exact Hl.
Qed.

Lemma exact_search_then_save_witness :
  exists sheets,
    (Window.save_results (fun _ _ => Ok tt)
       (execute_search Re.compile_plain Argsort.stable_desc
          (Sample.tool_for "exact" " APPLE JAPAN " 60 true)
          (Sample.loaded Sample.companies)).1 "out.xlsx"
       (execute_search Re.compile_plain Argsort.stable_desc
          (Sample.tool_for "exact" " APPLE JAPAN " 60 true)
          (Sample.loaded Sample.companies)).2).1
    = Ok (set_status StatusOther
            (execute_search Re.compile_plain Argsort.stable_desc
               (Sample.tool_for "exact" " APPLE JAPAN " 60 true)
               (Sample.loaded Sample.companies)).1,
          Window.Saved "out.xlsx" sheets 2).
Proof.
  eexists.
  rewrite (exact_search_then_save Re.compile_plain Argsort.stable_desc
             (fun _ _ => Ok tt)
             (Sample.tool_for "exact" " APPLE JAPAN " 60 true)
             (Sample.loaded Sample.companies) 0%nat Sample.companies 0%nat
             "out.xlsx" eq_refl eq_refl eq_refl eq_refl eq_refl eq_refl).
  - reflexivity.
  - vm_compute. discriminate.
  - reflexivity.
Defined.

End Extras.
